(** * go-learn: the concurrency examples, embedded and verified

    The development follows the two programs of the repository that the
    specification is about:

    - [cmd/channels/channels.go]: channel basics, buffered channels, the
      for-range and comma-ok receive loops, and the [logger] goroutine
      with its [select] over [logCh] and [doneCh];
    - [cmd/goroutines/goroutines.go]: the [sync.WaitGroup] batches, the
      unguarded [increment] and the [sync.RWMutex] protocol of
      [incrementMutex].

    Go's runtime primitives ([chan], [sync.WaitGroup], [sync.RWMutex],
    [fmt.Printf], [time.Format]) are given their language-level semantics
    as executable functions; goroutines are interleaved by an explicit
    schedule (a list of thread choices), so "for every scheduling" is a
    universal quantification over schedules. *)

From Stdlib Require Import ZArith Bool Ascii String Lia.
From stdpp Require Import base list.

Local Open Scope Z_scope.

#[global] Instance string_eq_dec : EqDecision string := String.string_dec.

(* ===================================================================== *)
(** ** Formatting: [fmt.Printf] and [time.Format]                         *)
(* ===================================================================== *)

Module Fmt.

Local Open Scope string_scope.

(** The decimal digit of [n mod 10]. *)
Definition digit (n : nat) : ascii :=
  ascii_of_nat (48 + Nat.modulo n 10).

(** The last [w] decimal digits of [n], most significant first. *)
Fixpoint fixed_digits (w n : nat) : string :=
  match w with
  | O => ""
  | S w' => fixed_digits w' (Nat.div n 10) ++ String (digit n) ""
  end.

(** The decimal digits of [n] with no padding; [fuel] bounds the number of
    digits produced. *)
Fixpoint digits_fuel (fuel n : nat) (acc : string) : string :=
  match fuel with
  | O => acc
  | S f =>
      let acc' := String (digit n) acc in
      if Nat.eqb (Nat.div n 10) 0 then acc' else digits_fuel f (Nat.div n 10) acc'
  end.

Definition utoa (n : nat) : string := digits_fuel (S n) n "".

(** [%v] of a Go [int]. *)
Definition itoa (z : Z) : string :=
  match z with
  | Z0 => "0"
  | Zpos p => utoa (Pos.to_nat p)
  | Zneg p => "-" ++ utoa (Pos.to_nat p)
  end.

(** [time.appendInt]: [x] in decimal, left-padded with zeros to [width]. *)
Definition appendInt (x width : nat) : string :=
  if Nat.ltb x (Nat.pow 10 width) then fixed_digits width x else utoa x.

(** The civil fields of a [time.Time] in its location: what a layout made
    of year, month, day, hour, minute and second reads. *)
Record time := Time {
  year : nat; month : nat; day : nat;
  hour : nat; minute : nat; second : nat
}.

(** [time.Format]: the layout is read left to right; the reference-time
    chunks the source's layout uses ([2006 01 02 15 04 05]) are replaced by
    the matching field, every other character is copied.  [skip] counts the
    characters of a chunk still to be passed over. *)
Fixpoint format_from (layout : string) (skip : nat) (t : time) : string :=
  match layout with
  | EmptyString => ""
  | String c rest =>
      match skip with
      | S k => format_from rest k t
      | O =>
          if String.prefix "2006" layout then appendInt (year t) 4 ++ format_from rest 3 t
          else if String.prefix "01" layout then appendInt (month t) 2 ++ format_from rest 1 t
          else if String.prefix "02" layout then appendInt (day t) 2 ++ format_from rest 1 t
          else if String.prefix "15" layout then appendInt (hour t) 2 ++ format_from rest 1 t
          else if String.prefix "04" layout then appendInt (minute t) 2 ++ format_from rest 1 t
          else if String.prefix "05" layout then appendInt (second t) 2 ++ format_from rest 1 t
          else String c (format_from rest 0 t)
      end
  end.

Definition Format (t : time) (layout : string) : string := format_from layout 0 t.

(** [fmt.Sprintf] for operands already rendered by [%v]: [%v] consumes the
    next operand, [%%] is a percent sign, a missing operand prints
    [%!v(MISSING)], and operands left over are reported after the text. *)
Fixpoint extra (args : list string) : string :=
  match args with
  | [] => ""
  | [a] => "string=" ++ a
  | a :: rest => "string=" ++ a ++ ", " ++ extra rest
  end.

Fixpoint Sprintf (f : string) (args : list string) : string :=
  match f with
  | EmptyString =>
      match args with
      | [] => ""
      | _ => "%!(EXTRA " ++ extra args ++ ")"
      end
  | String c rest =>
      if Ascii.eqb c "%" then
        match rest with
        | EmptyString => "%!(NOVERB)"
        | String v rest' =>
            if Ascii.eqb v "v" then
              match args with
              | a :: args' => a ++ Sprintf rest' args'
              | [] => "%!v(MISSING)" ++ Sprintf rest' []
              end
            else if Ascii.eqb v "%" then String "%" (Sprintf rest' args)
            else String c (String v (Sprintf rest' args))
        end
      else String c (Sprintf rest args)
  end.

(** The newline character. *)
Definition nl : string := String (ascii_of_nat 10) "".

(** [fmt.Sprintln] for rendered operands: separated by spaces, ended by a
    newline. *)
Fixpoint Sprintln (args : list string) : string :=
  match args with
  | [] => nl
  | [a] => a ++ nl
  | a :: rest => a ++ " " ++ Sprintln rest
  end.

End Fmt.

(* ===================================================================== *)
(** ** Go channels                                                        *)
(* ===================================================================== *)

(** A channel value as the language defines it: a fixed capacity, the
    buffered elements in arrival order, and the closed flag.
    [make(chan T, n)] is [make n]; [make(chan T)] is [make 0]. *)
Module Chan.

Record chan (T : Type) := Mk { cap : nat; buf : list T; closed : bool }.
Arguments Mk {T} _ _ _.
Arguments cap {T} _.
Arguments buf {T} _.
Arguments closed {T} _.

Definition make {T : Type} (n : nat) : chan T := Mk n [] false.

(** What a send statement [ch <- v] does when it is attempted: it
    completes, it cannot proceed yet, or the goroutine panics.  A send
    statement has no result value. *)
Inductive send_outcome (T : Type) :=
| Sent (c : chan T)
| SendBlocks
| SendPanics.
Arguments Sent {T} _.
Arguments SendBlocks {T}.
Arguments SendPanics {T}.

(** The runtime's panic message for [SendPanics]. *)
Definition send_panic : string := "send on closed channel".

(** What a receive [v, ok := <-ch] does when it is attempted. *)
Inductive recv_outcome (T : Type) :=
| Received (v : T) (ok : bool) (c : chan T)
| RecvBlocks.
Arguments Received {T} _ _ _.
Arguments RecvBlocks {T}.

Inductive close_outcome (T : Type) :=
| Closed (c : chan T)
| ClosePanics.
Arguments Closed {T} _.
Arguments ClosePanics {T}.

Definition close_panic : string := "close of closed channel".

Section Ops.
Context {T : Type}.
(** The zero value of the element type. *)
Variable zero : T.

(** [ch <- v]: panics on a closed channel, appends to the buffer when
    there is room, blocks otherwise (always, when the capacity is 0 and no
    receiver is waiting: see [handoff]). *)
Definition chansend (c : chan T) (v : T) : send_outcome T :=
  if closed c then SendPanics
  else if (length (buf c) <? cap c)%nat
       then Sent (Mk (cap c) (buf c ++ [v]) (closed c))
       else SendBlocks.

(** [v, ok := <-ch]: the oldest buffered element with [ok = true]; the
    zero value with [ok = false] when the channel is closed and drained;
    blocks when it is open and empty. *)
Definition chanrecv (c : chan T) : recv_outcome T :=
  match buf c with
  | x :: rest => Received x true (Mk (cap c) rest (closed c))
  | [] => if closed c then Received zero false c else RecvBlocks
  end.

(** [close(ch)]. *)
Definition closechan (c : chan T) : close_outcome T :=
  if closed c then ClosePanics else Closed (Mk (cap c) (buf c) true).

(** Rendezvous: a sender meets a receiver that is waiting on the open,
    empty channel and hands the value over directly; the channel itself is
    unchanged.  This is the only way a send on a capacity-0 channel
    completes. *)
Definition handoff (c : chan T) (v : T) : option (T * bool) :=
  if closed c then None
  else match buf c with
       | [] => Some (v, true)
       | _ :: _ => None
       end.

(** Whether the send statement [ch <- v] returns control to the statement
    after it, when it is attempted with a receiver waiting on the channel
    ([waiting]) or with none: through the buffer when there is room, and
    otherwise by handing the value to the waiting receiver. *)
Definition completes (waiting : bool) (c : chan T) (v : T) : bool :=
  match chansend c v with
  | Sent _ => true
  | SendBlocks =>
      waiting && match handoff c v with Some _ => true | None => false end
  | SendPanics => false
  end.

(** [k] successive receives by one goroutine, with their results; [None]
    when one of them blocks. *)
Fixpoint receive_n (k : nat) (c : chan T) : option (list (T * bool) * chan T) :=
  match k with
  | O => Some ([], c)
  | S k' =>
      match chanrecv c with
      | Received v ok c' =>
          match receive_n k' c' with
          | Some (l, c'') => Some ((v, ok) :: l, c'')
          | None => None
          end
      | RecvBlocks => None
      end
  end.

(** *** Histories: every interleaving of operations on one channel *)

(** The operations goroutines attempt on a channel, in the order the
    scheduler runs them. *)
Inductive op :=
| OSend (v : T)
| ORecv
| OClose
| OHandoff (v : T).

(** The channel together with what has been sent into it and what the
    receives have returned, in order. *)
Record hist := Hist {
  hch : chan T;
  sent : list T;
  got : list (T * bool)
}.

Definition start (n : nat) : hist := Hist (make n) [] [].

(** One attempted operation.  An operation that blocks or panics leaves
    the channel and the logs as they are. *)
Definition exec (o : op) (h : hist) : hist :=
  match o with
  | OSend v =>
      match chansend (hch h) v with
      | Sent c' => Hist c' (sent h ++ [v]) (got h)
      | SendBlocks | SendPanics => h
      end
  | ORecv =>
      match chanrecv (hch h) with
      | Received v ok c' => Hist c' (sent h) (got h ++ [(v, ok)])
      | RecvBlocks => h
      end
  | OClose =>
      match closechan (hch h) with
      | Closed c' => Hist c' (sent h) (got h)
      | ClosePanics => h
      end
  | OHandoff v =>
      match handoff (hch h) v with
      | Some r => Hist (hch h) (sent h ++ [v]) (got h ++ [r])
      | None => h
      end
  end.

Definition run (ops : list op) (h : hist) : hist :=
  fold_left (fun h o => exec o h) ops h.

(** The elements the receives delivered ([ok = true]), in order. *)
Definition delivered (l : list (T * bool)) : list T :=
  map fst (filter (fun r => snd r = true) l).

(** What every reachable history satisfies: the buffer fits the capacity
    and, appended to what was delivered, is exactly what was sent. *)
Definition hist_inv (n : nat) (h : hist) : Prop :=
  cap (hch h) = n /\
  (length (buf (hch h)) <= n)%nat /\
  sent h = delivered (got h) ++ buf (hch h).

(** *** Invariants of a history *)

Lemma delivered_snoc_ok (l : list (T * bool)) (v : T) :
  delivered (l ++ [(v, true)]) = delivered l ++ [v].
Proof.
  unfold delivered. rewrite filter_app, map_app. reflexivity.
Qed.

Lemma delivered_snoc_closed (l : list (T * bool)) (v : T) :
  delivered (l ++ [(v, false)]) = delivered l.
Proof.
  unfold delivered. rewrite filter_app, map_app. apply app_nil_r.
Qed.

Lemma start_inv (n : nat) : hist_inv n (start n).
Proof. unfold hist_inv, start, make; simpl. repeat split; lia. Qed.

Lemma exec_inv (n : nat) (o : op) (h : hist) :
  hist_inv n h -> hist_inv n (exec o h).
Proof.
  intros (Hcap & Hlen & Hfifo). destruct h as [[k b cl] s g]; simpl in *. subst k.
  destruct o as [v | | | v]; unfold exec, chansend, chanrecv, closechan, handoff; simpl.
  - destruct cl; [repeat split; assumption|].
    destruct (Nat.ltb_spec (length b) n) as [Hlt | Hge]; simpl.
    + repeat split; simpl.
      * rewrite length_app; simpl; lia.
      * rewrite Hfifo, app_assoc; reflexivity.
    + repeat split; assumption.
  - destruct b as [|x rest]; simpl.
    + destruct cl; simpl.
      * repeat split; simpl; try lia.
        rewrite delivered_snoc_closed. assumption.
      * repeat split; assumption.
    + repeat split; simpl.
      * simpl in Hlen. lia.
      * rewrite delivered_snoc_ok, <- app_assoc. assumption.
  - destruct cl; simpl; repeat split; assumption.
  - destruct cl; simpl; [repeat split; assumption|].
    destruct b as [|x rest]; simpl; [|repeat split; assumption].
    repeat split; simpl; try lia.
    rewrite delivered_snoc_ok, !app_nil_r. rewrite app_nil_r in Hfifo. congruence.
Qed.

Lemma run_inv (n : nat) (ops : list op) (h : hist) :
  hist_inv n h -> hist_inv n (run ops h).
Proof.
  revert h. induction ops as [|o ops IH]; intros h Hh; simpl; [assumption|].
  apply IH, exec_inv, Hh.
Qed.

(** Once closed, a channel stays closed (there is no reopening). *)
Lemma exec_closed (o : op) (h : hist) :
  closed (hch h) = true -> closed (hch (exec o h)) = true.
Proof.
  intros Hc. destruct h as [[k b cl] s g]; simpl in *. subst cl.
  destruct o; unfold exec, chansend, chanrecv, closechan, handoff; simpl;
    try reflexivity.
  destruct b; reflexivity.
Qed.

Lemma run_closed (ops : list op) (h : hist) :
  closed (hch h) = true -> closed (hch (run ops h)) = true.
Proof.
  revert h. induction ops as [|o ops IH]; intros h Hh; simpl; [assumption|].
  apply IH, exec_closed, Hh.
Qed.

(** *** Receiving from a closed channel *)

Lemma receive_n_buffered (c : chan T) :
  receive_n (length (buf c)) c
  = Some (map (fun x => (x, true)) (buf c), Mk (cap c) [] (closed c)).
Proof.
  destruct c as [k b cl]. simpl. induction b as [|x rest IH]; simpl.
  - reflexivity.
  - unfold chanrecv; simpl. rewrite IH. reflexivity.
Qed.

Lemma receive_n_drained (k : nat) (c : chan T) :
  closed c = true -> buf c = [] ->
  receive_n k c = Some (repeat (zero, false) k, c).
Proof.
  intros Hc Hb. induction k as [|k IH]; simpl; [reflexivity|].
  unfold chanrecv. rewrite Hb, Hc, IH. reflexivity.
Qed.

Lemma receive_n_app (j k : nat) (c c1 c2 : chan T) (l1 l2 : list (T * bool)) :
  receive_n j c = Some (l1, c1) ->
  receive_n k c1 = Some (l2, c2) ->
  receive_n (j + k) c = Some (l1 ++ l2, c2).
Proof.
  revert c l1. induction j as [|j IH]; simpl; intros c l1 H1 H2.
  - injection H1 as <- <-. assumption.
  - destruct (chanrecv c) as [v ok c'|]; [|discriminate].
    destruct (receive_n j c') as [[l c'']|] eqn:E; [|discriminate].
    injection H1 as <- <-. rewrite (IH _ _ E H2). reflexivity.
Qed.

(** C2. After [close(ch)] every element buffered at close time is still
    delivered, in order, as [(item, true)]; every receive after that
    returns [(zero, false)] without blocking; and a receive reports
    [ok = false] exactly when the channel is closed and its buffer empty. *)
Theorem close_then_drain (c c' : chan T) (k : nat) :
  closechan c = Closed c' ->
  receive_n (length (buf c) + k) c'
  = Some (map (fun x => (x, true)) (buf c) ++ repeat (zero, false) k,
          Mk (cap c) [] true)
  /\ (forall (d d' : chan T) (v : T),
        chanrecv d = Received v false d'
        <-> closed d = true /\ buf d = [] /\ v = zero /\ d' = d)
  /\ (forall d : chan T, closed d = true -> chanrecv d <> RecvBlocks).
Proof.
  intros Hclose. unfold closechan in Hclose.
  destruct (closed c) eqn:Hc; [discriminate|]. injection Hclose as <-.
  split; [|split].
  - eapply receive_n_app.
    + exact (receive_n_buffered (Mk (cap c) (buf c) true)).
    + apply receive_n_drained; reflexivity.
  - intros d d' v. unfold chanrecv. split.
    + destruct (buf d) as [|x rest]; [|discriminate].
      destruct (closed d); [|discriminate].
      intros H. injection H as <- <-. auto.
    + intros (Hd & Hb & -> & ->). rewrite Hb, Hd. reflexivity.
  - intros d Hd. unfold chanrecv. rewrite Hd. destruct (buf d); discriminate.
Qed.

(** *** Sending *)

(** C1 (as the code has it). A send on a channel that is closed when it
    is attempted, or that was closed while the send was blocked, makes the
    sending goroutine panic, whatever the capacity: the value goes neither
    into the buffer nor to a receiver that waits, so the statement does not
    complete and hands no value back to the sender.  A send panics on no
    other channel, and on an open, empty channel with a receiver waiting it
    does complete. *)
Theorem send_on_closed_panics (c : chan T) (v : T) :
  closed c = true
  \/ (exists c0 : chan T, chansend c0 v = SendBlocks /\ closechan c0 = Closed c) ->
  chansend c v = SendPanics
  /\ handoff c v = None
  /\ (forall waiting : bool, completes waiting c v = false)
  /\ (forall d : chan T, chansend d v = SendPanics <-> closed d = true)
  /\ (forall (d : chan T) (waiting : bool),
        completes waiting d v = true -> closed d = false)
  /\ (forall d : chan T,
        closed d = false -> buf d = [] -> completes true d v = true).
Proof.
  intros H.
  assert (Hc : closed c = true).
  { destruct H as [H | (c0 & _ & H)]; [assumption|].
    unfold closechan in H. destruct (closed c0); [discriminate|].
    injection H as <-. reflexivity. }
  split; [unfold chansend; rewrite Hc; reflexivity|].
  split; [unfold handoff; rewrite Hc; reflexivity|].
  split; [intros waiting; unfold completes, chansend; rewrite Hc; reflexivity|].
  split; [|split].
  - intros d. unfold chansend. destruct (closed d); [tauto|].
    destruct (length (buf d) <? cap d)%nat; split; discriminate.
  - intros d waiting. unfold completes, chansend, handoff.
    destruct (closed d); [discriminate|reflexivity].
  - intros d Hd Hb. unfold completes, chansend, handoff. rewrite Hd, Hb.
    destruct (length [] <? cap d)%nat; reflexivity.
Qed.

(** C6. A channel made with capacity [n] never buffers more than [n]
    elements, whatever operations are attempted on it in whatever order;
    when [n] elements are buffered in an open channel a further send
    blocks, nothing but a receive makes room, and once a receive has taken
    an element out the send goes through. *)
Theorem capacity_never_exceeded (n : nat) (ops : list op) (v : T) :
  let h := run ops (start n) in
  let c := hch h in
  (length (buf c) <= n)%nat
  /\ (length (buf c) = n -> closed c = false ->
      chansend c v = SendBlocks
      /\ (forall o : op, o <> ORecv -> length (buf (hch (exec o h))) = n)
      /\ forall (x : T) (c' : chan T),
           chanrecv c = Received x true c' ->
           exists c'' : chan T,
             chansend c' v = Sent c'' /\ length (buf c'') = n).
Proof.
  intros h c. destruct (run_inv n ops (start n) (start_inv n)) as (Hcap & Hlen & _).
  fold h in Hcap, Hlen. fold c in Hcap, Hlen. split; [assumption|].
  intros Hfull Hopen. split; [|split].
  - unfold chansend. rewrite Hopen, Hcap, Hfull, Nat.ltb_irrefl. reflexivity.
  - intros o Ho. unfold exec, chansend, closechan, handoff. fold c.
    rewrite Hopen, Hcap, Hfull, Nat.ltb_irrefl.
    destruct o as [w| | |w]; simpl.
    + exact Hfull.
    + contradiction.
    + exact Hfull.
    + destruct (buf c) eqn:Hb; simpl; fold c; rewrite ?Hb; exact Hfull.
  - intros x c' Hrecv. unfold chansend, chanrecv in *.
    destruct (buf c) as [|y rest] eqn:Hb.
    + rewrite Hopen in Hrecv. discriminate.
    + injection Hrecv as <- <-. simpl. simpl in Hfull. rewrite Hopen, Hcap.
      destruct (Nat.ltb_spec (length rest) n) as [_ | Hge]; [|lia].
      eexists; split; [reflexivity|]. simpl. rewrite length_app. simpl. lia.
Qed.

(** *** Order *)

Lemma delivered_app (l1 l2 : list (T * bool)) :
  delivered (l1 ++ l2) = delivered l1 ++ delivered l2.
Proof. unfold delivered. rewrite filter_app, map_app. reflexivity. Qed.

Lemma delivered_all (b : list T) : delivered (map (fun x => (x, true)) b) = b.
Proof.
  induction b as [|x rest IH]; [reflexivity|].
  change (map (fun x => (x, true)) (x :: rest))
    with ([(x, true)] ++ map (fun x => (x, true)) rest).
  rewrite delivered_app, IH. reflexivity.
Qed.

Lemma run_app (a b : list op) (h : hist) : run (a ++ b) h = run b (run a h).
Proof. unfold run. apply fold_left_app. Qed.

(** As many receives as there are buffered elements return them, oldest
    first, and empty the buffer. *)
Lemma run_drain (b : list T) :
  forall h : hist,
    buf (hch h) = b ->
    run (repeat ORecv (length b)) h
    = Hist (Mk (cap (hch h)) [] (closed (hch h))) (sent h)
           (got h ++ map (fun x => (x, true)) b).
Proof.
  unfold run.
  induction b as [|x rest IH]; intros [[k q cl] s g] Hb; simpl in Hb; subst q.
  - simpl. rewrite app_nil_r. reflexivity.
  - simpl. unfold chanrecv. simpl.
    rewrite (IH (Hist (Mk k rest cl) s (g ++ [(x, true)])) eq_refl). simpl.
    rewrite <- app_assoc. reflexivity.
Qed.

(** Sends that find room put their values at the end of the buffer. *)
Lemma run_sends (vs : list T) :
  forall h : hist,
    closed (hch h) = false ->
    (length (buf (hch h)) + length vs <= cap (hch h))%nat ->
    run (map OSend vs) h
    = Hist (Mk (cap (hch h)) (buf (hch h) ++ vs) false) (sent h ++ vs) (got h).
Proof.
  unfold run.
  induction vs as [|v vs IH]; intros [[k q cl] s g] Hcl Hlen; simpl in *; subst cl.
  - rewrite !app_nil_r. reflexivity.
  - unfold chansend. simpl.
    destruct (Nat.ltb_spec (length q) k) as [_|Hge]; [|lia].
    rewrite (IH (Hist (Mk k (q ++ [v]) false) (s ++ [v]) g));
      simpl; [|reflexivity|rewrite length_app; simpl; lia].
    rewrite <- !app_assoc. reflexivity.
Qed.

(** Values handed over one by one arrive one by one. *)
Lemma run_handoffs (vs : list T) :
  forall h : hist,
    closed (hch h) = false -> buf (hch h) = [] ->
    run (map OHandoff vs) h
    = Hist (hch h) (sent h ++ vs) (got h ++ map (fun x => (x, true)) vs).
Proof.
  unfold run.
  induction vs as [|v vs IH]; intros [[k q cl] s g] Hcl Hb; simpl in *;
    subst cl q.
  - rewrite !app_nil_r. reflexivity.
  - unfold handoff. simpl.
    rewrite (IH (Hist (Mk k [] false) (s ++ [v]) (g ++ [(v, true)])))
      by reflexivity.
    simpl. rewrite <- !app_assoc. reflexivity.
Qed.

(** C7. On one channel, what the receives return is what the sends put
    in, in the same order.  At every moment the delivered elements followed
    by the buffered ones are exactly the elements sent; a receive that
    finds elements returns the oldest and takes it out; a send that finds
    room puts its value last; so receiving what is buffered delivers
    everything sent, and [vs] sent into a channel with room for them, or
    handed over one by one on a channel without buffer, come out as [vs]. *)
Theorem fifo_order (n : nat) (ops : list op) (vs : list T) :
  let h := run ops (start n) in
  sent h = delivered (got h) ++ buf (hch h)
  /\ (buf (hch h) = [] -> delivered (got h) = sent h)
  /\ (forall (x : T) (rest : list T),
        buf (hch h) = x :: rest ->
        chanrecv (hch h) = Received x true (Mk n rest (closed (hch h))))
  /\ (forall v : T,
        closed (hch h) = false -> (length (buf (hch h)) < n)%nat ->
        chansend (hch h) v = Sent (Mk n (buf (hch h) ++ [v]) false))
  /\ delivered (got (run (repeat ORecv (length (buf (hch h)))) h)) = sent h
  /\ ((length vs <= n)%nat ->
      got (run (map OSend vs ++ repeat ORecv (length vs)) (start n))
      = map (fun x => (x, true)) vs)
  /\ got (run (map OHandoff vs) (start n)) = map (fun x => (x, true)) vs.
Proof.
  intros h. destruct (run_inv n ops (start n) (start_inv n)) as (Hcap & _ & Hfifo).
  fold h in Hcap, Hfifo. split; [assumption|].
  split; [intros Hb; rewrite Hfifo, Hb, app_nil_r; reflexivity|].
  split; [|split; [|split; [|split]]].
  - intros x rest Hb. unfold chanrecv. rewrite Hb, Hcap. reflexivity.
  - intros v Hcl Hlt. unfold chansend. rewrite Hcl, Hcap.
    apply Nat.ltb_lt in Hlt. rewrite Hlt. reflexivity.
  - rewrite (run_drain (buf (hch h)) h eq_refl). cbn [got].
    rewrite delivered_app, delivered_all. symmetry. exact Hfifo.
  - intros Hlen. rewrite run_app.
    rewrite (run_sends vs (start n)) by (simpl; (reflexivity || lia)).
    simpl.
    rewrite (run_drain vs (Hist (Mk n vs false) vs []) eq_refl). reflexivity.
  - rewrite (run_handoffs vs (start n)) by reflexivity. reflexivity.
Qed.

End Ops.

Arguments chanrecv {T} zero c.
Arguments receive_n {T} zero k c.

(** A closed channel with elements still buffered, as the receiver of the
    comma-ok loop meets it after the sender's [close]. *)
Lemma close_then_drain_witness :
  receive_n 0%Z 3 (Mk 50 [42; 27]%Z true)
  = Some ([(42, true); (27, true); (0, false)]%Z, Mk 50 [] true).
Proof.
  exact (proj1 (close_then_drain 0%Z (Mk 50 [42; 27]%Z false) _ 1 eq_refl)).
Defined.

Lemma send_on_closed_panics_witness :
  chansend (Mk 50 [42]%Z true) 27%Z = SendPanics
  /\ handoff (Mk 0 [] true) 27%Z = None
  /\ completes true (Mk 0 [] true) 27%Z = false.
Proof.
  split.
  - exact (proj1 (send_on_closed_panics (Mk 50 [42]%Z true) 27%Z
                    (or_introl eq_refl))).
  - destruct (send_on_closed_panics (Mk 0 [] true) 27%Z (or_introl eq_refl))
      as (_ & H1 & H2 & _).
    split; [exact H1|exact (H2 true)].
Defined.

(** The same send, read as the claim words it: a send on a closed channel
    that "returns an error value" would complete; it does not, with or
    without a receiver waiting. *)
Lemma send_on_closed_does_not_return (waiting : bool) :
  completes waiting (Mk 50 [42]%Z true) 27%Z <> true.
Proof. destruct waiting; discriminate. Qed.

(** The sender of the for-range example and its receiver: 42 and 27 go in,
    42 and 27 come out. *)
Lemma fifo_order_witness :
  got (run 0%Z ([OSend 42%Z; OSend 27%Z] ++ [ORecv; ORecv]) (start 50))
  = [(42%Z, true); (27%Z, true)].
Proof.
  destruct (fifo_order 0%Z 50 [] [42%Z; 27%Z]) as (_ & _ & _ & _ & _ & H & _).
  apply H. simpl. lia.
Defined.

Lemma capacity_never_exceeded_witness :
  chansend (hch (run 0%Z [OSend 42%Z; OSend 27%Z] (start 2))) 33%Z = SendBlocks
  /\ exists c'' : chan Z,
       chansend (Mk 2 [27%Z] false) 33%Z = Sent c'' /\ length (buf c'') = 2%nat.
Proof.
  pose proof (capacity_never_exceeded 0%Z 2 [OSend 42%Z; OSend 27%Z] 33%Z) as H.
  destruct H as (_ & H). destruct (H eq_refl eq_refl) as (Hb & _ & Hr).
  split; [exact Hb|]. exact (Hr 42%Z _ eq_refl).
Defined.

End Chan.

(* ===================================================================== *)
(** ** channels.go, "For loops with channels"                             *)
(* ===================================================================== *)

(** The three producer/consumer examples share one shape: [main] adds 2 to
    the wait group, starts a receiver that prints everything it receives
    until the channel is closed, starts a sender, and waits.  Examples 2
    and 4 differ only in how the receive loop is written ([for i := range
    ch] against the comma-ok form); both stop on [ok = false]. *)
Module ForRange.

Import Chan.

(** The sender's statements. *)
Inductive sstmt :=
| Send (v : Z)      (* ch <- v *)
| Close             (* close(ch) *)
| Done.             (* wg.Done() *)

(** Examples 2 and 4 (lines 248-253 and 288-293). *)
Definition sender : list sstmt := [Send 42; Send 27; Close; Done].

(** Example 3, "premature closure" (lines 265-270). *)
Definition sender_premature : list sstmt := [Send 42; Close; Send 27; Done].

(** The receiver: at the receive of its loop, at [wg.Done()], or returned. *)
Inductive rpc := RLoop | RDone | REnd.

(** [main]: [wg.Add(2)], the two [go] statements, [wg.Wait()]. *)
Inductive mpc := MAdd | MGoRecv | MGoSend | MWait | MEnd.

Record state := State {
  ch : chan Z;
  wg : Z;
  main : mpc;
  rcv : option rpc;            (* [None]: not started yet *)
  snd : option (list sstmt);   (* the statements the sender has left *)
  out : list string            (* what was printed, line by line *)
}.

Inductive tid := Main | Receiver | Sender.

Inductive result :=
| Ok (s : state)
| Blocked
| Panic (msg : string).

Definition wg_panic : string := "sync: negative WaitGroup counter".

(** [wg.Done()] *)
Definition wg_done (s : state) (k : state -> state) : result :=
  if 0 <? wg s then Ok (k s) else Panic wg_panic.

(** [make(chan int, 50)]; the package-level [wg] is at 0 when an example
    begins, the [wg.Wait()] of the example before it having returned. *)
Definition init : state := State (make 50) 0 MAdd None None [].

(** One step of the thread the scheduler picked; [code] is the sender's
    body. *)
Definition step (code : list sstmt) (t : tid) (s : state) : result :=
  match t with
  | Main =>
      match main s with
      | MAdd => Ok (State (ch s) (wg s + 2) MGoRecv (rcv s) (snd s) (out s))
      | MGoRecv => Ok (State (ch s) (wg s) MGoSend (Some RLoop) (snd s) (out s))
      | MGoSend => Ok (State (ch s) (wg s) MWait (rcv s) (Some code) (out s))
      | MWait =>
          if wg s =? 0 then Ok (State (ch s) (wg s) MEnd (rcv s) (snd s) (out s))
          else Blocked
      | MEnd => Blocked
      end
  | Receiver =>
      match rcv s with
      | Some RLoop =>
          match chanrecv 0 (ch s) with
          | Received i true c' =>
              Ok (State c' (wg s) (main s) (rcv s) (snd s)
                        (out s ++ [Fmt.Sprintln [Fmt.itoa i]]))
          | Received _ false c' =>
              Ok (State c' (wg s) (main s) (Some RDone) (snd s) (out s))
          | RecvBlocks => Blocked
          end
      | Some RDone =>
          wg_done s (fun s => State (ch s) (wg s - 1) (main s) (Some REnd) (snd s) (out s))
      | Some REnd | None => Blocked
      end
  | Sender =>
      match snd s with
      | Some (Send v :: rest) =>
          match chansend (ch s) v with
          | Sent c' => Ok (State c' (wg s) (main s) (rcv s) (Some rest) (out s))
          | SendBlocks => Blocked
          | SendPanics => Panic send_panic
          end
      | Some (Close :: rest) =>
          match closechan (ch s) with
          | Closed c' => Ok (State c' (wg s) (main s) (rcv s) (Some rest) (out s))
          | ClosePanics => Panic close_panic
          end
      | Some (Done :: rest) =>
          wg_done s (fun s => State (ch s) (wg s - 1) (main s) (rcv s) (Some rest) (out s))
      | Some [] | None => Blocked
      end
  end.

(** Running a schedule: the result of the first step that does not go
    through, or the state reached. *)
Fixpoint steps (code : list sstmt) (sched : list tid) (s : state) : result :=
  match sched with
  | [] => Ok s
  | t :: rest =>
      match step code t s with
      | Ok s' => steps code rest s'
      | r => r
      end
  end.

(** *** The reachable states, by exhaustive exploration *)

#[global] Instance chan_eq_dec {T : Type} `{EqDecision T} : EqDecision (chan T).
Proof. solve_decision. Defined.
#[global] Instance sstmt_eq_dec : EqDecision sstmt.
Proof. solve_decision. Defined.
#[global] Instance rpc_eq_dec : EqDecision rpc.
Proof. solve_decision. Defined.
#[global] Instance mpc_eq_dec : EqDecision mpc.
Proof. solve_decision. Defined.
#[global] Instance state_eq_dec : EqDecision state.
Proof. solve_decision. Defined.

Definition threads : list tid := [Main; Receiver; Sender].

(** The states one step away. *)
Definition successors (code : list sstmt) (s : state) : list state :=
  flat_map (fun t => match step code t s with Ok s' => [s'] | _ => [] end) threads.

Fixpoint explore (code : list sstmt) (fuel : nat) (todo seen : list state) : list state :=
  match fuel with
  | O => seen
  | S fuel' =>
      match todo with
      | [] => seen
      | s :: rest =>
          if bool_decide (s ∈ seen) then explore code fuel' rest seen
          else explore code fuel' (successors code s ++ rest) (s :: seen)
      end
  end.

Definition reachable (code : list sstmt) : list state :=
  explore code 1000 [init] [].

(** [R] contains every successor of its members. *)
Definition closed_under (code : list sstmt) (R : list state) : bool :=
  forallb (fun s =>
    forallb (fun t => match step code t s with
                      | Ok s' => bool_decide (s' ∈ R)
                      | _ => true
                      end) threads) R.

(** What Examples 2 and 4 promise once [main] is past [wg.Wait()]. *)
Definition all_printed (s : state) : bool :=
  match main s with
  | MEnd =>
      bool_decide (out s = [Fmt.Sprintln [Fmt.itoa 42]; Fmt.Sprintln [Fmt.itoa 27]])
      && bool_decide (rcv s = Some REnd) && bool_decide (snd s = Some [])
  | _ => true
  end.

(** No thread's next step panics. *)
Definition no_panic (code : list sstmt) (s : state) : bool :=
  forallb (fun t => match step code t s with Panic _ => false | _ => true end) threads.

(** The sender of Example 3 is never past its second send. *)
Definition second_send_panics (s : state) : bool :=
  match snd s with
  | Some [Send 27; Done] =>
      match step sender_premature Sender s with
      | Panic msg => bool_decide (msg = send_panic)
      | _ => false
      end
  | Some [Done] | Some [] => false
  | _ => true
  end.

(** A complete run of Examples 2 and 4 in which the receiver takes each
    value as soon as it is sent. *)
Definition in_step : list tid :=
  [Main; Main; Main; Sender; Receiver; Sender; Receiver;
   Sender; Receiver; Sender; Receiver; Main].

Definition after_in_step : state :=
  Eval vm_compute in
    match steps sender in_step init with
    | Ok s => s
    | _ => init
    end.

Lemma forallb_elem {A : Type} (f : A -> bool) (l : list A) (x : A) :
  forallb f l = true -> x ∈ l -> f x = true.
Proof.
  induction l as [|y l IH]; simpl; intros H Hin.
  - inversion Hin.
  - apply andb_true_iff in H as [H1 H2]. inversion Hin; subst; auto.
Qed.

Lemma closed_under_step (code : list sstmt) (R : list state) (t : tid) (s s' : state) :
  closed_under code R = true -> s ∈ R -> step code t s = Ok s' -> s' ∈ R.
Proof.
  intros Hcl Hs Hstep. pose proof (forallb_elem _ _ _ Hcl Hs) as H.
  assert (Ht : t ∈ threads) by (destruct t; unfold threads; repeat constructor).
  pose proof (forallb_elem _ _ _ H Ht) as H'. simpl in H'.
  rewrite Hstep in H'. apply bool_decide_eq_true in H'. exact H'.
Qed.

Lemma closed_under_steps (code : list sstmt) (R : list state) (sched : list tid) :
  closed_under code R = true ->
  forall s s' : state, s ∈ R -> steps code sched s = Ok s' -> s' ∈ R.
Proof.
  intros Hcl. induction sched as [|t sched IH]; simpl; intros s s' Hs Hrun.
  - injection Hrun as <-. exact Hs.
  - destruct (step code t s) as [s1| |msg] eqn:E; try discriminate.
    eapply IH; [|exact Hrun]. eapply closed_under_step; eassumption.
Qed.

Lemma reachable_sound (code : list sstmt) (sched : list tid) (s : state) :
  closed_under code (reachable code) = true ->
  bool_decide (init ∈ reachable code) = true ->
  steps code sched init = Ok s -> s ∈ reachable code.
Proof.
  intros Hcl Hinit Hrun. apply bool_decide_eq_true in Hinit.
  eapply closed_under_steps; eassumption.
Qed.

Lemma sender_reachable_closed : closed_under sender (reachable sender) = true.
Proof. vm_compute. reflexivity. Qed.

Lemma sender_reachable_init : bool_decide (init ∈ reachable sender) = true.
Proof. vm_compute. reflexivity. Qed.

Lemma premature_reachable_init :
  bool_decide (init ∈ reachable sender_premature) = true.
Proof. vm_compute. reflexivity. Qed.

Lemma premature_reachable_closed :
  closed_under sender_premature (reachable sender_premature) = true.
Proof. vm_compute. reflexivity. Qed.

(** X2. Examples 2 and 4, every schedule: when [main] is past [wg.Wait()]
    both values have been printed, in the order they were sent, and both
    goroutines have returned ("this value is not lost this time"). *)
Lemma for_range_prints_all (sched : list tid) (s : state) :
  steps sender sched init = Ok s ->
  main s = MEnd ->
  out s = [Fmt.Sprintln [Fmt.itoa 42]; Fmt.Sprintln [Fmt.itoa 27]]
  /\ rcv s = Some REnd /\ snd s = Some [].
Proof.
  intros Hrun Hend.
  pose proof (reachable_sound _ _ _ sender_reachable_closed sender_reachable_init Hrun) as Hin.
  assert (Hall : forallb all_printed (reachable sender) = true)
    by (vm_compute; reflexivity).
  pose proof (forallb_elem _ _ _ Hall Hin) as H. unfold all_printed in H.
  rewrite Hend in H. apply andb_true_iff in H as [H H3].
  apply andb_true_iff in H as [H1 H2].
  apply bool_decide_eq_true in H1, H2, H3. auto.
Qed.

(** X3. No step of Examples 2 and 4 panics, whatever the schedule. *)
Lemma for_range_never_panics (sched : list tid) (msg : string) :
  steps sender sched init <> Panic msg.
Proof.
  assert (Hall : forallb (no_panic sender) (reachable sender) = true)
    by (vm_compute; reflexivity).
  assert (Hgen : forall s, s ∈ reachable sender -> steps sender sched s <> Panic msg).
  { induction sched as [|t sched IH]; simpl; intros s Hs; [discriminate|].
    destruct (step sender t s) as [s1| |m] eqn:E.
    - apply IH. exact (closed_under_step _ _ _ _ _ sender_reachable_closed Hs E).
    - discriminate.
    - pose proof (forallb_elem _ _ _ Hall Hs) as H. unfold no_panic in H.
      assert (Ht : t ∈ threads) by (destruct t; unfold threads; repeat constructor).
      pose proof (forallb_elem _ _ _ H Ht) as H'. simpl in H'.
      rewrite E in H'. discriminate. }
  apply Hgen. apply (proj1 (bool_decide_eq_true _)). exact sender_reachable_init.
Qed.

(** X22 (channels.go:257-271). Example 3, every schedule: once the sender
    has closed the channel, its next send panics; it never reaches
    [wg.Done()]. *)
Lemma premature_close_panics (sched : list tid) (s : state) :
  steps sender_premature sched init = Ok s ->
  (snd s = Some [Send 27; Done] ->
   step sender_premature Sender s = Panic send_panic)
  /\ snd s <> Some [Done] /\ snd s <> Some [].
Proof.
  intros Hrun.
  pose proof (reachable_sound _ _ _ premature_reachable_closed premature_reachable_init Hrun) as Hin.
  assert (Hall : forallb second_send_panics (reachable sender_premature) = true)
    by (vm_compute; reflexivity).
  pose proof (forallb_elem _ _ _ Hall Hin) as H. clear Hall Hin Hrun.
  unfold second_send_panics in H.
  split; [|split].
  - intros Hs. rewrite Hs in H.
    destruct (step sender_premature Sender s) as [s1| |m] eqn:E in H |- *;
      try discriminate.
    apply bool_decide_eq_true in H. congruence.
  - intros Hs. rewrite Hs in H. discriminate.
  - intros Hs. rewrite Hs in H. discriminate.
Qed.

Lemma run_in_step : steps sender in_step init = Ok after_in_step.
Proof. vm_compute. reflexivity. Qed.

Lemma for_range_prints_all_witness :
  steps sender in_step init = Ok after_in_step
  /\ main after_in_step = MEnd
  /\ out after_in_step = [Fmt.Sprintln [Fmt.itoa 42]; Fmt.Sprintln [Fmt.itoa 27]].
Proof.
  split; [exact run_in_step|]. split; [reflexivity|].
  exact (proj1 (for_range_prints_all in_step _ run_in_step eq_refl)).
Defined.

(** C1, as the claim words it, fails on Example 3: under the schedule
    that runs [main] up to [wg.Wait()] and then the sender alone, the send
    after [close] is not answered with an error value the sender could
    test; the run ends in the runtime panic and no state follows it. *)
Lemma premature_close_run :
  steps sender_premature [Main; Main; Main; Sender; Sender; Sender] init
  = Panic send_panic
  /\ ~ (exists s : state,
          steps sender_premature [Main; Main; Main; Sender; Sender; Sender] init
          = Ok s).
Proof.
  split; [reflexivity|]. intros (s & Hs). vm_compute in Hs. discriminate.
Qed.

Lemma premature_close_panics_witness :
  exists s : state,
    steps sender_premature [Main; Main; Main; Sender; Sender] init = Ok s
    /\ step sender_premature Sender s = Panic send_panic.
Proof.
  eexists. split; [reflexivity|].
  apply (proj1 (premature_close_panics [Main; Main; Main; Sender; Sender] _
                  eq_refl)).
  reflexivity.
Defined.

End ForRange.

(* ===================================================================== *)
(** ** channels.go, the [logger] goroutine                                *)
(* ===================================================================== *)

Module Logger.

Import Chan.

Local Open Scope string_scope.

(** [type logEntry struct] (lines 12-16). *)
Record logEntry := Entry {
  time : Fmt.time;
  severity : string;
  message : string
}.

Definition logInfo : string := "INFO".

(** The zero [logEntry]: the zero [time.Time] is January 1 of year 1,
    00:00:00, and the zero string is empty. *)
Definition zeroEntry : logEntry := Entry (Fmt.Time 1 1 1 0 0 0) "" "".

Definition layout : string := "2006-01-02T15:04:05".

(** Line 44: what [logger] prints for an entry. *)
Definition logLine (entry : logEntry) : string :=
  Fmt.Sprintf ("%v - [%v] %v" ++ Fmt.nl)
              [Fmt.Format (time entry) layout; severity entry; message entry].

(** A civil time whose fields are in range (the year has four digits). *)
Definition valid_time (t : Fmt.time) : bool :=
  (Fmt.year t <? Nat.pow 10 4)%nat
  && (1 <=? Fmt.month t)%nat && (Fmt.month t <=? 12)%nat
  && (1 <=? Fmt.day t)%nat && (Fmt.day t <=? 31)%nat
  && (Fmt.hour t <=? 23)%nat && (Fmt.minute t <=? 59)%nat
  && (Fmt.second t <=? 59)%nat.

Definition is_digit (c : ascii) : bool :=
  (48 <=? nat_of_ascii c)%nat && (nat_of_ascii c <=? 57)%nat.

(** The shape [YYYY-MM-DDThh:mm:ss] of an ISO 8601 local date and time. *)
Definition iso8601_shape (s : string) : bool :=
  match list_ascii_of_string s with
  | [y1; y2; y3; y4; d1; m1; m2; d2; a1; a2; t; h1; h2; c1; n1; n2; c2; s1; s2] =>
      forallb is_digit [y1; y2; y3; y4; m1; m2; a1; a2; h1; h2; n1; n2; s1; s2]
      && Ascii.eqb d1 "-" && Ascii.eqb d2 "-" && Ascii.eqb t "T"
      && Ascii.eqb c1 ":" && Ascii.eqb c2 ":"
  | _ => false
  end.

(** The logger goroutine: not started, in its loop at the [select], or
    returned after [break loggerloop]. *)
Inductive lstate := Idle | Running | Stopped.

(** [logCh], [doneCh], the logger and what it has printed. *)
Record sys := Sys {
  logCh : chan logEntry;
  doneCh : chan unit;
  lg : lstate;
  out : list string
}.

(** What can happen, one action at a time: the statements other
    goroutines run against the two channels, and the two cases of the
    logger's [select]. *)
Inductive action :=
| GoLogger                 (* go logger() *)
| SendLog (e : logEntry)   (* logCh <- e *)
| SendDone                 (* doneCh <- struct{}{} *)
| SelectLog                (* case entry := <-logCh: fmt.Printf(...) *)
| SelectDone.              (* case <-doneCh: break loggerloop *)

(** What the [select] of one iteration received. *)
Inductive selected :=
| FromLogCh (entry : logEntry)   (* case entry := <-logCh *)
| FromDoneCh.                    (* case <-doneCh *)

(** Lines 32-49, one iteration of [loggerloop] on what its [select]
    received: an entry is printed and the loop goes on; the signal breaks
    out of the loop and [logger] returns. *)
Definition logger (got : selected) (s : sys) : sys :=
  match got with
  | FromLogCh entry => Sys (logCh s) (doneCh s) Running (out s ++ [logLine entry])
  | FromDoneCh => Sys (logCh s) (doneCh s) Stopped (out s)
  end.

(** One action; [None] when it cannot proceed in this state.  A send
    completes through the buffer when there is room, and otherwise by
    handing the value to the logger waiting in its [select]; the logger
    treats a handed-over value as the case it received. *)
Definition step (a : action) (s : sys) : option sys :=
  match a with
  | GoLogger =>
      match lg s with
      | Idle => Some (Sys (logCh s) (doneCh s) Running (out s))
      | _ => None
      end
  | SendLog e =>
      match chansend (logCh s) e with
      | Sent c' => Some (Sys c' (doneCh s) (lg s) (out s))
      | SendBlocks =>
          match lg s, handoff (logCh s) e with
          | Running, Some (entry, _) => Some (logger (FromLogCh entry) s)
          | _, _ => None
          end
      | SendPanics => None
      end
  | SendDone =>
      match chansend (doneCh s) tt with
      | Sent c' => Some (Sys (logCh s) c' (lg s) (out s))
      | SendBlocks =>
          match lg s, handoff (doneCh s) tt with
          | Running, Some _ => Some (logger FromDoneCh s)
          | _, _ => None
          end
      | SendPanics => None
      end
  | SelectLog =>
      match lg s, chanrecv zeroEntry (logCh s) with
      | Running, Received entry _ c' =>
          Some (logger (FromLogCh entry) (Sys c' (doneCh s) (lg s) (out s)))
      | _, _ => None
      end
  | SelectDone =>
      match lg s, chanrecv tt (doneCh s) with
      | Running, Received _ _ c' =>
          Some (logger FromDoneCh (Sys (logCh s) c' (lg s) (out s)))
      | _, _ => None
      end
  end.

Fixpoint run (acts : list action) (s : sys) : option sys :=
  match acts with
  | [] => Some s
  | a :: rest =>
      match step a s with
      | Some s' => run rest s'
      | None => None
      end
  end.

(** Lines 21-22: [logCh] buffers 50 entries; [doneCh] is made with the
    capacity [dcap], which the source leaves out (0). *)
Definition globals (dcap : nat) : sys := Sys (make 50) (make dcap) Idle [].

(** *** [main], lines 319-333 *)

Inductive mpc := M319 | M320 | M325 | M330 | M333 | MEnd.

Record state := State { world : sys; pc : mpc }.

(** The scheduler runs [main], or the logger with the case its [select]
    takes. *)
Inductive tid := Main | LoggerLog | LoggerDone.

(** [now1] and [now2] are what the two calls of [time.Now()] return. *)
Definition mstep (now1 now2 : Fmt.time) (t : tid) (st : state) : option state :=
  match t with
  | Main =>
      match pc st with
      | M319 => option_map (fun w => State w M320) (step GoLogger (world st))
      | M320 =>
          option_map (fun w => State w M325)
            (step (SendLog (Entry now1 logInfo "Starting application")) (world st))
      | M325 =>
          option_map (fun w => State w M330)
            (step (SendLog (Entry now2 logInfo "Finishing application")) (world st))
      | M330 => Some (State (world st) M333)   (* time.Sleep *)
      | M333 => option_map (fun w => State w MEnd) (step SendDone (world st))
      | MEnd => None
      end
  | LoggerLog => option_map (fun w => State w (pc st)) (step SelectLog (world st))
  | LoggerDone => option_map (fun w => State w (pc st)) (step SelectDone (world st))
  end.

Fixpoint exec (now1 now2 : Fmt.time) (sched : list tid) (st : state) : option state :=
  match sched with
  | [] => Some st
  | t :: rest =>
      match mstep now1 now2 t st with
      | Some st' => exec now1 now2 rest st'
      | None => None
      end
  end.

Definition boot (dcap : nat) : state := State (globals dcap) M319.

(** With [doneCh] made without a buffer: it never holds a value, it is
    never closed, and the logger is stopped exactly when [main] is past
    its send on [doneCh]. *)
Definition rendezvous_inv (st : state) : Prop :=
  cap (doneCh (world st)) = 0%nat
  /\ buf (doneCh (world st)) = []
  /\ closed (doneCh (world st)) = false
  /\ (pc st = MEnd <-> lg (world st) = Stopped).

Definition noon : Fmt.time := Fmt.Time 2023 4 9 12 0 0.

(** The logger stopped while two entries were still buffered; a third
    entry sent afterwards is accepted by [logCh], and nothing is printed. *)
Definition stopped_early : sys :=
  Sys (Mk 50 [Entry (Fmt.Time 2023 4 9 7 5 0) logInfo "Starting application";
              Entry (Fmt.Time 2023 4 9 7 5 0) logInfo "Finishing application"] false)
      (make 0) Stopped [].

(** *** The printed line *)

Lemma is_digit_digit (n : nat) : is_digit (Fmt.digit n) = true.
Proof.
  unfold is_digit, Fmt.digit.
  pose proof (Nat.mod_upper_bound n 10 ltac:(discriminate)) as Hlt.
  rewrite nat_ascii_embedding by lia.
  apply andb_true_iff. split; apply Nat.leb_le; lia.
Qed.

Lemma appendInt_fixed (x w : nat) :
  (x <? Nat.pow 10 w)%nat = true -> Fmt.appendInt x w = Fmt.fixed_digits w x.
Proof. intros H. unfold Fmt.appendInt. rewrite H. reflexivity. Qed.

Lemma ltb_le_pow2 (x b : nat) :
  (x <=? b)%nat = true -> (b < 100)%nat -> (x <? Nat.pow 10 2)%nat = true.
Proof.
  intros H Hb. apply Nat.leb_le in H. apply Nat.ltb_lt.
  change (Nat.pow 10 2) with 100%nat. lia.
Qed.

Lemma append_empty (s : string) : s ++ "" = s.
Proof. induction s as [|c s IH]; simpl; [reflexivity|]. rewrite IH. reflexivity. Qed.

Lemma format_layout (t : Fmt.time) :
  Fmt.Format t layout
  = Fmt.appendInt (Fmt.year t) 4 ++ "-" ++ Fmt.appendInt (Fmt.month t) 2 ++ "-"
    ++ Fmt.appendInt (Fmt.day t) 2 ++ "T" ++ Fmt.appendInt (Fmt.hour t) 2 ++ ":"
    ++ Fmt.appendInt (Fmt.minute t) 2 ++ ":" ++ Fmt.appendInt (Fmt.second t) 2.
Proof.
  unfold Fmt.Format, layout. cbn -[Fmt.appendInt String.append].
  rewrite append_empty. reflexivity.
Qed.

Lemma sprintf_line (a b c : string) :
  Fmt.Sprintf ("%v - [%v] %v" ++ Fmt.nl) [a; b; c]
  = a ++ " - [" ++ b ++ "] " ++ c ++ Fmt.nl.
Proof. reflexivity. Qed.

(** Whatever an action does, the output stays as it is or grows by one
    line, the line of the entry the logger took from [logCh]: the oldest
    buffered one (or the zero entry of a closed, drained channel) in its
    [select], or the entry handed over by the send that met it there. *)
Lemma step_emits (a : action) (s s' : sys) :
  step a s = Some s' ->
  out s' = out s
  \/ exists entry : logEntry,
       out s' = (out s ++ [logLine entry])%list
       /\ ((a = SelectLog
            /\ exists (ok : bool) (c' : chan logEntry),
                 chanrecv zeroEntry (logCh s) = Received entry ok c')
           \/ (a = SendLog entry /\ chansend (logCh s) entry = SendBlocks)).
Proof.
  intros Hstep. destruct s as [lc dc l o]; simpl in *.
  destruct a as [|e| | |]; simpl in Hstep.
  - destruct l; try discriminate. injection Hstep as <-. auto.
  - destruct (chansend lc e) eqn:Es.
    + injection Hstep as <-. auto.
    + destruct l; try discriminate. unfold handoff in Hstep.
      destruct (closed lc); [discriminate|].
      destruct (buf lc); [|discriminate].
      injection Hstep as <-. right. exists e. simpl. auto.
    + discriminate.
  - destruct (chansend dc tt).
    + injection Hstep as <-. auto.
    + destruct l; try discriminate. destruct (handoff dc tt); [|discriminate].
      injection Hstep as <-. auto.
    + discriminate.
  - destruct l; try discriminate.
    destruct (chanrecv zeroEntry lc) as [entry ok c'|] eqn:Er; [|discriminate].
    injection Hstep as <-. right. exists entry. simpl. split; [reflexivity|].
    left. eauto.
  - destruct l; try discriminate.
    destruct (chanrecv tt dc); [|discriminate].
    injection Hstep as <-. auto.
Qed.

(** C8. The line the logger emits for an entry it has received is the
    timestamp as [YYYY-MM-DDThh:mm:ss], then [ - [], the severity, [] ], the
    message and a newline: a function of the entry's three fields alone.
    One iteration of the loop on a received entry appends exactly this line
    to the output, the [select] emits it for the entry it takes from
    [logCh], and no action emits anything else. *)
Theorem log_line_format (e : logEntry) (s : sys) :
  out (logger (FromLogCh e) s) = (out s ++ [logLine e])%list
  /\ (forall s' : sys,
        step SelectLog s = Some s' ->
        exists (entry : logEntry) (ok : bool) (c' : chan logEntry),
          chanrecv zeroEntry (logCh s) = Received entry ok c'
          /\ out s' = (out s ++ [logLine entry])%list)
  /\ (forall (a : action) (s' : sys),
        step a s = Some s' ->
        out s' = out s \/ exists entry : logEntry, out s' = (out s ++ [logLine entry])%list)
  /\ logLine e
     = Fmt.Format (time e) layout ++ " - [" ++ severity e ++ "] " ++ message e ++ Fmt.nl
  /\ (valid_time (time e) = true ->
      Fmt.Format (time e) layout
      = Fmt.fixed_digits 4 (Fmt.year (time e)) ++ "-"
        ++ Fmt.fixed_digits 2 (Fmt.month (time e)) ++ "-"
        ++ Fmt.fixed_digits 2 (Fmt.day (time e)) ++ "T"
        ++ Fmt.fixed_digits 2 (Fmt.hour (time e)) ++ ":"
        ++ Fmt.fixed_digits 2 (Fmt.minute (time e)) ++ ":"
        ++ Fmt.fixed_digits 2 (Fmt.second (time e))
      /\ iso8601_shape (Fmt.Format (time e) layout) = true).
Proof.
  split; [reflexivity|]. split; [|split; [|split; [apply sprintf_line|]]].
  - intros s' Hstep.
    destruct (step_emits SelectLog s s' Hstep) as [H|(entry & H1 & H2)].
    + exfalso. destruct s as [lc dc l o]; simpl in *.
      destruct l; try discriminate.
      destruct (chanrecv zeroEntry lc); [|discriminate].
      injection Hstep as <-. simpl in H.
      apply (f_equal (@length string)) in H. rewrite List.length_app in H.
      simpl in H. lia.
    + destruct H2 as [(_ & ok & c' & Hr)|(Ha & _)]; [|discriminate].
      exists entry, ok, c'. auto.
  - intros a s' Hstep.
    destruct (step_emits a s s' Hstep) as [H|(entry & H1 & _)]; eauto.
  - intros Hv. unfold valid_time in Hv.
    repeat (apply andb_true_iff in Hv; destruct Hv as [Hv ?]).
    assert (Hfmt : Fmt.Format (time e) layout
       = Fmt.fixed_digits 4 (Fmt.year (time e)) ++ "-"
         ++ Fmt.fixed_digits 2 (Fmt.month (time e)) ++ "-"
         ++ Fmt.fixed_digits 2 (Fmt.day (time e)) ++ "T"
         ++ Fmt.fixed_digits 2 (Fmt.hour (time e)) ++ ":"
         ++ Fmt.fixed_digits 2 (Fmt.minute (time e)) ++ ":"
         ++ Fmt.fixed_digits 2 (Fmt.second (time e))).
    { rewrite format_layout.
      rewrite (appendInt_fixed (Fmt.year (time e)) 4) by assumption.
      rewrite !appendInt_fixed by (eapply ltb_le_pow2; [eassumption|lia]).
      reflexivity. }
    split; [exact Hfmt|].
    rewrite Hfmt. unfold iso8601_shape.
    cbn -[Fmt.digit is_digit Nat.div Nat.modulo].
    rewrite !is_digit_digit. reflexivity.
Qed.

(** One iteration of the running logger on a received entry. *)
Lemma log_line_format_witness :
  out (logger (FromLogCh (Entry (Fmt.Time 2023 4 9 7 5 0) logInfo
                                "Starting application"))
              (Sys (make 50) (make 0) Running []))
  = ["2023-04-09T07:05:00 - [INFO] Starting application" ++ Fmt.nl].
Proof.
  exact (proj1 (log_line_format
                  (Entry (Fmt.Time 2023 4 9 7 5 0) logInfo "Starting application")
                  (Sys (make 50) (make 0) Running []))).
Defined.

(** *** The state machine of the logger *)

(** The logger leaves no state but [Idle] (to [Running]) and [Running]. *)
Lemma step_stopped (a : action) (s s' : sys) :
  lg s = Stopped -> step a s = Some s' -> lg s' = Stopped /\ out s' = out s.
Proof.
  intros Hs Hstep. destruct s as [lc dc l o]; simpl in *. subst l.
  destruct a as [|e| | |]; simpl in Hstep.
  - discriminate.
  - destruct (chansend lc e); [|discriminate..].
    injection Hstep as <-. auto.
  - destruct (chansend dc tt); [|discriminate..].
    injection Hstep as <-. auto.
  - discriminate.
  - discriminate.
Qed.

(** A send into [logCh] goes through exactly when the send statement
    completes, the logger in its [select] being the receiver that waits. *)
Lemma send_log_completes (e : logEntry) (s : sys) :
  (exists s' : sys, step (SendLog e) s = Some s')
  <-> completes (match lg s with Running => true | _ => false end) (logCh s) e
      = true.
Proof.
  destruct s as [lc dc l o]. unfold completes. simpl.
  destruct (chansend lc e).
  - split; [reflexivity|eauto].
  - destruct l; simpl; try (split; [intros [s' H]|intros H]; discriminate).
    destruct (handoff lc e) as [[x b]|].
    + split; [reflexivity|eauto].
    + split; [intros [s' H]|intros H]; discriminate.
  - split; [intros [s' H]|intros H]; discriminate.
Qed.

(** [Stopped] is entered from [Running], and only by the step in which
    [doneCh] yields its value; that step prints nothing and leaves [logCh]
    with everything it holds. *)
Lemma step_enters_stopped (a : action) (s s' : sys) :
  step a s = Some s' -> lg s' = Stopped -> lg s <> Stopped ->
  lg s = Running /\ (a = SendDone \/ a = SelectDone)
  /\ out s' = out s /\ logCh s' = logCh s.
Proof.
  intros Hstep Hs' Hs. destruct s as [lc dc l o]; simpl in *.
  destruct a as [|e| | |]; simpl in Hstep.
  - destruct l; try discriminate. injection Hstep as <-. discriminate.
  - destruct (chansend lc e).
    + injection Hstep as <-. simpl in Hs'. contradiction.
    + destruct l; try discriminate. destruct (handoff lc e) as [[x b]|]; [|discriminate].
      injection Hstep as <-. discriminate.
    + discriminate.
  - destruct (chansend dc tt).
    + injection Hstep as <-. simpl in Hs'. contradiction.
    + destruct l; try discriminate. destruct (handoff dc tt); [|discriminate].
      injection Hstep as <-. simpl. auto.
    + discriminate.
  - destruct l; try discriminate.
    destruct (chanrecv zeroEntry lc); [|discriminate].
    injection Hstep as <-. discriminate.
  - destruct l; try discriminate.
    destruct (chanrecv tt dc); [|discriminate].
    injection Hstep as <-. simpl. auto.
Qed.

(** When [doneCh] yields its value to the logger, the logger stops: by
    its [select] taking the case, or, on a channel without buffer, in the
    very step that completes the send. *)
Lemma done_received_stops (s s' : sys) :
  (step SelectDone s = Some s' -> lg s' = Stopped)
  /\ (cap (doneCh s) = 0%nat -> step SendDone s = Some s' -> lg s' = Stopped).
Proof.
  destruct s as [lc dc l o]; simpl. split.
  - destruct l; try discriminate.
    destruct (chanrecv tt dc); [|discriminate]. intros H; injection H as <-. reflexivity.
  - intros Hcap. unfold chansend. rewrite Hcap.
    destruct (closed dc); [discriminate|].
    replace (length (buf dc) <? 0)%nat with false
      by (symmetry; apply Nat.ltb_ge; lia).
    destruct l; try discriminate. destruct (handoff dc tt); [|discriminate].
    intros H; injection H as <-. reflexivity.
Qed.

(** From [Stopped] on nothing is printed. *)
Lemma run_stopped (acts : list action) :
  forall s s' : sys,
    lg s = Stopped -> run acts s = Some s' -> lg s' = Stopped /\ out s' = out s.
Proof.
  induction acts as [|a acts IH]; simpl; intros s s' Hs Hrun.
  - injection Hrun as <-. auto.
  - destruct (step a s) as [s1|] eqn:E; [|discriminate].
    destruct (step_stopped a s s1 Hs E) as [H1 H2].
    destruct (IH s1 s' H1 Hrun) as [H3 H4]. split; congruence.
Qed.

(** A run that ends with the logger stopped has printed all its output
    before the step that took the signal. *)
Lemma run_stops (acts : list action) :
  forall s s' : sys,
    run acts s = Some s' -> lg s <> Stopped -> lg s' = Stopped ->
    exists (pre : list action) (a : action) (post : list action) (u : sys),
      acts = (pre ++ a :: post)%list /\ run pre s = Some u /\ lg u = Running
      /\ (a = SendDone \/ a = SelectDone) /\ out s' = out u.
Proof.
  induction acts as [|a acts IH]; simpl; intros s s' Hrun Hs Hs'.
  - injection Hrun as <-. contradiction.
  - destruct (step a s) as [s1|] eqn:E; [|discriminate].
    destruct (lg s1) eqn:El.
    + destruct (IH s1 s' Hrun ltac:(congruence) Hs')
        as (pre & b & post & u & -> & Hpre & Hu & Hb & Ho).
      exists (a :: pre), b, post, u. simpl. rewrite E. auto.
    + destruct (IH s1 s' Hrun ltac:(congruence) Hs')
        as (pre & b & post & u & -> & Hpre & Hu & Hb & Ho).
      exists (a :: pre), b, post, u. simpl. rewrite E. auto.
    + destruct (step_enters_stopped a s s1 E El Hs) as (Hr & Ha & Ho & _).
      destruct (run_stopped acts s1 s' El Hrun) as [_ Ho'].
      exists [], a, acts, s. simpl. repeat split; auto. congruence.
Qed.

(** C3. Once [doneCh] has yielded its value the logger is stopped: the
    step that takes the signal stops it, prints nothing and leaves the
    entries buffered in [logCh] where they are; from then on, whatever
    happens next (further sends into [logCh], further signals, attempts to
    run the logger), it stays stopped and prints nothing more, so entries
    still buffered or sent later are never printed.  The state is entered
    only from [Running] and only by that step, and every run that ends with
    the logger stopped has printed all its output before it. *)
Theorem stopped_is_terminal (s s' : sys) (acts : list action) :
  lg s = Stopped ->
  run acts s = Some s' ->
  lg s' = Stopped /\ out s' = out s
  /\ (forall (a : action) (u u' : sys),
        step a u = Some u' -> lg u' = Stopped -> lg u <> Stopped ->
        lg u = Running /\ (a = SendDone \/ a = SelectDone)
        /\ out u' = out u /\ logCh u' = logCh u)
  /\ (forall u u' : sys, step SelectDone u = Some u' -> lg u' = Stopped)
  /\ (forall u u' : sys,
        cap (doneCh u) = 0%nat -> step SendDone u = Some u' -> lg u' = Stopped)
  /\ (forall (acts0 : list action) (u0 u1 : sys),
        run acts0 u0 = Some u1 -> lg u0 <> Stopped -> lg u1 = Stopped ->
        exists (pre : list action) (a : action) (post : list action) (u : sys),
          acts0 = (pre ++ a :: post)%list /\ run pre u0 = Some u
          /\ lg u = Running /\ (a = SendDone \/ a = SelectDone)
          /\ out u1 = out u).
Proof.
  intros Hs Hrun.
  destruct (run_stopped acts s s' Hs Hrun) as [H1 H2].
  split; [exact H1|]. split; [exact H2|].
  split; [exact step_enters_stopped|].
  split; [intros u u'; apply done_received_stops|].
  split; [intros u u'; apply done_received_stops|].
  intros acts0 u0 u1. apply run_stops.
Qed.

Lemma stopped_is_terminal_witness :
  exists s' : sys,
    run [SendLog (Entry (Fmt.Time 2023 4 9 7 5 1) logInfo "late")] stopped_early
    = Some s'
    /\ length (buf (logCh s')) = 3%nat /\ lg s' = Stopped /\ out s' = [].
Proof.
  eexists. split; [reflexivity|]. split; [reflexivity|].
  pose proof (stopped_is_terminal stopped_early _
                [SendLog (Entry (Fmt.Time 2023 4 9 7 5 1) logInfo "late")]
                eq_refl eq_refl) as (H1 & H2 & _).
  split; [exact H1 | exact H2].
Defined.

(** *** [main] and the signal on [doneCh] *)

Lemma boot_inv : rendezvous_inv (boot 0).
Proof. unfold rendezvous_inv; simpl. repeat split; discriminate. Qed.

Lemma mstep_inv (now1 now2 : Fmt.time) (t : tid) (st st' : state) :
  rendezvous_inv st -> mstep now1 now2 t st = Some st' -> rendezvous_inv st'.
Proof.
  intros (Hcap & Hbuf & Hcl & Hpc) Hstep.
  destruct st as [[lc dc l o] p]; simpl in *.
  unfold rendezvous_inv; simpl.
  destruct t; simpl in Hstep.
  - destruct p; simpl in Hstep.
    + destruct l; try discriminate. injection Hstep as <-; simpl.
      repeat split; auto; discriminate.
    + destruct (chansend lc _).
      * injection Hstep as <-; simpl. repeat split; auto; try discriminate.
        intros E. apply Hpc in E. discriminate.
      * destruct l; try discriminate. destruct (handoff lc _) as [[x b]|]; [|discriminate].
        injection Hstep as <-; simpl. repeat split; auto; discriminate.
      * discriminate.
    + destruct (chansend lc _).
      * injection Hstep as <-; simpl. repeat split; auto; try discriminate.
        intros E. apply Hpc in E. discriminate.
      * destruct l; try discriminate. destruct (handoff lc _) as [[x b]|]; [|discriminate].
        injection Hstep as <-; simpl. repeat split; auto; discriminate.
      * discriminate.
    + injection Hstep as <-; simpl. repeat split; auto; try discriminate.
      intros E. apply Hpc in E. discriminate.
    + unfold chansend in Hstep. rewrite Hcl, Hcap, Hbuf in Hstep. simpl in Hstep.
      destruct l; try discriminate. unfold handoff in Hstep.
      rewrite Hcl, Hbuf in Hstep. injection Hstep as <-; simpl.
      repeat split; auto.
    + discriminate.
  - destruct l; try discriminate.
    destruct (chanrecv zeroEntry lc); [|discriminate].
    injection Hstep as <-; simpl. repeat split; auto; try discriminate.
    intros E. apply Hpc in E. discriminate.
  - destruct l; try discriminate. unfold chanrecv in Hstep.
    rewrite Hbuf, Hcl in Hstep. discriminate.
Qed.

Lemma exec_rendezvous_inv (now1 now2 : Fmt.time) (sched : list tid) (st st' : state) :
  rendezvous_inv st -> exec now1 now2 sched st = Some st' -> rendezvous_inv st'.
Proof.
  revert st. induction sched as [|t sched IH]; simpl; intros st Hinv Hrun.
  - injection Hrun as <-. exact Hinv.
  - destruct (mstep now1 now2 t st) as [st1|] eqn:E; [|discriminate].
    eapply IH; [|exact Hrun]. eapply mstep_inv; eassumption.
Qed.

(** C9. [doneCh] has no buffer, so [main]'s send on it (line 333)
    completes only in a step taken together with the logger's receive:
    under every schedule, when [main] is past the send the logger has
    stopped and no signal is left in the channel. *)
Theorem done_send_is_rendezvous (now1 now2 : Fmt.time) (sched : list tid) (st : state) :
  exec now1 now2 sched (boot 0) = Some st ->
  pc st = MEnd ->
  lg (world st) = Stopped
  /\ buf (doneCh (world st)) = []
  /\ cap (doneCh (world st)) = 0%nat.
Proof.
  intros Hrun Hpc.
  destruct (exec_rendezvous_inv now1 now2 sched (boot 0) st boot_inv Hrun)
    as (Hcap & Hbuf & _ & Hiff).
  split; [apply Hiff, Hpc|]. split; assumption.
Qed.

Lemma done_send_is_rendezvous_witness :
  exists st : state,
    exec noon noon [Main; Main; LoggerLog; Main; Main; LoggerLog; Main] (boot 0)
    = Some st
    /\ pc st = MEnd /\ lg (world st) = Stopped /\ length (out (world st)) = 2%nat.
Proof.
  eexists. split; [reflexivity|]. split; [reflexivity|].
  split; [|reflexivity].
  exact (proj1 (done_send_is_rendezvous noon noon
                  [Main; Main; LoggerLog; Main; Main; LoggerLog; Main] _
                  eq_refl eq_refl)).
Defined.

(** X6. Had [doneCh] been made with a buffer of one, the same [main] could
    finish with the signal lying in the buffer and the logger still in its
    loop: the capacity 0 is what the theorem rests on. *)
Lemma buffered_done_is_not_observed :
  option_map (fun st => (pc st, lg (world st), buf (doneCh (world st))))
    (exec noon noon [Main; Main; Main; Main; Main] (boot 1))
  = Some (MEnd, Running, [tt]).
Proof. reflexivity. Qed.

(** X7. The accepted loss: the signal can be taken before the logger printed
    either entry; both stay in [logCh]. *)
Lemma buffered_entries_can_be_lost :
  option_map (fun st => (pc st, lg (world st), out (world st),
                         length (buf (logCh (world st)))))
    (exec noon noon [Main; Main; Main; Main; Main] (boot 0))
  = Some (MEnd, Stopped, [], 2%nat).
Proof. reflexivity. Qed.

End Logger.

(* ===================================================================== *)
(** ** goroutines.go: wait groups and the mutex                           *)
(* ===================================================================== *)

(** [main] from line 76 to line 120: the three batches of goroutines it
    starts and waits for on the one package-level [wg], the shared
    [counter], and the package-level [sync.RWMutex] [m].  The two loops
    run [n1] and [n2] times (5 and 5 in the source).  The section titles
    [main] prints itself are left out of [out]; the goroutines started
    before line 76 use neither [wg], [counter] nor [m].

    [m.RLock()] waits while the write lock is held, [m.Lock()] while any
    lock is held; a lock taken by [main] may be released by another
    goroutine, which is how the source uses [m]. *)
Module Goroutines.

Local Open Scope string_scope.

(** The statements of the goroutine bodies. *)
Inductive instr :=
| Println (msg : string)      (* fmt.Println(msg) *)
| PrintCounter (f : string)   (* fmt.Printf(f, counter), the call with the
                                 value read *)
| Load                        (* the read of counter: in counter++, and as
                                 the argument of fmt.Printf *)
| Store                       (* counter++, the write of the sum *)
| RUnlock                     (* m.RUnlock() *)
| Unlock                      (* m.Unlock() *)
| Done.                       (* wg.Done() *)

(** Lines 77-80, with [msg3 = "Hello"]. *)
Definition anon : list instr := [Println "Hello"; Done].

(** Lines 156-159: the argument [counter] is read, then [fmt.Printf] is
    called with the value read. *)
Definition sayHi : list instr :=
  [Load; PrintCounter ("(%v) Hi, world" ++ Fmt.nl); Done].

(** Lines 161-164. *)
Definition increment : list instr := [Load; Store; Done].

(** Lines 178-182, with the read and the call apart as in [sayHi]. *)
Definition sayHiMutex : list instr :=
  [Load; PrintCounter ("(%v) Hi, mutex" ++ Fmt.nl); RUnlock; Done].

(** Lines 184-188. *)
Definition incrementMutex : list instr := [Load; Store; Unlock; Done].

(** A started goroutine: the statements it has left, and the value it
    has read from [counter]. *)
Record task := Task { code : list instr; tmp : Z }.

(** Go's [int] is 64 bits wide; [counter++] wraps around. *)
Definition max_int : Z := 2 ^ 63 - 1.
Definition wrap (z : Z) : Z := (z + 2 ^ 63) mod 2 ^ 64 - 2 ^ 63.

(** Where [main] is, by source line. *)
Inductive pc :=
| L76 | L77 | L81 | L82
| L88 | L89 | L90 | L91 | L93
| L112 | L113 | L114 | L115 | L116 | L117 | L118 | L120
| LEnd.

Record state := State {
  at_ : pc;
  i : nat;                (* the loop variable *)
  counter : Z;
  wg : Z;                 (* the wait group's counter *)
  readers : nat;          (* read locks held on m *)
  writer : bool;          (* whether the write lock of m is held *)
  tasks : list task;      (* the goroutines started, in order *)
  out : list string       (* what the goroutines printed *)
}.

Definition goto (p : pc) (s : state) : state :=
  State p (i s) (counter s) (wg s) (readers s) (writer s) (tasks s) (out s).
Definition set_i (n : nat) (s : state) : state :=
  State (at_ s) n (counter s) (wg s) (readers s) (writer s) (tasks s) (out s).
Definition set_counter (c : Z) (s : state) : state :=
  State (at_ s) (i s) c (wg s) (readers s) (writer s) (tasks s) (out s).
Definition wg_add (d : Z) (s : state) : state :=
  State (at_ s) (i s) (counter s) (wg s + d) (readers s) (writer s) (tasks s) (out s).
Definition set_readers (r : nat) (s : state) : state :=
  State (at_ s) (i s) (counter s) (wg s) r (writer s) (tasks s) (out s).
Definition set_writer (w : bool) (s : state) : state :=
  State (at_ s) (i s) (counter s) (wg s) (readers s) w (tasks s) (out s).
Definition spawn (body : list instr) (s : state) : state :=
  State (at_ s) (i s) (counter s) (wg s) (readers s) (writer s)
        (tasks s ++ [Task body 0]) (out s).
Definition set_task (k : nat) (t : task) (s : state) : state :=
  State (at_ s) (i s) (counter s) (wg s) (readers s) (writer s)
        (<[k := t]> (tasks s)) (out s).
Definition print (line : string) (s : state) : state :=
  State (at_ s) (i s) (counter s) (wg s) (readers s) (writer s) (tasks s)
        (out s ++ [line]).

Inductive result :=
| Ok (s : state)
| Blocked
| Panic (msg : string).

Definition wg_panic : string := "sync: negative WaitGroup counter".
Definition unlock_panic : string := "sync: Unlock of unlocked RWMutex".
Definition runlock_panic : string := "sync: RUnlock of unlocked RWMutex".

(** [wg.Wait()], then on to [next]. *)
Definition wait (next : pc) (s : state) : result :=
  if (wg s =? 0)%Z then Ok (goto next s) else Blocked.

(** One statement of [main]. *)
Definition main_step (n1 n2 : nat) (s : state) : result :=
  match at_ s with
  | L76 => Ok (goto L77 (wg_add 1 s))
  | L77 => Ok (goto L81 (spawn anon s))
  | L81 => wait L82 s
  | L82 => Ok (goto L88 (set_i 0 s))
  | L88 => Ok (goto (if (i s <? n1)%nat then L89 else L93) s)
  | L89 => Ok (goto L90 (wg_add 2 s))
  | L90 => Ok (goto L91 (spawn sayHi s))
  | L91 => Ok (goto L88 (set_i (S (i s)) (spawn increment s)))
  | L93 => wait L112 s
  | L112 => Ok (goto L113 (set_i 0 (set_counter 0 s)))
  | L113 => Ok (goto (if (i s <? n2)%nat then L114 else L120) s)
  | L114 => Ok (goto L115 (wg_add 2 s))
  | L115 =>
      if writer s then Blocked
      else Ok (goto L116 (set_readers (S (readers s)) s))
  | L116 => Ok (goto L117 (spawn sayHiMutex s))
  | L117 =>
      if writer s || negb (readers s =? 0)%nat then Blocked
      else Ok (goto L118 (set_writer true s))
  | L118 => Ok (goto L113 (set_i (S (i s)) (spawn incrementMutex s)))
  | L120 => wait LEnd s
  | LEnd => Blocked
  end.

(** One statement of the [k]-th goroutine. *)
Definition task_step (k : nat) (s : state) : result :=
  match tasks s !! k with
  | None => Blocked
  | Some t =>
      match code t with
      | [] => Blocked
      | ins :: rest =>
          let s' := set_task k (Task rest (tmp t)) s in
          match ins with
          | Println msg => Ok (print (Fmt.Sprintln [msg]) s')
          | PrintCounter f => Ok (print (Fmt.Sprintf f [Fmt.itoa (tmp t)]) s')
          | Load => Ok (set_task k (Task rest (counter s)) s)
          | Store => Ok (set_counter (wrap (tmp t + 1)) s')
          | RUnlock =>
              match readers s with
              | O => Panic runlock_panic
              | S r => Ok (set_readers r s')
              end
          | Unlock =>
              if writer s then Ok (set_writer false s') else Panic unlock_panic
          | Done =>
              if (0 <? wg s)%Z then Ok (wg_add (-1) s') else Panic wg_panic
          end
      end
  end.

(** The scheduler's choice: [main], or the [k]-th goroutine started. *)
Inductive tid := Main | Go (k : nat).

Definition step (n1 n2 : nat) (t : tid) (s : state) : result :=
  match t with
  | Main => main_step n1 n2 s
  | Go k => task_step k s
  end.

Fixpoint steps (n1 n2 : nat) (sched : list tid) (s : state) : result :=
  match sched with
  | [] => Ok s
  | t :: rest =>
      match step n1 n2 t s with
      | Ok s' => steps n1 n2 rest s'
      | r => r
      end
  end.

(** Line 76 is reached with [counter] still 0 (line 11), the wait group
    at 0 and the mutex free. *)
Definition init : state := State L76 0 0 0 0 false [] [].

(** *** Bookkeeping over the started goroutines *)

Definition is_done (x : instr) : bool := match x with Done => true | _ => false end.
Definition is_unlock (x : instr) : bool := match x with Unlock => true | _ => false end.
Definition is_runlock (x : instr) : bool := match x with RUnlock => true | _ => false end.
Definition is_store (x : instr) : bool := match x with Store => true | _ => false end.

(** 1 when the goroutine still has a statement of the kind [p] ahead. *)
Definition ahead (p : instr -> bool) (t : task) : Z :=
  if existsb p (code t) then 1 else 0.

(** The sum of [f] over the goroutines. *)
Definition total (f : task -> Z) (ts : list task) : Z :=
  foldr (fun t a => f t + a) 0 ts.

Fixpoint tails (c : list instr) : list (list instr) :=
  c :: match c with
       | [] => []
       | _ :: rest => tails rest
       end.

(** What a goroutine of the mutex batch can have left. *)
Definition codes3 : list (list instr) := tails sayHiMutex ++ tails incrementMutex.

(** What any goroutine can have left. *)
Definition codes : list (list instr) :=
  tails anon ++ tails sayHi ++ tails increment ++ codes3.

(** The goroutines [main] has announced with [wg.Add] and not started
    yet. *)
Definition owed (p : pc) : Z :=
  match p with
  | L77 | L91 | L117 | L118 => 1
  | L90 | L115 | L116 => 2
  | _ => 0
  end.

(** [main] is at a [wg.Wait()]. *)
Definition at_wait (p : pc) : bool :=
  match p with
  | L81 | L93 | L120 => true
  | _ => false
  end.

(** [main] has returned from a [wg.Wait()] and has not called [wg.Add]
    since: just past the wait, or on its way to the first [wg.Add] of the
    next batch ([i] is the loop variable). *)
Definition idle (p : pc) (i : nat) : bool :=
  match p with
  | L82 | L112 | LEnd => true
  | L88 | L89 | L113 | L114 => (i =? 0)%nat
  | _ => false
  end.

(** [main] is in the mutex batch, from the reset of [counter] on. *)
Definition phase3 (p : pc) : bool :=
  match p with
  | L112 | L113 | L114 | L115 | L116 | L117 | L118 | L120 | LEnd => true
  | _ => false
  end.

(** ... and past the reset. *)
Definition counting (p : pc) : bool :=
  match p with
  | L113 | L114 | L115 | L116 | L117 | L118 | L120 | LEnd => true
  | _ => false
  end.

Definition in_body3 (p : pc) : bool :=
  match p with
  | L114 | L115 | L116 | L117 | L118 => true
  | _ => false
  end.

Definition holds_write (p : pc) : Z := match p with L118 => 1 | _ => 0 end.
Definition holds_read (p : pc) : Z := match p with L116 => 1 | _ => 0 end.

Definition finished (t : task) : Prop := code t = [].

(** What the wait group guarantees in every reachable state: its counter
    is the number of goroutines announced that have not called [Done]. *)
Record wg_inv (s : state) : Prop := WgInv {
  w_wg : wg s = total (ahead is_done) (tasks s) + owed (at_ s);
  w_idle : idle (at_ s) (i s) = true -> wg s = 0;
  w_codes : Forall (fun t => In (code t) codes) (tasks s)
}.

(** The mutex: the write lock is held for [main] about to start
    [incrementMutex], or for the one [incrementMutex] that has not
    unlocked; the read locks likewise. *)
Record lock_inv (s : state) : Prop := LockInv {
  l_wg : wg_inv s;
  l_writer :
    total (ahead is_unlock) (tasks s) + holds_write (at_ s)
    = (if writer s then 1 else 0);
  l_readers :
    total (ahead is_runlock) (tasks s) + holds_read (at_ s)
    = Z.of_nat (readers s)
}.

(** The counter in the mutex batch: every [incrementMutex] started has
    added one, except the one still to store, and that one has read the
    current value. *)
Record inv (n2 : nat) (s : state) : Prop := Inv {
  inv_lock : lock_inv s;
  inv_codes3 :
    phase3 (at_ s) = true -> Forall (fun t => In (code t) codes3) (tasks s);
  inv_count :
    counting (at_ s) = true ->
    counter s + total (ahead is_store) (tasks s) = Z.of_nat (i s);
  inv_tmp :
    counting (at_ s) = true ->
    Forall (fun t => head (code t) = Some Store -> tmp t = counter s) (tasks s);
  inv_i :
    counting (at_ s) = true ->
    (i s <= n2)%nat
    /\ (in_body3 (at_ s) = true -> (i s < n2)%nat)
    /\ (at_ s = L120 \/ at_ s = LEnd -> i s = n2)
}.

(** *** Schedules *)

Local Close Scope string_scope.

(** The first batch: the goroutine of lines 77-80 runs, [main] waits. *)
Definition batch1 : list tid := [Main; Main; Go 0; Go 0; Main; Main].

(** One round of the second loop: [main] starts [sayHi] as goroutine [k]
    and lets it run, then starts [increment] as goroutine [k + 1] and lets
    it run. *)
Definition round2 (k : nat) : list tid :=
  [Main; Main; Main; Go k; Go k; Go k; Main; Go (S k); Go (S k); Go (S k)].

(** One round of the mutex loop, in the same manner. *)
Definition round3 (k : nat) : list tid :=
  [Main; Main; Main; Main; Go k; Go k; Go k; Go k;
   Main; Main; Go (S k); Go (S k); Go (S k); Go (S k)].

Fixpoint rounds (round : nat -> list tid) (n k : nat) : list tid :=
  match n with
  | O => []
  | S n' => round k ++ rounds round n' (S (S k))
  end.

(** Every goroutine runs to its end as soon as it is started. *)
Definition sequential (n1 n2 : nat) : list tid :=
  batch1 ++ rounds round2 n1 1 ++ [Main; Main; Main]
  ++ rounds round3 n2 (1 + 2 * n1) ++ [Main; Main].

(** Three schedules for two rounds of each loop. *)

(** The second batch with both rounds started before any goroutine runs;
    the two [increment]s (goroutines 2 and 4) both read [counter] before
    either writes it.  [main] is left at its [wg.Wait()]. *)
Definition batch2_racy : list tid :=
  [Main; Main; Main; Main; Main; Main; Main; Main; Main;
   Go 2; Go 4; Go 2; Go 4;
   Go 1; Go 1; Go 1; Go 3; Go 3; Go 3; Go 2; Go 4].

(** The mutex batch, from the return of the second [wg.Wait()] on: [main]
    runs ahead as far as the locks let it, and every goroutine delays its
    [wg.Done()] to the end. *)
Definition batch3 : list tid :=
  [Main; Main; Main; Main; Main; Main; Go 5; Go 5; Go 5;
   Main; Main; Main; Main;
   Go 6; Go 6; Go 6; Main; Main; Go 7; Go 7; Go 7; Main; Main; Main;
   Go 8; Go 8; Go 8; Go 5; Go 6; Go 7; Go 8; Main].

(** The states these schedules lead to, computed. *)
Definition after_batch2 : state :=
  Eval vm_compute in
    match steps 2 2 (batch1 ++ batch2_racy) init with
    | Ok s => s
    | _ => init
    end.

Definition after_wait2 : state :=
  Eval vm_compute in
    match step 2 2 Main after_batch2 with
    | Ok s => s
    | _ => init
    end.

Definition after_batch3 : state :=
  Eval vm_compute in
    match steps 2 2 (batch1 ++ batch2_racy ++ batch3) init with
    | Ok s => s
    | _ => init
    end.

Arguments total : simpl never.
Arguments codes : simpl never.
Arguments codes3 : simpl never.

(** *** Sums over the goroutines *)

Lemma ahead_range (p : instr -> bool) (t : task) : 0 <= ahead p t <= 1.
Proof. unfold ahead. destruct (existsb p (code t)); lia. Qed.

Lemma total_app (f : task -> Z) (l1 l2 : list task) :
  total f (l1 ++ l2) = total f l1 + total f l2.
Proof.
  induction l1 as [|t l1 IH]; [reflexivity|].
  unfold total in *. simpl. lia.
Qed.

Lemma total_insert (f : task -> Z) (ts : list task) (k : nat) (t t' : task) :
  ts !! k = Some t -> total f (<[k := t']> ts) = total f ts - f t + f t'.
Proof.
  intros Hk. pose proof (lookup_lt_Some _ _ _ Hk) as Hlt.
  rewrite insert_take_drop by exact Hlt.
  assert (H1 : total f ts = total f (take k ts ++ t :: drop (S k) ts))
    by (rewrite (take_drop_middle ts k t Hk); reflexivity).
  rewrite H1, !total_app. unfold total; simpl. lia.
Qed.

Lemma total_nonneg (p : instr -> bool) (ts : list task) : 0 <= total (ahead p) ts.
Proof.
  induction ts as [|t ts IH]; unfold total in *; simpl; [lia|].
  pose proof (ahead_range p t). lia.
Qed.

Lemma total_lookup_le (p : instr -> bool) (ts : list task) (k : nat) (t : task) :
  ts !! k = Some t -> ahead p t <= total (ahead p) ts.
Proof.
  intros Hk.
  assert (H1 : total (ahead p) ts = total (ahead p) (take k ts ++ t :: drop (S k) ts))
    by (rewrite (take_drop_middle ts k t Hk); reflexivity).
  rewrite H1, total_app.
  pose proof (total_nonneg p (take k ts)). pose proof (total_nonneg p (drop (S k) ts)).
  unfold total in *; simpl. lia.
Qed.

Lemma total_zero (p : instr -> bool) (ts : list task) :
  total (ahead p) ts = 0 -> Forall (fun t => ahead p t = 0) ts.
Proof.
  induction ts as [|t ts IH]; intros H; constructor.
  - pose proof (ahead_range p t). pose proof (total_nonneg p ts).
    unfold total in *; simpl in H. lia.
  - apply IH. pose proof (ahead_range p t). pose proof (total_nonneg p ts).
    unfold total in *; simpl in H. lia.
Qed.

(** When the goroutine at index [k] accounts for the whole sum, no other
    goroutine contributes. *)
Lemma total_only (p : instr -> bool) (ts : list task) (k : nat) (t t' : task) :
  ts !! k = Some t -> total (ahead p) ts = ahead p t -> ahead p t' = 0 ->
  Forall (fun u => ahead p u = 0) (<[k := t']> ts).
Proof.
  intros Hk Hsum Ht'. apply total_zero.
  rewrite (total_insert _ _ _ _ _ Hk). lia.
Qed.

Lemma total_mono (f g : task -> Z) (ts : list task) :
  Forall (fun t => f t <= g t) ts -> total f ts <= total g ts.
Proof.
  induction 1 as [|t ts Ht _ IH]; unfold total in *; simpl; lia.
Qed.

Lemma total_spawn (p : instr -> bool) (ts : list task) (body : list instr) :
  total (ahead p) (ts ++ [Task body 0])
  = total (ahead p) ts + (if existsb p body then 1 else 0).
Proof. rewrite total_app. unfold total at 2. simpl. unfold ahead. simpl. lia. Qed.

(** *** The goroutine bodies *)

Ltac split_in H :=
  repeat match type of H with
         | _ \/ _ => destruct H as [H | H]
         | False => destruct H
         end.

Ltac pick_in :=
  simpl; repeat first [left; reflexivity | right].

Lemma codes_tail (x : instr) (rest : list instr) :
  In (x :: rest) codes -> In rest codes.
Proof.
  intros H. unfold codes, codes3 in *. simpl in H.
  split_in H; try discriminate; injection H as <- <-; pick_in.
Qed.

Lemma codes3_tail (x : instr) (rest : list instr) :
  In (x :: rest) codes3 -> In rest codes3.
Proof.
  intros H. unfold codes3 in *. simpl in H.
  split_in H; try discriminate; injection H as <- <-; pick_in.
Qed.

(** Every body ends with [wg.Done()]: a goroutine with no [Done] ahead
    has returned. *)
Lemma no_done_finished (t : task) :
  In (code t) codes -> ahead is_done t = 0 -> finished t.
Proof.
  unfold ahead, finished, codes, codes3. intros H. simpl in H.
  split_in H; rewrite <- H; simpl; intros; (reflexivity || discriminate).
Qed.

Lemma all_finished (ts : list task) :
  Forall (fun t => In (code t) codes) ts ->
  total (ahead is_done) ts = 0 ->
  Forall finished ts.
Proof.
  intros Hc Hz. apply total_zero in Hz.
  assert (H : Forall (fun t => In (code t) codes /\ ahead is_done t = 0) ts)
    by (apply Forall_and; split; assumption).
  eapply Forall_impl; [exact H|].
  simpl. intros t [H1 H2]. apply no_done_finished; assumption.
Qed.

Lemma finished_codes3 (ts : list task) :
  Forall finished ts -> Forall (fun t => In (code t) codes3) ts.
Proof.
  intros H. eapply Forall_impl; [exact H|].
  intros t Ht. unfold finished in Ht. rewrite Ht. unfold codes3. pick_in.
Qed.

Lemma finished_total (p : instr -> bool) (ts : list task) :
  Forall finished ts -> total (ahead p) ts = 0.
Proof.
  induction 1 as [|t ts Ht _ IH]; [reflexivity|].
  unfold total in *; simpl. unfold ahead at 1. rewrite Ht. simpl. lia.
Qed.

Lemma finished_tmp (c : Z) (ts : list task) :
  Forall finished ts ->
  Forall (fun t => head (code t) = Some Store -> tmp t = c) ts.
Proof.
  intros H. eapply Forall_impl; [exact H|].
  intros t Ht. unfold finished in Ht. rewrite Ht. discriminate.
Qed.

Lemma ahead_cons (p : instr -> bool) (x : instr) (rest : list instr) (m m' : Z) :
  ahead p (Task (x :: rest) m) = if p x then 1 else ahead p (Task rest m').
Proof. unfold ahead; simpl. destruct (p x); reflexivity. Qed.

(** In every body the statements the invariant counts occur once. *)
Lemma codes_once (x : instr) (rest : list instr) :
  In (x :: rest) codes ->
  (is_done x = true -> existsb is_done rest = false)
  /\ (is_unlock x = true -> existsb is_unlock rest = false)
  /\ (is_runlock x = true -> existsb is_runlock rest = false)
  /\ (is_store x = true -> existsb is_store rest = false).
Proof.
  intros H. unfold codes, codes3 in H. simpl in H.
  split_in H; try discriminate; injection H as <- <-; simpl;
    repeat split; intros; (reflexivity || discriminate).
Qed.

(** [Store] comes only right after [Load]: the two halves of [counter++]. *)
Lemma store_after_load (x : instr) (rest : list instr) :
  In (x :: rest) codes -> head rest = Some Store -> x = Load.
Proof.
  intros H. unfold codes, codes3 in H. simpl in H.
  split_in H; try discriminate; injection H as <- <-; simpl;
    intros; (reflexivity || discriminate).
Qed.

Lemma step_total (p : instr -> bool) (ts : list task) (k : nat)
      (x : instr) (rest : list instr) (m m' : Z) :
  ts !! k = Some (Task (x :: rest) m) ->
  (p x = true -> existsb p rest = false) ->
  total (ahead p) (<[k := Task rest m']> ts)
  = total (ahead p) ts - (if p x then 1 else 0).
Proof.
  intros Hk Honce. rewrite (total_insert _ _ _ _ _ Hk).
  rewrite (ahead_cons p x rest m m').
  destruct (p x) eqn:E; [|lia].
  unfold ahead at 2; simpl. rewrite (Honce eq_refl). lia.
Qed.

(** In the mutex batch a goroutine that has yet to store has yet to
    unlock. *)
Lemma store_le_unlock (ts : list task) :
  Forall (fun t => In (code t) codes3) ts ->
  total (ahead is_store) ts <= total (ahead is_unlock) ts.
Proof.
  intros H. apply total_mono. eapply Forall_impl; [exact H|].
  intros t Ht. unfold ahead. unfold codes3 in Ht. simpl in Ht.
  split_in Ht; rewrite <- Ht; simpl; lia.
Qed.

Lemma head_store_ahead (t : task) :
  head (code t) = Some Store -> ahead is_store t = 1.
Proof.
  unfold ahead. destruct (code t) as [|x rest]; simpl; [discriminate|].
  intros H. injection H as ->. reflexivity.
Qed.

Lemma wrap_small (z : Z) : - 2 ^ 63 <= z <= max_int -> wrap z = z.
Proof.
  unfold wrap, max_int. intros H.
  rewrite Z.mod_small by lia. lia.
Qed.

(** *** The invariants are preserved *)

Tactic Notation "fields" :=
  cbn [at_ i counter wg readers writer tasks out
       goto set_i set_counter wg_add set_readers set_writer spawn set_task print].
Tactic Notation "fields" "in" hyp(H) :=
  cbn [at_ i counter wg readers writer tasks out
       goto set_i set_counter wg_add set_readers set_writer spawn set_task print] in H.

(** The cases of a step of [main] that goes through. *)
Ltac main_cases Hstep :=
  match type of Hstep with
  | main_step _ _ (State ?p ?i _ ?w ?r ?wr _ _) = _ =>
      unfold main_step in Hstep; fields in Hstep;
      destruct p; unfold wait in Hstep; cbn -[Nat.ltb] in Hstep;
      try (destruct (Z.eqb_spec w 0); [|discriminate]);
      try (destruct wr; [discriminate|]);
      try (destruct (Nat.eqb_spec r 0); [|discriminate]);
      try discriminate;
      try match type of Hstep with
          | context [(i <? ?n)%nat] => destruct (Nat.ltb_spec i n)
          end;
      injection Hstep as <-
  end.

(** The cases of a step of a goroutine that goes through. *)
Ltac task_cases Hstep x :=
  match type of Hstep with
  | context [State _ _ _ ?w ?r ?wr _ _] =>
      destruct x; cbn in Hstep;
      try (destruct r; [discriminate|]);
      try (destruct wr; [|discriminate]);
      try (destruct (Z.ltb_spec 0 w); [|discriminate]);
      injection Hstep as <-
  end.

Lemma main_step_wg_inv (n1 n2 : nat) (s s' : state) :
  wg_inv s -> main_step n1 n2 s = Ok s' -> wg_inv s'.
Proof.
  intros [Hwg Hidle Hcodes] Hstep.
  destruct s as [p i c w r wr ts o]. fields in Hwg. fields in Hidle. fields in Hcodes.
  main_cases Hstep.
  all: constructor; fields; rewrite ?total_spawn; cbn;
    try discriminate; try (cbn in *; lia); try assumption; auto.
  all: apply Forall_app; split; [assumption|];
    apply Forall_singleton; cbn; unfold codes, codes3; pick_in.
Qed.

Lemma task_step_wg_inv (k : nat) (s s' : state) :
  wg_inv s -> task_step k s = Ok s' -> wg_inv s'.
Proof.
  intros [Hwg Hidle Hcodes] Hstep.
  destruct s as [p i c w r wr ts o]. fields in Hwg. fields in Hidle. fields in Hcodes.
  unfold task_step in Hstep. fields in Hstep.
  destruct (ts !! k) as [[cd m]|] eqn:Hk; [|discriminate].
  cbn [code tmp] in Hstep. destruct cd as [|x rest]; [discriminate|].
  pose proof (Forall_lookup_1 _ _ _ _ Hcodes Hk) as Hin. cbn [code] in Hin.
  destruct (codes_once x rest Hin) as (Hd & _).
  pose proof (fun m' => step_total is_done ts k x rest m m' Hk Hd) as Td.
  pose proof (codes_tail x rest Hin) as Hrest.
  task_cases Hstep x; cbn [is_done] in Td.
  all: constructor; fields; rewrite ?Td.
  all: try lia.
  all: try assumption.
  all: try (apply Forall_insert; assumption).
  intros Hp; specialize (Hidle Hp); lia.
Qed.

Lemma main_step_lock_inv (n1 n2 : nat) (s s' : state) :
  lock_inv s -> main_step n1 n2 s = Ok s' -> lock_inv s'.
Proof.
  intros [Hw Hwr Hrd] Hstep.
  pose proof (main_step_wg_inv n1 n2 s s' Hw Hstep) as Hw'. clear Hw.
  destruct s as [p i c w r wr ts o]. fields in Hwr. fields in Hrd.
  main_cases Hstep.
  all: constructor; [exact Hw'|..]; fields; rewrite ?total_spawn; cbn;
    cbn in Hwr, Hrd; lia.
Qed.

Lemma task_step_lock_inv (k : nat) (s s' : state) :
  lock_inv s -> task_step k s = Ok s' -> lock_inv s'.
Proof.
  intros [Hw Hwr Hrd] Hstep.
  pose proof (task_step_wg_inv k s s' Hw Hstep) as Hw'.
  destruct Hw as [_ _ Hcodes].
  destruct s as [p i c w r wr ts o]. fields in Hcodes. fields in Hwr. fields in Hrd.
  unfold task_step in Hstep. fields in Hstep.
  destruct (ts !! k) as [[cd m]|] eqn:Hk; [|discriminate].
  cbn [code tmp] in Hstep. destruct cd as [|x rest]; [discriminate|].
  pose proof (Forall_lookup_1 _ _ _ _ Hcodes Hk) as Hin. cbn [code] in Hin.
  destruct (codes_once x rest Hin) as (_ & Hu & Hr & _).
  pose proof (fun m' => step_total is_unlock ts k x rest m m' Hk Hu) as Tu.
  pose proof (fun m' => step_total is_runlock ts k x rest m m' Hk Hr) as Tr.
  pose proof (total_lookup_le is_unlock ts k _ Hk) as Lu.
  rewrite (ahead_cons _ x rest m m) in Lu.
  assert (Hhw : 0 <= holds_write p <= 1) by (destruct p; simpl; lia).
  task_cases Hstep x; cbn [is_unlock is_runlock] in *.
  all: constructor; [exact Hw'|..]; fields; rewrite ?Tu, ?Tr; lia.
Qed.

Lemma main_step_inv (n1 n2 : nat) (s s' : state) :
  inv n2 s -> main_step n1 n2 s = Ok s' -> inv n2 s'.
Proof.
  intros [Hl Hc3 Hcnt Htmp Hi] Hstep.
  pose proof (main_step_lock_inv n1 n2 s s' Hl Hstep) as Hl'.
  destruct Hl as [[Hwg Hidle Hcodes] Hwr Hrd].
  destruct s as [p i c w r wr ts o].
  fields in Hwg. fields in Hidle. fields in Hcodes. fields in Hwr. fields in Hrd.
  fields in Hc3. fields in Hcnt. fields in Htmp. fields in Hi.
  main_cases Hstep.
  all: try specialize (Hidle eq_refl).
  all: try (assert (Hfin : Forall finished ts)
             by (apply all_finished; [assumption|cbn in Hwg; lia])).
  all: try (specialize (Hi eq_refl); destruct Hi as (Hi1 & Hi2 & Hi3);
            cbn in Hi2, Hi3).
  all: try specialize (Hi2 eq_refl).
  all: try specialize (Hi3 (or_introl eq_refl)).
  all: try specialize (Hi3 (or_intror eq_refl)).
  all: constructor; [exact Hl'|..]; fields; intros; rewrite ?total_spawn; cbn;
    try discriminate; try (cbn in *; lia); try assumption; auto.
  all: try (apply Forall_app; split; [solve [auto]|];
            apply Forall_singleton; cbn;
            first [ solve [unfold codes3; pick_in] | discriminate ]).
  all: try (apply finished_codes3; assumption).
  all: try (apply finished_tmp; assumption).
  all: try (rewrite (finished_total _ _ Hfin); lia).
  all: try (repeat split; intros; try discriminate; try lia;
            match goal with H : _ \/ _ |- _ => destruct H; discriminate end).
Qed.

Lemma task_step_inv (n2 : nat) (k : nat) (s s' : state) :
  Z.of_nat n2 <= max_int ->
  inv n2 s -> task_step k s = Ok s' -> inv n2 s'.
Proof.
  intros Hmax [Hl Hc3 Hcnt Htmp Hi] Hstep.
  pose proof (task_step_lock_inv k s s' Hl Hstep) as Hl'.
  destruct Hl as [[Hwg Hidle Hcodes] Hwr Hrd].
  destruct s as [p i c w r wr ts o].
  fields in Hwg. fields in Hidle. fields in Hcodes. fields in Hwr. fields in Hrd.
  fields in Hc3. fields in Hcnt. fields in Htmp. fields in Hi.
  unfold task_step in Hstep. fields in Hstep.
  destruct (ts !! k) as [[cd m]|] eqn:Hk; [|discriminate].
  cbn [code tmp] in Hstep. destruct cd as [|x rest]; [discriminate|].
  pose proof (Forall_lookup_1 _ _ _ _ Hcodes Hk) as Hin. cbn [code] in Hin.
  destruct (codes_once x rest Hin) as (_ & _ & _ & Hs).
  pose proof (fun m' => step_total is_store ts k x rest m m' Hk Hs) as Ts.
  pose proof (total_lookup_le is_store ts k _ Hk) as Ls.
  rewrite (ahead_cons _ x rest m m) in Ls.
  pose proof (ahead_range is_store (Task rest m)) as Rs.
  pose proof (total_nonneg is_unlock ts) as Nu.
  assert (Hrest3 : phase3 p = true -> In rest codes3).
  { intros Hp. apply (codes3_tail x).
    exact (Forall_lookup_1 _ _ _ _ (Hc3 Hp) Hk). }
  assert (Hle : phase3 p = true ->
                total (ahead is_store) ts <= total (ahead is_unlock) ts).
  { intros Hp. apply store_le_unlock, Hc3, Hp. }
  assert (Hph : counting p = true -> phase3 p = true) by (destruct p; auto).
  assert (Hhw : 0 <= holds_write p <= 1) by (destruct p; simpl; lia).
  task_cases Hstep x; cbn [is_store] in *.
  all: constructor; [exact Hl'|..]; fields; rewrite ?Ts.
  all: try (intros; lia).
  all: try assumption.
  all: try (intros Hp; apply Forall_insert; solve [auto]).
  all: try (intros Hp; specialize (Hcnt Hp); lia).
  all: try (intros Hp; apply Forall_insert; [exact (Htmp Hp)|];
            cbn [code tmp]; intros Hh;
            first [ reflexivity
                  | pose proof (store_after_load _ _ Hin Hh); discriminate ]).
  - (* Store, the sum: the value read is still the value of counter *)
    intros Hp. specialize (Hcnt Hp). specialize (Hle (Hph Hp)).
    pose proof (Forall_lookup_1 _ _ _ _ (Htmp Hp) Hk eq_refl) as Hm.
    cbn [tmp] in Hm. subst m.
    destruct (Hi Hp) as (Hi1 & _).
    rewrite wrap_small; [lia|]. unfold max_int in *.
    destruct wr; lia.
  - (* Store, the values read: no other goroutine is between its read and
       its write *)
    intros Hp. specialize (Hcnt Hp). specialize (Hle (Hph Hp)).
    assert (Hone : total (ahead is_store) ts
                   = ahead is_store (Task (Store :: rest) m)).
    { rewrite (ahead_cons _ Store rest m m). cbn [is_store]. destruct wr; lia. }
    pose proof (total_only is_store ts k _ (Task rest m) Hk Hone) as Hnone.
    eapply Forall_impl; [apply Hnone|].
    + unfold ahead; cbn [code]. rewrite (Hs eq_refl). reflexivity.
    + cbn beta. intros u Hu0 Hh. rewrite (head_store_ahead u Hh) in Hu0.
      discriminate.
Qed.

Lemma init_inv (n2 : nat) : inv n2 init.
Proof.
  repeat constructor; cbn; try discriminate; reflexivity.
Qed.

Lemma step_inv (n1 n2 : nat) (t : tid) (s s' : state) :
  Z.of_nat n2 <= max_int -> inv n2 s -> step n1 n2 t s = Ok s' -> inv n2 s'.
Proof.
  intros Hmax Hinv Hstep. destruct t as [|k]; simpl in Hstep.
  - eapply main_step_inv; eassumption.
  - eapply task_step_inv; eassumption.
Qed.

Lemma steps_inv (n1 n2 : nat) (sched : list tid) (s s' : state) :
  Z.of_nat n2 <= max_int -> inv n2 s -> steps n1 n2 sched s = Ok s' -> inv n2 s'.
Proof.
  intros Hmax. revert s. induction sched as [|t sched IH]; simpl; intros s Hinv Hrun.
  - injection Hrun as <-. exact Hinv.
  - destruct (step n1 n2 t s) as [s1| |msg] eqn:E; try discriminate.
    eapply IH; [|exact Hrun]. eapply step_inv; eassumption.
Qed.

Lemma step_lock_inv (n1 n2 : nat) (t : tid) (s s' : state) :
  lock_inv s -> step n1 n2 t s = Ok s' -> lock_inv s'.
Proof.
  intros Hinv Hstep. destruct t as [|k]; simpl in Hstep.
  - eapply main_step_lock_inv; eassumption.
  - eapply task_step_lock_inv; eassumption.
Qed.

Lemma steps_lock_inv (n1 n2 : nat) (sched : list tid) (s s' : state) :
  lock_inv s -> steps n1 n2 sched s = Ok s' -> lock_inv s'.
Proof.
  revert s. induction sched as [|t sched IH]; simpl; intros s Hinv Hrun.
  - injection Hrun as <-. exact Hinv.
  - destruct (step n1 n2 t s) as [s1| |msg] eqn:E; try discriminate.
    eapply IH; [|exact Hrun]. eapply step_lock_inv; eassumption.
Qed.

Lemma reachable_lock_inv (n1 n2 : nat) (sched : list tid) (s : state) :
  steps n1 n2 sched init = Ok s -> lock_inv s.
Proof.
  apply steps_lock_inv. exact (inv_lock 0 init (init_inv 0)).
Qed.

(** *** A schedule that completes, for every number of rounds *)

Lemma steps_app (n1 n2 : nat) (a b : list tid) (s : state) :
  steps n1 n2 (a ++ b) s
  = match steps n1 n2 a s with
    | Ok s' => steps n1 n2 b s'
    | r => r
    end.
Proof.
  revert s. induction a as [|t a IH]; intros s; simpl; [reflexivity|].
  destruct (step n1 n2 t s); auto.
Qed.

Lemma lookup_last (ts : list task) (t : task) : (ts ++ [t]) !! length ts = Some t.
Proof. induction ts as [|u ts IH]; simpl; auto. Qed.

Lemma insert_last (ts : list task) (t t' : task) :
  <[length ts := t']> (ts ++ [t]) = ts ++ [t'].
Proof. induction ts as [|u ts IH]; simpl; [reflexivity|]. rewrite IH. reflexivity. Qed.

Ltac setters :=
  unfold goto, set_i, set_counter, wg_add, set_readers, set_writer, spawn,
    set_task, print;
  cbn [at_ i counter wg readers writer tasks out].

(** A step of the goroutine started last. *)
Lemma task_step_last (p : pc) (i : nat) (c w : Z) (r : nat) (wr : bool)
      (ts : list task) (o : list string) (x : instr) (rest : list instr) (m : Z) :
  task_step (length ts) (State p i c w r wr (ts ++ [Task (x :: rest) m]) o)
  = match x with
    | Println msg =>
        Ok (State p i c w r wr (ts ++ [Task rest m]) (o ++ [Fmt.Sprintln [msg]]))
    | PrintCounter f =>
        Ok (State p i c w r wr (ts ++ [Task rest m])
                  (o ++ [Fmt.Sprintf f [Fmt.itoa m]]))
    | Load => Ok (State p i c w r wr (ts ++ [Task rest c]) o)
    | Store => Ok (State p i (wrap (m + 1)) w r wr (ts ++ [Task rest m]) o)
    | RUnlock =>
        match r with
        | O => Panic runlock_panic
        | S r' => Ok (State p i c w r' wr (ts ++ [Task rest m]) o)
        end
    | Unlock =>
        if wr then Ok (State p i c w r false (ts ++ [Task rest m]) o)
        else Panic unlock_panic
    | Done =>
        if (0 <? w)%Z then Ok (State p i c (w + -1) r wr (ts ++ [Task rest m]) o)
        else Panic wg_panic
    end.
Proof.
  unfold task_step. fields. rewrite lookup_last. cbn [code tmp].
  destruct x; setters; rewrite ?insert_last; reflexivity.
Qed.

Lemma length_snoc (ts : list task) (t : task) : length (ts ++ [t]) = S (length ts).
Proof. rewrite length_app. simpl. lia. Qed.

Lemma steps_step (n1 n2 : nat) (t : tid) (rest : list tid) (s s1 : state) (r : result) :
  step n1 n2 t s = Ok s1 -> steps n1 n2 rest s1 = r -> steps n1 n2 (t :: rest) s = r.
Proof. intros H1 H2. simpl. rewrite H1. exact H2. Qed.

(** One step of [main], computed. *)
Ltac main_go :=
  eapply steps_step;
  [ unfold step, main_step, wait; setters;
    cbn -[Fmt.Sprintf Fmt.Sprintln Fmt.itoa wrap app length Nat.ltb];
    rewrite ?Nat.ltb_irrefl;
    try match goal with H : (_ <? _)%nat = true |- _ => rewrite H end;
    reflexivity
  | ].

(** One step of the goroutine started last, computed. *)
Ltac last_go :=
  eapply steps_step;
  [ unfold step; rewrite task_step_last;
    cbn -[Fmt.Sprintf Fmt.Sprintln Fmt.itoa wrap app length Nat.ltb];
    reflexivity
  | ].

Lemma round2_run (n1 n2 i : nat) (c : Z) (ts : list task) (o : list string) :
  (i < n1)%nat ->
  exists (c' : Z) (ts' : list task) (o' : list string),
    steps n1 n2 (round2 (length ts)) (State L88 i c 0 0 false ts o)
    = Ok (State L88 (S i) c' 0 0 false ts' o')
    /\ length ts' = S (S (length ts)).
Proof.
  intros Hi. apply Nat.ltb_lt in Hi. unfold round2.
  do 3 eexists. split.
  - main_go.
    main_go. main_go. unfold sayHi. last_go. last_go. last_go.
    main_go. rewrite <- (length_snoc ts (Task [] c)).
    unfold increment. last_go. last_go. last_go.
    reflexivity.
  - rewrite !length_snoc. reflexivity.
Qed.

Lemma round3_run (n1 n2 i : nat) (c : Z) (ts : list task) (o : list string) :
  (i < n2)%nat ->
  exists (c' : Z) (ts' : list task) (o' : list string),
    steps n1 n2 (round3 (length ts)) (State L113 i c 0 0 false ts o)
    = Ok (State L113 (S i) c' 0 0 false ts' o')
    /\ length ts' = S (S (length ts)).
Proof.
  intros Hi. apply Nat.ltb_lt in Hi. unfold round3.
  do 3 eexists. split.
  - main_go.
    main_go. main_go. main_go. unfold sayHiMutex. last_go. last_go. last_go.
    last_go.
    main_go. main_go. rewrite <- (length_snoc ts (Task [] c)).
    unfold incrementMutex. last_go. last_go. last_go. last_go.
    reflexivity.
  - rewrite !length_snoc. reflexivity.
Qed.

Lemma rounds2_run (n1 n2 m : nat) :
  forall (i : nat) (c : Z) (ts : list task) (o : list string),
    (i + m <= n1)%nat ->
    exists (c' : Z) (ts' : list task) (o' : list string),
      steps n1 n2 (rounds round2 m (length ts)) (State L88 i c 0 0 false ts o)
      = Ok (State L88 (i + m) c' 0 0 false ts' o')
      /\ length ts' = (length ts + 2 * m)%nat.
Proof.
  induction m as [|m IH]; intros i c ts o Hle.
  - exists c, ts, o. split; [|lia]. rewrite Nat.add_0_r. reflexivity.
  - change (rounds round2 (S m) (length ts))
      with (round2 (length ts) ++ rounds round2 m (S (S (length ts)))).
    destruct (round2_run n1 n2 i c ts o ltac:(lia)) as (c1 & ts1 & o1 & H1 & L1).
    destruct (IH (S i) c1 ts1 o1 ltac:(lia)) as (c2 & ts2 & o2 & H2 & L2).
    exists c2, ts2, o2. split; [|lia].
    rewrite steps_app, H1. rewrite <- L1, H2. f_equal. f_equal. lia.
Qed.

Lemma rounds3_run (n1 n2 m : nat) :
  forall (i : nat) (c : Z) (ts : list task) (o : list string),
    (i + m <= n2)%nat ->
    exists (c' : Z) (ts' : list task) (o' : list string),
      steps n1 n2 (rounds round3 m (length ts)) (State L113 i c 0 0 false ts o)
      = Ok (State L113 (i + m) c' 0 0 false ts' o')
      /\ length ts' = (length ts + 2 * m)%nat.
Proof.
  induction m as [|m IH]; intros i c ts o Hle.
  - exists c, ts, o. split; [|lia]. rewrite Nat.add_0_r. reflexivity.
  - change (rounds round3 (S m) (length ts))
      with (round3 (length ts) ++ rounds round3 m (S (S (length ts)))).
    destruct (round3_run n1 n2 i c ts o ltac:(lia)) as (c1 & ts1 & o1 & H1 & L1).
    destruct (IH (S i) c1 ts1 o1 ltac:(lia)) as (c2 & ts2 & o2 & H2 & L2).
    exists c2, ts2, o2. split; [|lia].
    rewrite steps_app, H1. rewrite <- L1, H2. f_equal. f_equal. lia.
Qed.

(** The schedule [sequential] takes [main] through all three batches. *)
Lemma sequential_run (n1 n2 : nat) :
  exists s : state, steps n1 n2 (sequential n1 n2) init = Ok s /\ at_ s = LEnd.
Proof.
  unfold sequential.
  assert (H1 : exists (ts : list task) (o : list string),
             steps n1 n2 batch1 init = Ok (State L88 0 0 0 0 false ts o)
             /\ length ts = 1%nat).
  { do 2 eexists. split; [vm_compute; reflexivity|reflexivity]. }
  destruct H1 as (ts1 & o1 & H1 & L1).
  destruct (rounds2_run n1 n2 n1 0 0 ts1 o1 ltac:(lia)) as (c2 & ts2 & o2 & H2 & L2).
  rewrite L1 in H2. simpl in H2.
  assert (H3 : steps n1 n2 [Main; Main; Main] (State L88 n1 c2 0 0 false ts2 o2)
               = Ok (State L113 0 0 0 0 false ts2 o2)).
  { main_go.
    main_go. main_go. reflexivity. }
  destruct (rounds3_run n1 n2 n2 0 0 ts2 o2 ltac:(lia)) as (c4 & ts4 & o4 & H4 & L4).
  replace (length ts2) with (1 + 2 * n1)%nat in H4 by lia. simpl in H4.
  assert (H5 : steps n1 n2 [Main; Main] (State L113 n2 c4 0 0 false ts4 o4)
               = Ok (State LEnd n2 c4 0 0 false ts4 o4)).
  { main_go.
    main_go. reflexivity. }
  eexists. split.
  - rewrite steps_app, H1. rewrite steps_app, H2. rewrite steps_app, H3.
    rewrite steps_app. simpl Nat.add in *. rewrite H4. exact H5.
  - reflexivity.
Qed.

(** *** The wait group *)

(** C4. Under every schedule, a [wg.Wait()] of [main] returns only from a
    state in which the counter is 0, and in that state no goroutine started
    so far has its [wg.Done()] still ahead: each has run to its end, so all
    their steps come before the return in the run. *)
Theorem wait_returns_after_all_done (n1 n2 : nat) (sched : list tid) (s s' : state) :
  steps n1 n2 sched init = Ok s ->
  at_wait (at_ s) = true ->
  step n1 n2 Main s = Ok s' ->
  wg s = 0
  /\ total (ahead is_done) (tasks s) = 0
  /\ Forall finished (tasks s)
  /\ tasks s' = tasks s.
Proof.
  intros Hrun Hat Hstep.
  destruct (reachable_lock_inv n1 n2 sched s Hrun) as [[Hwg _ Hcodes] _ _].
  destruct s as [p i c w r wr ts o]. fields in Hwg. fields in Hcodes. fields in Hat.
  simpl in Hstep. unfold main_step, wait in Hstep. fields in Hstep. fields.
  destruct p; try discriminate; cbn in Hwg;
    (destruct (Z.eqb_spec w 0); [|discriminate]); injection Hstep as <-;
    (split; [assumption|]); (split; [lia|]); (split; [|reflexivity]);
    apply all_finished; (assumption || lia).
Qed.

(** C10. The one wait group serves every batch: whenever [main] has
    returned from a [wg.Wait()], and until it calls [wg.Add] for the next
    batch, the counter is exactly 0 and no goroutine is left that could
    change it. *)
Theorem wait_group_is_reusable (n1 n2 : nat) (sched : list tid) (s : state) :
  steps n1 n2 sched init = Ok s ->
  idle (at_ s) (i s) = true ->
  wg s = 0 /\ Forall finished (tasks s).
Proof.
  intros Hrun Hidle.
  destruct (reachable_lock_inv n1 n2 sched s Hrun) as [[Hwg Hi Hcodes] _ _].
  specialize (Hi Hidle). split; [exact Hi|].
  apply all_finished; [assumption|].
  assert (Ho : owed (at_ s) = 0) by (destruct (at_ s); try discriminate; reflexivity).
  lia.
Qed.

(** *** The mutex *)

(** C5. With the loop of the mutex batch run [n2] times, under every
    schedule: when [main] is past the last [wg.Wait()], every
    [incrementMutex] has run under the write lock and [counter] is exactly
    [n2]; and there is a schedule under which [main] gets there. *)
Theorem mutex_counter_exact (n1 n2 : nat) :
  Z.of_nat n2 <= max_int ->
  (forall (sched : list tid) (s : state),
      steps n1 n2 sched init = Ok s ->
      at_ s = LEnd ->
      counter s = Z.of_nat n2 /\ Forall finished (tasks s))
  /\ (exists s : state,
        steps n1 n2 (sequential n1 n2) init = Ok s
        /\ at_ s = LEnd /\ counter s = Z.of_nat n2).
Proof.
  intros Hmax.
  assert (Hall : forall (sched : list tid) (s : state),
             steps n1 n2 sched init = Ok s ->
             at_ s = LEnd ->
             counter s = Z.of_nat n2 /\ Forall finished (tasks s)).
  { intros sched s Hrun Hend.
    pose proof (steps_inv n1 n2 sched init s Hmax (init_inv n2) Hrun) as Hinv.
    destruct Hinv as [[[Hwg Hidle Hcodes] _ _] _ Hcnt _ Hi].
    rewrite Hend in *. specialize (Hidle eq_refl). specialize (Hcnt eq_refl).
    destruct (Hi eq_refl) as (_ & _ & Hi3). specialize (Hi3 (or_intror eq_refl)).
    assert (Hfin : Forall finished (tasks s))
      by (apply all_finished; [assumption|cbn in Hwg; lia]).
    split; [|exact Hfin].
    rewrite (finished_total _ _ Hfin) in Hcnt. lia. }
  split; [exact Hall|].
  destruct (sequential_run n1 n2) as (s & Hrun & Hend).
  exists s. split; [exact Hrun|]. split; [exact Hend|].
  exact (proj1 (Hall _ s Hrun Hend)).
Qed.

(** X5. Whatever the numbers of rounds, there is a schedule under which
    [main] passes its three [wg.Wait()] and ends, with every goroutine it
    started returned. *)
Theorem sequential_completes (n1 n2 : nat) :
  exists s : state,
    steps n1 n2 (sequential n1 n2) init = Ok s
    /\ at_ s = LEnd /\ wg s = 0 /\ Forall finished (tasks s).
Proof.
  destruct (sequential_run n1 n2) as (s & Hrun & Hend).
  exists s. split; [exact Hrun|]. split; [exact Hend|].
  destruct (reachable_lock_inv n1 n2 _ s Hrun) as [[Hwg Hidle Hcodes] _ _].
  rewrite Hend in *. specialize (Hidle eq_refl). split; [exact Hidle|].
  apply all_finished; [assumption|cbn in Hwg; lia].
Qed.

(** In a state the invariant holds in, no step panics. *)
Lemma step_no_panic (n1 n2 : nat) (t : tid) (s : state) (msg : string) :
  lock_inv s -> step n1 n2 t s <> Panic msg.
Proof.
  intros [[Hwg _ Hcodes] Hwr Hrd].
  destruct s as [p i c w r wr ts o].
  fields in Hwg. fields in Hcodes. fields in Hwr. fields in Hrd.
  destruct t as [|k]; simpl.
  - unfold main_step, wait; fields.
    destruct p; try discriminate;
      try (destruct (w =? 0)%Z; discriminate);
      try (destruct wr; discriminate).
    destruct (wr || negb (r =? 0)%nat); discriminate.
  - unfold task_step; fields.
    destruct (ts !! k) as [[cd m]|] eqn:Hk; [|discriminate].
    cbn [code tmp]. destruct cd as [|x rest]; [discriminate|].
    pose proof (total_lookup_le is_done ts k _ Hk) as Ld.
    pose proof (total_lookup_le is_unlock ts k _ Hk) as Lu.
    pose proof (total_lookup_le is_runlock ts k _ Hk) as Lr.
    rewrite (ahead_cons _ x rest m m) in Ld.
    rewrite (ahead_cons _ x rest m m) in Lu.
    rewrite (ahead_cons _ x rest m m) in Lr.
    assert (Hhw : 0 <= holds_write p <= 1) by (destruct p; simpl; lia).
    assert (Hhr : 0 <= holds_read p <= 1) by (destruct p; simpl; lia).
    assert (Ho : 0 <= owed p) by (destruct p; simpl; lia).
    destruct x; cbn [is_done is_unlock is_runlock] in *; try discriminate.
    + destruct r; [lia|discriminate].
    + destruct wr; [discriminate|lia].
    + destruct (Z.ltb_spec 0 w); [discriminate|lia].
Qed.

(** X1. No step of any schedule panics: [wg.Done()] never drives the
    counter below zero and the mutex is never unlocked when it is not
    held. *)
Lemma never_panics (n1 n2 : nat) (sched : list tid) (msg : string) :
  steps n1 n2 sched init <> Panic msg.
Proof.
  assert (Hgen : forall s, lock_inv s -> steps n1 n2 sched s <> Panic msg).
  { induction sched as [|t sched IH]; simpl; intros s Hs; [discriminate|].
    destruct (step n1 n2 t s) as [s1| |m] eqn:E.
    - apply IH. eapply step_lock_inv; eassumption.
    - discriminate.
    - exfalso. exact (step_no_panic n1 n2 t s m Hs E). }
  apply Hgen. exact (inv_lock 0 init (init_inv 0)).
Qed.

(** *** The example schedules, run *)

Lemma run_batch2 : steps 2 2 (batch1 ++ batch2_racy) init = Ok after_batch2.
Proof. vm_compute. reflexivity. Qed.

Lemma run_wait2 : step 2 2 Main after_batch2 = Ok after_wait2.
Proof. vm_compute. reflexivity. Qed.

Lemma run_to_wait2 :
  steps 2 2 (batch1 ++ batch2_racy ++ [Main]) init = Ok after_wait2.
Proof. vm_compute. reflexivity. Qed.

Lemma run_batch3 :
  steps 2 2 (batch1 ++ batch2_racy ++ batch3) init = Ok after_batch3.
Proof. vm_compute. reflexivity. Qed.

Lemma wait_returns_after_all_done_witness :
  steps 2 2 (batch1 ++ batch2_racy) init = Ok after_batch2
  /\ step 2 2 Main after_batch2 = Ok after_wait2
  /\ at_ after_batch2 = L93 /\ length (tasks after_batch2) = 5%nat
  /\ wg after_batch2 = 0 /\ Forall finished (tasks after_batch2).
Proof.
  split; [exact run_batch2|]. split; [exact run_wait2|].
  split; [reflexivity|]. split; [reflexivity|].
  pose proof (wait_returns_after_all_done 2 2 (batch1 ++ batch2_racy) _ _
                run_batch2 eq_refl run_wait2) as (H1 & _ & H2 & _).
  split; [exact H1 | exact H2].
Defined.

Lemma wait_group_is_reusable_witness :
  steps 2 2 (batch1 ++ batch2_racy ++ [Main]) init = Ok after_wait2
  /\ at_ after_wait2 = L112
  /\ wg after_wait2 = 0 /\ Forall finished (tasks after_wait2).
Proof.
  split; [exact run_to_wait2|]. split; [reflexivity|].
  exact (wait_group_is_reusable 2 2 (batch1 ++ batch2_racy ++ [Main]) _
           run_to_wait2 eq_refl).
Defined.

Lemma two_fits_int : Z.of_nat 2 <= max_int.
Proof. vm_compute. discriminate. Qed.

Lemma mutex_counter_exact_witness :
  steps 2 2 (batch1 ++ batch2_racy ++ batch3) init = Ok after_batch3
  /\ at_ after_batch3 = LEnd
  /\ counter after_batch3 = 2 /\ Forall finished (tasks after_batch3).
Proof.
  split; [exact run_batch3|]. split; [reflexivity|].
  exact (proj1 (mutex_counter_exact 2 2 two_fits_int)
           (batch1 ++ batch2_racy ++ batch3) _ run_batch3 eq_refl).
Defined.

(** X4. Without the lock the count can be lost: in [batch2_racy] the two
    [increment]s have both run to their end when [wg.Wait()] returns, and
    [counter] is 1. *)
Lemma unguarded_increment_loses_update :
  steps 2 2 (batch1 ++ batch2_racy ++ [Main]) init = Ok after_wait2
  /\ at_ after_wait2 = L112
  /\ Forall finished (tasks after_wait2)
  /\ counter after_wait2 = 1.
Proof.
  split; [exact run_to_wait2|]. split; [reflexivity|].
  split; [|reflexivity]. repeat constructor.
Qed.

End Goroutines.

(* ===================================================================== *)
(** ** Exhaustive exploration of a finite transition system               *)
(* ===================================================================== *)

Module Explore.

Section Explore.
Context {St : Type} `{EqDecision St}.
(** The states one step away. *)
Variable next : St -> list St.

Fixpoint explore (fuel : nat) (todo seen : list St) : list St :=
  match fuel with
  | O => seen
  | S fuel' =>
      match todo with
      | [] => seen
      | s :: rest =>
          if bool_decide (s ∈ seen) then explore fuel' rest seen
          else explore fuel' (next s ++ rest) (s :: seen)
      end
  end.

(** [R] holds [s0] and every successor of its members. *)
Definition closed_from (s0 : St) (R : list St) : bool :=
  bool_decide (s0 ∈ R)
  && forallb (fun s => forallb (fun s' => bool_decide (s' ∈ R)) (next s)) R.

(** [s'] is reached from [s] by following [next]. *)
Inductive reaches (s : St) : St -> Prop :=
| reaches_here : reaches s s
| reaches_next (s1 s2 : St) : reaches s s1 -> s2 ∈ next s1 -> reaches s s2.

Lemma forallb_member (f : St -> bool) (l : list St) (x : St) :
  forallb f l = true -> x ∈ l -> f x = true.
Proof.
  induction l as [|y l IH]; simpl; intros H Hin.
  - inversion Hin.
  - apply andb_true_iff in H as [H1 H2]. inversion Hin; subst; auto.
Qed.

Lemma closed_from_sound (s0 : St) (R : list St) :
  closed_from s0 R = true -> forall s : St, reaches s0 s -> s ∈ R.
Proof.
  unfold closed_from. intros H. apply andb_true_iff in H as [H0 Hcl].
  apply bool_decide_eq_true in H0.
  induction 1 as [|s1 s2 _ IH Hin]; [exact H0|].
  pose proof (forallb_member _ _ _ Hcl IH) as H1.
  pose proof (forallb_member _ _ _ H1 Hin) as H2.
  apply bool_decide_eq_true in H2. exact H2.
Qed.

(** What holds of every member of a closed set holds of every reachable
    state. *)
Lemma reaches_forallb (s0 : St) (R : list St) (f : St -> bool) :
  closed_from s0 R = true -> forallb f R = true ->
  forall s : St, reaches s0 s -> f s = true.
Proof.
  intros Hcl Hf s Hs. eapply forallb_member; [exact Hf|].
  eapply closed_from_sound; eassumption.
Qed.

End Explore.

End Explore.

(* ===================================================================== *)
(** ** channels.go, [main] from line 63 to line 295                       *)
(* ===================================================================== *)

(** Everything [main] does before it starts the logger: the channels it
    makes, the goroutines it starts on them, its [wg.Add] and [wg.Wait]
    calls, and what it and the goroutines print. *)
Module Main.

Import Chan.

Local Open Scope string_scope.

(** The statements of the goroutines.  A channel is named by the order
    in which [main] made it. *)
Inductive stmt :=
| Recv (c : nat)           (* i := <-ch *)
| Println                  (* fmt.Println(i) *)
| Assign (v : Z)           (* i := v, i = v *)
| SendI (c : nat)          (* ch <- i *)
| Send (c : nat) (v : Z)   (* ch <- v *)
| Close (c : nat)          (* close(ch) *)
| Range (c : nat)          (* for i := range ch { fmt.Println(i) } *)
| LoopOk (c : nat)         (* for { if i, ok := <-ch; ok { fmt.Println(i) }
                                    else { break } } *)
| Done.                    (* wg.Done() *)

(** The statements of [main]. *)
Inductive mstmt :=
| MPrintln (s : string)    (* fmt.Println(s) *)
| Make (cap : nat)         (* make(chan int, cap) *)
| Add (n : Z)              (* wg.Add(n) *)
| Go (body : list stmt)    (* go func(...) {...}(...) *)
| Wait.                    (* wg.Wait() *)

(** The channels in the order they are made. *)
Definition ch : nat := 0.
Definition bufCh : nat := 1.
Definition loopCh2 : nat := 2.
Definition loopCh4 : nat := 3.

(** [n] rounds of a loop whose body does not use the loop variable. *)
Fixpoint times (n : nat) (body : list mstmt) : list mstmt :=
  match n with
  | O => []
  | S n' => body ++ times n' body
  end.

(** Lines 63-295.  [fmt.Println(<-ch)] of line 146 is the receive followed
    by the print. *)
Definition main : list mstmt :=
  [ MPrintln "#### Channel basics ####";
    Make 0;                                                   (* 66 *)
    Add 2;                                                    (* 67 *)
    Go [Recv ch; Println; Done];                              (* 68-73 *)
    Go [Assign 42; SendI ch; Assign 27; Done];                (* 74-80 *)
    Wait ]                                                    (* 81 *)
  ++ times 3                                                  (* 85 *)
       [ Add 2;                                               (* 86 *)
         Go [Recv ch; Println; Done];                         (* 87-91 *)
         Go [Send ch 33; Done] ]                              (* 92-95 *)
  ++ [ Wait;                                                  (* 97 *)
       MPrintln "";                                           (* 117 *)
       MPrintln "#### Restricting data flow ####";
       Add 2;                                                 (* 137 *)
       Go [Recv ch; Println; Send ch 27; Done];               (* 138-143 *)
       Go [Send ch 42; Recv ch; Println; Done];               (* 144-148 *)
       Wait;                                                  (* 149 *)
       Add 2;                                                 (* 152 *)
       Go [Recv ch; Println; Done];                           (* 153-158 *)
       Go [Send ch 42; Done];                                 (* 159-163 *)
       Wait;                                                  (* 164 *)
       MPrintln "";
       MPrintln "#### Buffered channels ####";
       Make 50;                                               (* 178 *)
       Add 2;                                                 (* 179 *)
       Go [Recv bufCh; Println; Done];                        (* 180-184 *)
       Go [Send bufCh 42; Send bufCh 27; Done];               (* 185-189 *)
       Wait;                                                  (* 190 *)
       MPrintln "";
       MPrintln "#### For loops with channels ####";
       Make 50;                                               (* 240 *)
       Add 2;                                                 (* 241 *)
       Go [Range loopCh2; Done];                              (* 242-247 *)
       Go [Send loopCh2 42; Send loopCh2 27; Close loopCh2; Done]; (* 248-253 *)
       Wait;                                                  (* 254 *)
       Make 50;                                               (* 274 *)
       Add 2;                                                 (* 275 *)
       Go [LoopOk loopCh4; Done];                             (* 276-287 *)
       Go [Send loopCh4 42; Send loopCh4 27; Close loopCh4; Done]; (* 288-293 *)
       Wait;                                                  (* 294 *)
       MPrintln "" ].                                         (* 295 *)

(** A started goroutine: the statements it has left and its variable [i]. *)
Record gor := Gor { code : list stmt; i : Z }.

Record state := State {
  chans : list (chan Z);
  wg : Z;
  todo : list mstmt;        (* what [main] has left *)
  gs : list gor;            (* the goroutines started, in order *)
  out : list string         (* standard output, line by line *)
}.

(** The scheduler's choice: [main], the goroutine [k], or the goroutine
    [s] sending to the goroutine [r] that waits to receive. *)
Inductive tid := TMain | Run (k : nat) | Meet (s r : nat).

Inductive result :=
| Ok (s : state)
| Blocked
| Panic (msg : string).

Definition wg_panic : string := "sync: negative WaitGroup counter".

Definition boot (prog : list mstmt) : state := State [] 0 prog [] [].

Definition set_gor (k : nat) (g : gor) (s : state) : state :=
  State (chans s) (wg s) (todo s) (<[k := g]> (gs s)) (out s).
Definition set_chan (c : nat) (x : chan Z) (s : state) : state :=
  State (<[c := x]> (chans s)) (wg s) (todo s) (gs s) (out s).
Definition print (line : string) (s : state) : state :=
  State (chans s) (wg s) (todo s) (gs s) (out s ++ [line]).

(** One statement of [main]. *)
Definition main_step (s : state) : result :=
  match todo s with
  | [] => Blocked
  | MPrintln l :: rest =>
      Ok (State (chans s) (wg s) rest (gs s) (out s ++ [Fmt.Sprintln [l]]))
  | Make n :: rest => Ok (State (chans s ++ [make n]) (wg s) rest (gs s) (out s))
  | Add n :: rest => Ok (State (chans s) (wg s + n) rest (gs s) (out s))
  | Go body :: rest =>
      Ok (State (chans s) (wg s) rest (gs s ++ [Gor body 0]) (out s))
  | Wait :: rest =>
      if (wg s =? 0)%Z then Ok (State (chans s) (wg s) rest (gs s) (out s))
      else Blocked
  end.

(** A receive by a goroutine whose statements after the receive are
    [rest]: a plain receive takes the value and goes on; a loop prints the
    value and comes back, or ends when the channel is closed and empty. *)
Definition received (x : stmt) (rest : list stmt) (v : Z) (ok : bool) : list stmt :=
  match x with
  | Range _ | LoopOk _ => if ok then Println :: x :: rest else rest
  | _ => rest
  end.

(** The channel a statement receives from. *)
Definition receives (x : stmt) : option nat :=
  match x with
  | Recv c | Range c | LoopOk c => Some c
  | _ => None
  end.

(** The channel and the value of a send statement. *)
Definition sends (x : stmt) (i : Z) : option (nat * Z) :=
  match x with
  | SendI c => Some (c, i)
  | Send c v => Some (c, v)
  | _ => None
  end.

(** One statement of the goroutine [k] on its own. *)
Definition run_step (k : nat) (s : state) : result :=
  match gs s !! k with
  | None => Blocked
  | Some g =>
      match code g with
      | [] => Blocked
      | x :: rest =>
          match x with
          | Recv c | Range c | LoopOk c =>
              match chans s !! c with
              | None => Blocked
              | Some q =>
                  match chanrecv 0%Z q with
                  | Received v ok q' =>
                      Ok (set_chan c q' (set_gor k (Gor (received x rest v ok) v) s))
                  | RecvBlocks => Blocked
                  end
              end
          | Println => Ok (print (Fmt.Sprintln [Fmt.itoa (i g)]) (set_gor k (Gor rest (i g)) s))
          | Assign v => Ok (set_gor k (Gor rest v) s)
          | SendI _ | Send _ _ =>
              match sends x (i g) with
              | None => Blocked
              | Some (c, v) =>
                  match chans s !! c with
                  | None => Blocked
                  | Some q =>
                      match chansend q v with
                      | Sent q' => Ok (set_chan c q' (set_gor k (Gor rest (i g)) s))
                      | SendBlocks => Blocked
                      | SendPanics => Panic send_panic
                      end
                  end
              end
          | Close c =>
              match chans s !! c with
              | None => Blocked
              | Some q =>
                  match closechan q with
                  | Closed q' => Ok (set_chan c q' (set_gor k (Gor rest (i g)) s))
                  | ClosePanics => Panic close_panic
                  end
              end
          | Done =>
              if (0 <? wg s)%Z
              then Ok (State (chans s) (wg s - 1) (todo s)
                             (<[k := Gor rest (i g)]> (gs s)) (out s))
              else Panic wg_panic
          end
      end
  end.

(** The goroutine [a] at a send and the goroutine [b] at a receive on the
    same channel, open and with nothing buffered: the value goes straight
    from one to the other. *)
Definition meet_step (a b : nat) (s : state) : result :=
  match gs s !! a, gs s !! b with
  | Some ga, Some gb =>
      match code ga, code gb with
      | xa :: resta, xb :: restb =>
          match sends xa (i ga), receives xb with
          | Some (c, v), Some c' =>
              if negb (a =? b)%nat && (c =? c')%nat then
                match chans s !! c with
                | None => Blocked
                | Some q =>
                    match handoff q v with
                    | Some (v', ok) =>
                        Ok (set_gor b (Gor (received xb restb v' ok) v')
                              (set_gor a (Gor resta (i ga)) s))
                    | None => Blocked
                    end
                end
              else Blocked
          | _, _ => Blocked
          end
      | _, _ => Blocked
      end
  | _, _ => Blocked
  end.

Definition step (t : tid) (s : state) : result :=
  match t with
  | TMain => main_step s
  | Run k => run_step k s
  | Meet a b => meet_step a b s
  end.

Fixpoint steps (sched : list tid) (s : state) : result :=
  match sched with
  | [] => Ok s
  | t :: rest =>
      match step t s with
      | Ok s' => steps rest s'
      | r => r
      end
  end.

(** *** The reachable states *)

#[global] Instance stmt_eq_dec : EqDecision stmt.
Proof. solve_decision. Defined.
#[global] Instance mstmt_eq_dec : EqDecision mstmt.
Proof. solve_decision. Defined.
#[global] Instance gor_eq_dec : EqDecision gor.
Proof. solve_decision. Defined.
(** The fields are compared in the order in which states most often
    differ. *)
#[global] Instance state_eq_dec : EqDecision state.
Proof.
  refine (fun s s' =>
            cast_if (decide ((gs s, todo s, wg s, chans s, out s)
                             = (gs s', todo s', wg s', chans s', out s'))));
    destruct s, s'; simpl in *; congruence.
Defined.

(** Every choice the scheduler has in a state: a goroutine that is not
    started cannot be chosen. *)
Definition at_send (g : gor) : bool :=
  match code g with
  | SendI _ :: _ | Send _ _ :: _ => true
  | _ => false
  end.

Definition at_receive (g : gor) : bool :=
  match code g with
  | Recv _ :: _ | Range _ :: _ | LoopOk _ :: _ => true
  | _ => false
  end.

(** The goroutines that satisfy [p], by number. *)
Fixpoint which (p : gor -> bool) (k : nat) (l : list gor) : list nat :=
  match l with
  | [] => []
  | g :: rest => if p g then k :: which p (S k) rest else which p (S k) rest
  end.

Definition running (g : gor) : bool :=
  match code g with
  | [] => false
  | _ :: _ => true
  end.

Definition threads (s : state) : list tid :=
  TMain :: map Run (which running 0 (gs s))
  ++ flat_map (fun a => map (Meet a) (which at_receive 0 (gs s)))
              (which at_send 0 (gs s)).

Definition next (s : state) : list state :=
  flat_map (fun t => match step t s with Ok s' => [s'] | _ => [] end) (threads s).

Definition reachable (prog : list mstmt) : list state :=
  Explore.explore next 4000 [boot prog] [].

(** [fmt.Println] of each of these lines is what [main] and its
    goroutines write, whatever the schedule. *)
Definition stdout : list string :=
  map (fun l => Fmt.Sprintln [l])
    [ "#### Channel basics ####"; "42"; "33"; "33"; "33"; "";
      "#### Restricting data flow ####"; "42"; "27"; "42"; "";
      "#### Buffered channels ####"; "42"; "";
      "#### For loops with channels ####"; "42"; "27"; "42"; "27"; "" ].

Definition returned (g : gor) : bool :=
  match code g with
  | [] => true
  | _ :: _ => false
  end.

(** What [main] leaves behind when it has run all its statements. *)
Definition finished_well (s : state) : bool :=
  match todo s with
  | [] =>
      bool_decide (out s = stdout) && forallb returned (gs s)
      && bool_decide (wg s = 0)
      && bool_decide (chans s = [Mk 0 [] false; Mk 50 [27] false;
                                 Mk 50 [] true; Mk 50 [] true])
  | _ :: _ => true
  end.

(** Some thread can take a step, unless [main] has ended. *)
Definition not_stuck (s : state) : bool :=
  match todo s, next s with
  | _ :: _, [] => false
  | _, _ => true
  end.

Definition no_panic (s : state) : bool :=
  forallb (fun t => match step t s with Panic _ => false | _ => true end) (threads s).

(** *** A measure that every step decreases *)

(** The send statements on the channel [c] among [l]. *)
Fixpoint sends_in (c : nat) (l : list stmt) : nat :=
  match l with
  | [] => O
  | SendI c' :: rest | Send c' _ :: rest =>
      if (c' =? c)%nat then S (sends_in c rest) else sends_in c rest
  | _ :: rest => sends_in c rest
  end.

Definition spawns_sends (c : nat) (m : mstmt) : nat :=
  match m with
  | Go body => sends_in c body
  | _ => 0
  end.

(** The values that may still arrive on the channel [c]: those buffered
    and those of the send statements not run yet. *)
Definition pending (c : nat) (s : state) : nat :=
  match chans s !! c with Some q => length (buf q) | None => O end
  + sum_list (map (fun g => sends_in c (code g)) (gs s))
  + sum_list (map (spawns_sends c) (todo s)).

Definition weight (s : state) (x : stmt) : nat :=
  match x with
  | Range c | LoopOk c => 1 + 2 * pending c s
  | _ => 1
  end.

Definition mweight (s : state) (m : mstmt) : nat :=
  match m with
  | Go body => 1 + sum_list (map (weight s) body)
  | _ => 1
  end.

Definition measure (s : state) : nat :=
  sum_list (map (mweight s) (todo s))
  + sum_list (map (fun g => sum_list (map (weight s) (code g))) (gs s)).

Definition decreasing (s : state) : bool :=
  forallb (fun s' => (measure s' <? measure s)%nat) (next s).

Definition checks (s : state) : bool :=
  finished_well s && not_stuck s && no_panic s && decreasing s.

(** [chk] holds of every state of [reachable prog], and these are all
    the states [prog] can get to. *)
Definition verified (prog : list mstmt) (chk : state -> bool) : bool :=
  let R := reachable prog in
  Explore.closed_from next (boot prog) R && forallb chk R.

(** *** The commented-out examples that do not end *)

(** Lines 103-116, with the channel of line 66: one receiver, three
    senders. *)
Definition deadlock3 : list mstmt :=
  [ Make 0; Add 1; Go [Recv ch; Println; Done] ]
  ++ times 3 [ Add 1; Go [Send ch 42; Done] ]
  ++ [ Wait ].

(** Lines 224-237: the for-range loop over a channel nobody closes. *)
Definition range_unclosed : list mstmt :=
  [ Make 50; Add 2;
    Go [Range 0; Done];
    Go [Send 0 42; Send 0 27; Done];
    Wait ].

(** No thread can take a step. *)
Definition stuck (s : state) : bool :=
  match next s with
  | [] => true
  | _ :: _ => false
  end.

(** [main] never gets past its [wg.Wait()], and when nothing can move
    any more the output is [lines] and the wait group stands at [w]. *)
Definition hangs (lines : list string) (w : Z) (s : state) : bool :=
  match todo s with
  | [] => false
  | _ :: _ =>
      if stuck s
      then bool_decide (todo s = [Wait])
           && bool_decide (out s = map (fun l => Fmt.Sprintln [l]) lines)
           && bool_decide (wg s = w)
      else true
  end
  && no_panic s && decreasing s.

(** The scheduler that always picks the first thread that can move. *)
Fixpoint first_enabled (l : list tid) (s : state) : option (tid * state) :=
  match l with
  | [] => None
  | t :: rest =>
      match step t s with
      | Ok s' => Some (t, s')
      | _ => first_enabled rest s
      end
  end.

Fixpoint drive (fuel : nat) (s : state) : list tid :=
  match fuel with
  | O => []
  | S fuel' =>
      match first_enabled (threads s) s with
      | Some (t, s') => t :: drive fuel' s'
      | None => []
      end
  end.

Definition final (sched : list tid) (prog : list mstmt) : state :=
  match steps sched (boot prog) with
  | Ok s => s
  | _ => boot prog
  end.

Definition main_schedule : list tid := Eval vm_compute in drive 200 (boot main).
Definition main_end : state := Eval vm_compute in final main_schedule main.

Definition deadlock3_schedule : list tid :=
  Eval vm_compute in drive 200 (boot deadlock3).
Definition deadlock3_end : state :=
  Eval vm_compute in final deadlock3_schedule deadlock3.

Definition range_unclosed_schedule : list tid :=
  Eval vm_compute in drive 200 (boot range_unclosed).
Definition range_unclosed_end : state :=
  Eval vm_compute in final range_unclosed_schedule range_unclosed.

Local Close Scope string_scope.

(** *** The exploration covers every schedule *)

Lemma which_elem (p : gor -> bool) (l : list gor) :
  forall (n k : nat) (g : gor),
    l !! k = Some g -> p g = true -> (n + k)%nat ∈ which p n l.
Proof.
  induction l as [|g0 l IH]; intros n k g Hk Hp; [destruct k; discriminate|].
  destruct k as [|k]; simpl in *.
  - injection Hk as ->. rewrite Hp, Nat.add_0_r. constructor.
  - replace (n + S k)%nat with (S n + k)%nat by lia.
    destruct (p g0); [right|]; eapply IH; eauto.
Qed.

(** Only the threads listed by [threads] can move. *)
Lemma step_thread (t : tid) (s : state) : step t s <> Blocked -> t ∈ threads s.
Proof.
  unfold threads. destruct t as [|k|a b]; simpl.
  - intros _. left.
  - unfold run_step. destruct (gs s !! k) as [g|] eqn:Hk; [|congruence].
    destruct (code g) as [|x rest] eqn:Hc; [congruence|]. intros _.
    right. apply elem_of_app. left. apply list_elem_of_In, in_map, list_elem_of_In.
    apply (which_elem running _ 0%nat k g Hk). unfold running. now rewrite Hc.
  - unfold meet_step.
    destruct (gs s !! a) as [ga|] eqn:Ha; [|congruence].
    destruct (gs s !! b) as [gb|] eqn:Hb; [|congruence].
    destruct (code ga) as [|xa resta] eqn:Hca; [congruence|].
    destruct (code gb) as [|xb restb] eqn:Hcb; [congruence|].
    destruct (sends xa (i ga)) as [[c v]|] eqn:Hs; [|congruence].
    destruct (receives xb) as [c'|] eqn:Hr; [|congruence]. intros _.
    right. apply elem_of_app. right. apply list_elem_of_In, in_flat_map.
    exists a. split; apply list_elem_of_In.
    + apply (which_elem at_send _ 0%nat a ga Ha). unfold at_send. rewrite Hca.
      destruct xa; try discriminate; reflexivity.
    + apply list_elem_of_In, in_map, list_elem_of_In.
      apply (which_elem at_receive _ 0%nat b gb Hb). unfold at_receive.
      rewrite Hcb. destruct xb; try discriminate; reflexivity.
Qed.

Lemma step_next (t : tid) (s s' : state) : step t s = Ok s' -> s' ∈ next s.
Proof.
  intros H. unfold next. apply list_elem_of_In, in_flat_map. exists t. split.
  - apply list_elem_of_In, step_thread. congruence.
  - rewrite H. left. reflexivity.
Qed.

Lemma next_step (s s' : state) : s' ∈ next s -> exists t : tid, step t s = Ok s'.
Proof.
  unfold next. intros H. apply list_elem_of_In, in_flat_map in H as [t [_ H]].
  exists t. destruct (step t s); simpl in H; try contradiction.
  destruct H as [->|[]]. reflexivity.
Qed.

Lemma steps_append (a b : list tid) (s : state) :
  steps (a ++ b) s = match steps a s with Ok s' => steps b s' | r => r end.
Proof.
  revert s. induction a as [|t a IH]; intros s; simpl; [reflexivity|].
  destruct (step t s); auto.
Qed.

Lemma steps_reaches (s0 : state) (sched : list tid) :
  forall s1 s2 : state,
    Explore.reaches next s0 s1 -> steps sched s1 = Ok s2 ->
    Explore.reaches next s0 s2.
Proof.
  induction sched as [|t sched IH]; simpl; intros s1 s2 Hr H.
  - injection H as <-. exact Hr.
  - destruct (step t s1) as [s'| |] eqn:E; try discriminate.
    apply (IH s' s2); [|exact H].
    eapply Explore.reaches_next; [exact Hr|]. eapply step_next, E.
Qed.

(** A check that passed holds after every schedule. *)
Lemma verified_reaches (prog : list mstmt) (chk : state -> bool) :
  verified prog chk = true ->
  forall s : state, Explore.reaches next (boot prog) s -> chk s = true.
Proof.
  unfold verified. intros H s Hs. apply andb_true_iff in H as [Hcl Hf].
  eapply Explore.reaches_forallb; eassumption.
Qed.

Lemma verified_steps (prog : list mstmt) (chk : state -> bool) :
  verified prog chk = true ->
  forall (sched : list tid) (s : state),
    steps sched (boot prog) = Ok s -> chk s = true.
Proof.
  intros H sched s Hs. apply (verified_reaches _ _ H).
  eapply steps_reaches; [apply Explore.reaches_here|exact Hs].
Qed.

Lemma no_panic_step (s : state) :
  no_panic s = true -> forall (t : tid) (msg : string), step t s <> Panic msg.
Proof.
  unfold no_panic. intros H t msg Hs.
  assert (Hin : t ∈ threads s) by (apply step_thread; congruence).
  apply list_elem_of_In in Hin.
  pose proof (proj1 (forallb_forall _ _) H t Hin) as H1. simpl in H1.
  rewrite Hs in H1. discriminate.
Qed.

Lemma steps_no_panic (s0 : state) :
  (forall s : state, Explore.reaches next s0 s -> no_panic s = true) ->
  forall (sched : list tid) (s1 : state) (msg : string),
    Explore.reaches next s0 s1 -> steps sched s1 <> Panic msg.
Proof.
  intros Hall. induction sched as [|t sched IH]; simpl; intros s1 msg Hr.
  - congruence.
  - destruct (step t s1) as [s'| |] eqn:E.
    + apply IH. eapply Explore.reaches_next; [exact Hr|]. eapply step_next, E.
    + congruence.
    + exfalso. eapply no_panic_step; [apply (Hall _ Hr)|exact E].
Qed.

Lemma decreasing_step (s s' : state) (t : tid) :
  decreasing s = true -> step t s = Ok s' -> (measure s' < measure s)%nat.
Proof.
  unfold decreasing. intros H Hs. apply step_next, list_elem_of_In in Hs.
  pose proof (proj1 (forallb_forall _ _) H s' Hs) as H1. simpl in H1.
  apply Nat.ltb_lt in H1. exact H1.
Qed.

(** Each step costs one unit of the measure. *)
Lemma steps_measure (s0 : state) :
  (forall s : state, Explore.reaches next s0 s -> decreasing s = true) ->
  forall (sched : list tid) (s1 s2 : state),
    Explore.reaches next s0 s1 -> steps sched s1 = Ok s2 ->
    (length sched + measure s2 <= measure s1)%nat.
Proof.
  intros Hall. induction sched as [|t sched IH]; simpl; intros s1 s2 Hr H.
  - injection H as <-. lia.
  - destruct (step t s1) as [s'| |] eqn:E; try discriminate.
    assert (Hr' : Explore.reaches next s0 s')
      by (eapply Explore.reaches_next; [exact Hr|]; eapply step_next, E).
    pose proof (IH s' s2 Hr' H).
    pose proof (decreasing_step _ _ _ (Hall _ Hr) E). lia.
Qed.

(** Every run can be carried on until no thread can move. *)
Lemma runs_out (s0 : state) :
  (forall s : state, Explore.reaches next s0 s -> decreasing s = true) ->
  forall (n : nat) (s : state),
    (measure s < n)%nat -> Explore.reaches next s0 s ->
    exists (sched : list tid) (s' : state),
      steps sched s = Ok s' /\ next s' = [].
Proof.
  intros Hall. induction n as [|n IH]; intros s Hn Hr; [lia|].
  destruct (next s) as [|s1 l] eqn:E.
  - exists [], s. split; [reflexivity|exact E].
  - assert (Hin : s1 ∈ next s) by (rewrite E; left).
    destruct (next_step _ _ Hin) as [t Ht].
    pose proof (decreasing_step _ _ _ (Hall _ Hr) Ht) as Hlt.
    destruct (IH s1) as (sched & s' & Hs & Hnone);
      [lia|eapply Explore.reaches_next; eassumption|].
    exists (t :: sched), s'. split; [|exact Hnone]. simpl. rewrite Ht. exact Hs.
Qed.

(** Where nothing is listed as a successor and nothing panics, every
    thread is blocked. *)
Lemma stuck_blocked (s : state) :
  next s = [] -> no_panic s = true -> forall t : tid, step t s = Blocked.
Proof.
  intros Hn Hp t. destruct (step t s) as [s'| |msg] eqn:E; [|reflexivity|].
  - apply step_next in E. rewrite Hn in E. inversion E.
  - exfalso. eapply no_panic_step; eassumption.
Qed.

Lemma blocked_stuck (s : state) : (forall t : tid, step t s = Blocked) -> next s = [].
Proof.
  intros H. destruct (next s) as [|s1 l] eqn:E; [reflexivity|].
  assert (Hin : s1 ∈ next s) by (rewrite E; left).
  destruct (next_step _ _ Hin) as [t Ht]. rewrite H in Ht. discriminate.
Qed.

Lemma main_verified : verified main checks = true.
Proof. vm_compute. reflexivity. Qed.

Lemma deadlock3_verified : verified deadlock3 (hangs ["42"%string] 2) = true.
Proof. vm_compute. reflexivity. Qed.

Lemma range_unclosed_verified :
  verified range_unclosed (hangs ["42"%string; "27"%string] 1) = true.
Proof. vm_compute. reflexivity. Qed.

Lemma main_schedule_run : steps main_schedule (boot main) = Ok main_end.
Proof. vm_compute. reflexivity. Qed.

Lemma deadlock3_schedule_run :
  steps deadlock3_schedule (boot deadlock3) = Ok deadlock3_end.
Proof. vm_compute. reflexivity. Qed.

Lemma range_unclosed_schedule_run :
  steps range_unclosed_schedule (boot range_unclosed) = Ok range_unclosed_end.
Proof. vm_compute. reflexivity. Qed.

Lemma checks_split (s : state) :
  checks s = true ->
  finished_well s = true /\ not_stuck s = true
  /\ no_panic s = true /\ decreasing s = true.
Proof.
  unfold checks. intros H.
  apply andb_true_iff in H as [H H4]. apply andb_true_iff in H as [H H3].
  apply andb_true_iff in H as [H1 H2]. auto.
Qed.

Lemma finished_well_end (s : state) :
  finished_well s = true -> todo s = [] ->
  out s = stdout /\ Forall (fun g => code g = []) (gs s) /\ wg s = 0
  /\ chans s = [Mk 0 [] false; Mk 50 [27] false; Mk 50 [] true; Mk 50 [] true].
Proof.
  unfold finished_well. intros H Ht. rewrite Ht in H.
  apply andb_true_iff in H as [H H4]. apply andb_true_iff in H as [H H3].
  apply andb_true_iff in H as [H1 H2].
  apply bool_decide_eq_true in H1, H3, H4. repeat split; auto.
  apply Forall_forall. intros g Hg. apply list_elem_of_In in Hg.
  pose proof (proj1 (forallb_forall _ _) H2 g Hg) as Hr. unfold returned in Hr.
  destruct (code g); [reflexivity|discriminate].
Qed.

Lemma hangs_split (lines : list string) (w : Z) (s : state) :
  hangs lines w s = true ->
  todo s <> []
  /\ (next s = [] ->
      todo s = [Wait] /\ out s = map (fun l => Fmt.Sprintln [l]) lines /\ wg s = w)
  /\ no_panic s = true /\ decreasing s = true.
Proof.
  unfold hangs, stuck. intros H.
  apply andb_true_iff in H as [H H3]. apply andb_true_iff in H as [H1 H2].
  destruct (todo s) as [|m rest] eqn:Et; [discriminate|].
  split; [congruence|]. split; [|auto].
  intros Hn. rewrite Hn in H1.
  apply andb_true_iff in H1 as [H1 Hc]. apply andb_true_iff in H1 as [Ha Hb].
  apply bool_decide_eq_true in Ha, Hb, Hc. auto.
Qed.

(** A program that passed [hangs]: [main] never gets past its last
    [wg.Wait()], no run is longer than the measure of the start, every run
    can be carried on until every thread is blocked, and then the output
    and the wait group are as given. *)
Lemma hangs_run (prog : list mstmt) (lines : list string) (w : Z) :
  verified prog (hangs lines w) = true ->
  forall (sched : list tid) (s : state),
    steps sched (boot prog) = Ok s ->
    todo s <> []
    /\ (length sched <= measure (boot prog))%nat
    /\ ((forall t : tid, step t s = Blocked) ->
        todo s = [Wait] /\ out s = map (fun l => Fmt.Sprintln [l]) lines
        /\ wg s = w)
    /\ exists (more : list tid) (s' : state),
         steps (sched ++ more) (boot prog) = Ok s'
         /\ forall t : tid, step t s' = Blocked.
Proof.
  intros Hv sched s Hs.
  assert (Hall : forall s, Explore.reaches next (boot prog) s ->
                           hangs lines w s = true)
    by (apply verified_reaches; exact Hv).
  assert (Hdec : forall s, Explore.reaches next (boot prog) s ->
                           decreasing s = true)
    by (intros s1 H1; apply (hangs_split _ _ _ (Hall _ H1))).
  assert (Hr : Explore.reaches next (boot prog) s)
    by (eapply steps_reaches; [apply Explore.reaches_here|exact Hs]).
  destruct (hangs_split _ _ _ (Hall _ Hr)) as (Ht & Hstuck & _ & _).
  split; [exact Ht|]. split.
  { pose proof (steps_measure _ Hdec sched _ _ (Explore.reaches_here _ _) Hs).
    lia. }
  split; [intros Hb; apply Hstuck, blocked_stuck, Hb|].
  destruct (runs_out _ Hdec (S (measure s)) s) as (more & s' & Hm & Hn);
    [lia|exact Hr|].
  exists more, s'. split; [rewrite steps_append, Hs; exact Hm|].
  apply stuck_blocked; [exact Hn|].
  apply (hangs_split lines w), Hall. eapply steps_reaches; eassumption.
Qed.

(** *** What [main] prints and leaves behind, whatever the schedule *)

(** X8 (channels.go:63-295): whatever the order in which the goroutines
    are scheduled, when [main] has run its statements up to line 295 the
    standard output is the same twenty lines: each example prints the
    values it sent, in the order it sent them. *)
Theorem main_output (sched : list tid) (s : state) :
  steps sched (boot main) = Ok s -> todo s = [] -> out s = stdout.
Proof.
  intros Hs Ht. pose proof (verified_steps _ _ main_verified _ _ Hs) as H.
  apply checks_split in H as (H & _). apply (finished_well_end _ H Ht).
Qed.

(** X9 (channels.go:63-295): at that point every goroutine [main]
    started has returned, the wait group is back at zero, the first
    channel is empty and open, both loop channels are closed and drained,
    and the buffered channel of line 178 still holds the 27 nobody
    received. *)
Theorem main_leaves (sched : list tid) (s : state) :
  steps sched (boot main) = Ok s -> todo s = [] ->
  Forall (fun g => code g = []) (gs s) /\ wg s = 0
  /\ chans s = [Mk 0 [] false; Mk 50 [27] false; Mk 50 [] true; Mk 50 [] true].
Proof.
  intros Hs Ht. pose proof (verified_steps _ _ main_verified _ _ Hs) as H.
  apply checks_split in H as (H & _). apply (finished_well_end _ H Ht).
Qed.

(** X10 (channels.go:63-295): [main] cannot deadlock: after any schedule,
    as long as [main] has statements left some thread can take a step. *)
Theorem main_never_stuck (sched : list tid) (s : state) :
  steps sched (boot main) = Ok s -> todo s <> [] ->
  exists (t : tid) (s' : state), step t s = Ok s'.
Proof.
  intros Hs Ht. pose proof (verified_steps _ _ main_verified _ _ Hs) as H.
  apply checks_split in H as (_ & H & _). unfold not_stuck in H.
  destruct (todo s) as [|m rest]; [congruence|].
  destruct (next s) as [|s1 l] eqn:E; [discriminate|].
  assert (Hin : s1 ∈ next s) by (rewrite E; left).
  destruct (next_step _ _ Hin) as [t Hstep]. eauto.
Qed.

(** X11 (channels.go:63-295): no schedule makes [main] or one of its
    goroutines panic: nothing is sent on a closed channel, no channel is
    closed twice, and the wait group never goes below zero. *)
Theorem main_never_panics (sched : list tid) (msg : string) :
  steps sched (boot main) <> Panic msg.
Proof.
  apply (steps_no_panic (boot main)); [|apply Explore.reaches_here].
  intros s Hs. pose proof (verified_reaches _ _ main_verified _ Hs) as H.
  apply checks_split in H. tauto.
Qed.

(** X12 (channels.go:63-295): no run of [main] and its goroutines is
    longer than 107 steps: both receive loops end. *)
Theorem main_run_bounded (sched : list tid) (s : state) :
  steps sched (boot main) = Ok s -> (length sched <= 107)%nat.
Proof.
  intros Hs.
  assert (Hdec : forall s, Explore.reaches next (boot main) s ->
                           decreasing s = true).
  { intros s1 H1. pose proof (verified_reaches _ _ main_verified _ H1) as H.
    apply checks_split in H. tauto. }
  pose proof (steps_measure _ Hdec sched _ _ (Explore.reaches_here _ _) Hs) as H.
  let n := eval vm_compute in (measure (boot main)) in
    change (measure (boot main)) with n in H.
  lia.
Qed.

(** X13 (channels.go:103-116): with one receiver and three senders on
    the unbuffered channel, [wg.Wait()] never returns; every run can be
    carried on until all threads are blocked, none is longer than 19
    steps, and when all are blocked exactly one 42 has been printed and
    two senders are still waiting. *)
Theorem one_receiver_three_senders_deadlock (sched : list tid) (s : state) :
  steps sched (boot deadlock3) = Ok s ->
  todo s <> []
  /\ (length sched <= 19)%nat
  /\ ((forall t : tid, step t s = Blocked) ->
      todo s = [Wait] /\ out s = [Fmt.Sprintln ["42"%string]] /\ wg s = 2)
  /\ exists (more : list tid) (s' : state),
       steps (sched ++ more) (boot deadlock3) = Ok s'
       /\ forall t : tid, step t s' = Blocked.
Proof.
  intros Hs. apply (hangs_run _ _ _ deadlock3_verified _ _ Hs).
Qed.

(** X14 (channels.go:224-237): the for-range loop over a channel that
    is never closed prints both values and then waits for ever:
    [wg.Wait()] never returns, no run is longer than 14 steps, every run
    can be carried on until all threads are blocked, and then the output
    is 42 and 27 and only the receiver has not called [wg.Done()]. *)
Theorem range_without_close_deadlock (sched : list tid) (s : state) :
  steps sched (boot range_unclosed) = Ok s ->
  todo s <> []
  /\ (length sched <= 14)%nat
  /\ ((forall t : tid, step t s = Blocked) ->
      todo s = [Wait]
      /\ out s = [Fmt.Sprintln ["42"%string]; Fmt.Sprintln ["27"%string]]
      /\ wg s = 1)
  /\ exists (more : list tid) (s' : state),
       steps (sched ++ more) (boot range_unclosed) = Ok s'
       /\ forall t : tid, step t s' = Blocked.
Proof.
  intros Hs. apply (hangs_run _ _ _ range_unclosed_verified _ _ Hs).
Qed.

Lemma main_output_witness : out main_end = stdout.
Proof.
  apply (main_output main_schedule main_end main_schedule_run). reflexivity.
Defined.

Lemma main_leaves_witness :
  Forall (fun g => code g = []) (gs main_end) /\ wg main_end = 0
  /\ chans main_end
     = [Mk 0 [] false; Mk 50 [27] false; Mk 50 [] true; Mk 50 [] true].
Proof.
  apply (main_leaves main_schedule main_end main_schedule_run). reflexivity.
Defined.

Lemma main_never_stuck_witness :
  exists (t : tid) (s' : state), step t (boot main) = Ok s'.
Proof.
  apply (main_never_stuck [] (boot main)); [reflexivity|discriminate].
Defined.

Lemma one_receiver_three_senders_deadlock_witness :
  todo deadlock3_end = [Wait]
  /\ out deadlock3_end = [Fmt.Sprintln ["42"%string]] /\ wg deadlock3_end = 2.
Proof.
  apply (one_receiver_three_senders_deadlock
           deadlock3_schedule deadlock3_end deadlock3_schedule_run).
  apply stuck_blocked; reflexivity.
Defined.

Lemma range_without_close_deadlock_witness :
  todo range_unclosed_end = [Wait]
  /\ out range_unclosed_end
     = [Fmt.Sprintln ["42"%string]; Fmt.Sprintln ["27"%string]]
  /\ wg range_unclosed_end = 1.
Proof.
  apply (range_without_close_deadlock
           range_unclosed_schedule range_unclosed_end
           range_unclosed_schedule_run).
  apply stuck_blocked; reflexivity.
Defined.

Lemma main_run_bounded_witness : (length main_schedule <= 107)%nat.
Proof.
  apply (main_run_bounded main_schedule main_end main_schedule_run).
Defined.

End Main.

(* ===================================================================== *)
(** ** goroutines.go, the mutex batch (lines 112-120, 178-188)            *)
(* ===================================================================== *)

Module Mutex.

Import Goroutines.

Local Open Scope string_scope.

Definition is_print (x : instr) : bool :=
  match x with PrintCounter _ => true | _ => false end.

(** Line 179 with [counter] at [k]. *)
Definition hi_mutex (k : nat) : string :=
  Fmt.Sprintf ("(%v) Hi, mutex" ++ Fmt.nl) [Fmt.itoa (Z.of_nat k)].

(** The [sayHiMutex] goroutines started since the reset of [counter]. *)
Definition started (p : pc) (i : nat) : Z :=
  match p with
  | L112 => 0
  | L117 | L118 => Z.of_nat i + 1
  | _ => Z.of_nat i
  end.

(** ... and those of them that have printed. *)
Definition printed (s : state) : nat :=
  Z.to_nat (started (at_ s) (i s) - total (ahead is_print) (tasks s)).

(** The write lock excludes the read locks, and at most one read lock is
    held by a goroutine: [main] takes the write lock between two read
    locks. *)
Record excl_inv (s : state) : Prop := ExclInv {
  e_lock : lock_inv s;
  e_excl : writer s = true -> readers s = 0%nat;
  e_one :
    total (ahead is_runlock) (tasks s)
    <= match at_ s with L117 => 1 | _ => 0 end
}.

(** From line 112 on the output is what it was there, then the lines of
    the [sayHiMutex] goroutines in the order of their start. *)
Definition printed_inv (base : list string) (s : state) : Prop :=
  phase3 (at_ s) = true
  /\ out s = (base ++ map hi_mutex (seq 0 (printed s)))%list.

(** The goroutine has read [counter] and has the call of [fmt.Printf]
    next. *)
Definition at_print (t : task) : bool :=
  match code t with
  | PrintCounter _ :: _ => true
  | _ => false
  end.

(** From the reset on, a [sayHiMutex] that has read [counter] and not yet
    printed holds the value [counter] still has: no [incrementMutex] writes
    while the read lock is held. *)
Definition read_inv (s : state) : Prop :=
  counting (at_ s) = true ->
  Forall (fun t => at_print t = true -> tmp t = counter s) (tasks s).

(** Two rounds of each loop: the mutex batch up to the point where the
    first [incrementMutex] (goroutine 6) is started and has not run. *)
Definition in_write : state :=
  Eval vm_compute in
    match steps 2 2 (batch1 ++ batch2_racy ++ take 13 batch3) init with
    | Ok s => s
    | _ => init
    end.

Local Close Scope string_scope.

Lemma init_excl_inv : excl_inv init.
Proof.
  constructor; [exact (inv_lock 0 init (init_inv 0))|discriminate|].
  cbn. reflexivity.
Qed.

Lemma main_step_excl_inv (n1 n2 : nat) (s s' : state) :
  excl_inv s -> main_step n1 n2 s = Ok s' -> excl_inv s'.
Proof.
  intros [Hl Hex Hone] Hstep.
  pose proof (main_step_lock_inv n1 n2 s s' Hl Hstep) as Hl'.
  destruct Hl as [_ Hwr Hrd].
  destruct s as [p i c w r wr ts o].
  fields in Hwr. fields in Hrd. fields in Hex. fields in Hone.
  main_cases Hstep.
  all: constructor; [exact Hl'|..]; fields; rewrite ?total_spawn; cbn;
    cbn in Hwr, Hrd, Hone; try lia; try assumption; try discriminate.
Qed.

Lemma task_step_excl_inv (k : nat) (s s' : state) :
  excl_inv s -> task_step k s = Ok s' -> excl_inv s'.
Proof.
  intros [Hl Hex Hone] Hstep.
  pose proof (task_step_lock_inv k s s' Hl Hstep) as Hl'.
  destruct Hl as [[_ _ Hcodes] Hwr Hrd].
  destruct s as [p i c w r wr ts o].
  fields in Hcodes. fields in Hwr. fields in Hrd. fields in Hex. fields in Hone.
  unfold task_step in Hstep. fields in Hstep.
  destruct (ts !! k) as [[cd m]|] eqn:Hk; [|discriminate].
  cbn [code tmp] in Hstep. destruct cd as [|x rest]; [discriminate|].
  pose proof (Forall_lookup_1 _ _ _ _ Hcodes Hk) as Hin. cbn [code] in Hin.
  destruct (codes_once x rest Hin) as (_ & _ & Hr & _).
  pose proof (fun m' => step_total is_runlock ts k x rest m m' Hk Hr) as Tr.
  task_cases Hstep x; cbn [is_runlock] in *.
  all: constructor; [exact Hl'|..]; fields; rewrite ?Tr; try lia;
    try assumption; try discriminate.
  intros Hw. specialize (Hex Hw). lia.
Qed.

Lemma step_excl_inv (n1 n2 : nat) (t : tid) (s s' : state) :
  excl_inv s -> step n1 n2 t s = Ok s' -> excl_inv s'.
Proof.
  intros Hinv Hstep. destruct t as [|k]; simpl in Hstep.
  - eapply main_step_excl_inv; eassumption.
  - eapply task_step_excl_inv; eassumption.
Qed.

Lemma steps_excl_inv (n1 n2 : nat) (sched : list tid) (s s' : state) :
  excl_inv s -> steps n1 n2 sched s = Ok s' -> excl_inv s'.
Proof.
  revert s. induction sched as [|t sched IH]; simpl; intros s Hinv Hrun.
  - injection Hrun as <-. exact Hinv.
  - destruct (step n1 n2 t s) as [s1| |msg] eqn:E; try discriminate.
    eapply IH; [|exact Hrun]. eapply step_excl_inv; eassumption.
Qed.

(** Two goroutines count twice in a sum. *)
Lemma total_two (p : instr -> bool) (ts : list task) (j k : nat) (tj tk : task) :
  j <> k -> ts !! j = Some tj -> ts !! k = Some tk ->
  ahead p tj + ahead p tk <= total (ahead p) ts.
Proof.
  intros Hne Hj Hk.
  pose proof (total_insert (ahead p) ts k tk (Task [] 0) Hk) as Hi.
  assert (Hj' : <[k := Task [] 0]> ts !! j = Some tj)
    by (rewrite list_lookup_insert_ne by congruence; exact Hj).
  pose proof (total_lookup_le p _ j tj Hj') as Hle.
  change (ahead p (Task [] 0)) with 0 in Hi. lia.
Qed.

Lemma codes3_once_print (x : instr) (rest : list instr) :
  In (x :: rest) codes3 -> is_print x = true -> existsb is_print rest = false.
Proof.
  intros H. unfold codes3 in H. simpl in H.
  split_in H; try discriminate; injection H as <- <-; simpl;
    intros; (reflexivity || discriminate).
Qed.

(** In the mutex batch a goroutine that has yet to print has yet to
    release its read lock. *)
Lemma print_le_runlock (ts : list task) :
  Forall (fun t => In (code t) codes3) ts ->
  total (ahead is_print) ts <= total (ahead is_runlock) ts.
Proof.
  intros H. apply total_mono. eapply Forall_impl; [exact H|].
  intros t Ht. unfold ahead. unfold codes3 in Ht. simpl in Ht.
  split_in Ht; rewrite <- Ht; simpl; lia.
Qed.

(** The call of [fmt.Printf] comes only right after the read of its
    argument. *)
Lemma print_after_load (x : instr) (rest : list instr) (m : Z) :
  In (x :: rest) codes -> at_print (Task rest m) = true -> x = Load.
Proof.
  intros H. unfold codes, codes3 in H. simpl in H.
  split_in H; try discriminate; injection H as <- <-; simpl;
    intros; (reflexivity || discriminate).
Qed.

Lemma at_print_ahead (t : task) : at_print t = true -> ahead is_print t = 1.
Proof.
  unfold at_print, ahead. destruct (code t) as [|x rest]; [discriminate|].
  destruct x; try discriminate. reflexivity.
Qed.

Lemma finished_read (c : Z) (ts : list task) :
  Forall finished ts -> Forall (fun t => at_print t = true -> tmp t = c) ts.
Proof.
  intros H. eapply Forall_impl; [exact H|].
  intros t Ht. unfold finished in Ht. unfold at_print. rewrite Ht. discriminate.
Qed.

Lemma main_step_read (n1 n2 : nat) (s s' : state) :
  inv n2 s -> read_inv s -> main_step n1 n2 s = Ok s' -> read_inv s'.
Proof.
  intros [[[Hwg Hidle Hcodes] _ _] _ _ _ _] Hread Hstep.
  destruct s as [p i c w r wr ts o]. unfold read_inv in *.
  fields in Hwg. fields in Hidle. fields in Hcodes. fields in Hread.
  main_cases Hstep; fields; intros Hcnt; try discriminate Hcnt.
  all: try exact (Hread eq_refl).
  all: try (apply Forall_app; split; [exact (Hread eq_refl)|];
            apply Forall_singleton; cbn; discriminate).
  (* line 112: every goroutine of the batch before has returned *)
  specialize (Hidle eq_refl). apply finished_read.
  apply all_finished; [assumption|cbn in Hwg; lia].
Qed.

Lemma task_step_read (n2 : nat) (k : nat) (s s' : state) :
  inv n2 s -> excl_inv s -> read_inv s -> task_step k s = Ok s' -> read_inv s'.
Proof.
  intros [[[_ _ Hcodes] _ _] Hc3 _ _ _] [[_ Hwr Hrd] Hex Hone] Hread Hstep.
  destruct s as [p i c w r wr ts o]. unfold read_inv in *.
  fields in Hcodes. fields in Hc3. fields in Hwr. fields in Hrd. fields in Hex.
  fields in Hone. fields in Hread.
  unfold task_step in Hstep. fields in Hstep.
  destruct (ts !! k) as [[cd m]|] eqn:Hk; [|discriminate].
  cbn [code tmp] in Hstep. destruct cd as [|x rest]; [discriminate|].
  pose proof (Forall_lookup_1 _ _ _ _ Hcodes Hk) as Hin. cbn [code] in Hin.
  pose proof (fun m' => print_after_load x rest m' Hin) as Hload.
  assert (Hph : counting p = true -> phase3 p = true) by (destruct p; auto).
  task_cases Hstep x; fields; intros Hcnt; specialize (Hread Hcnt).
  all: try (apply Forall_insert; [exact Hread|]; intros Hp;
            first [reflexivity | discriminate (Hload _ Hp)]).
  (* counter++, the write: the write lock is held, so no [sayHiMutex] is
     between its read and its print *)
  specialize (Hc3 (Hph Hcnt)).
  pose proof (Forall_lookup_1 _ _ _ _ Hc3 Hk) as Hin3. cbn [code] in Hin3.
  pose proof (total_lookup_le is_unlock ts k _ Hk) as Lu.
  assert (Hu : ahead is_unlock (Task (Store :: rest) m) = 1).
  { unfold ahead. cbn [code]. unfold codes3 in Hin3. simpl in Hin3.
    split_in Hin3; try discriminate; injection Hin3 as <-; reflexivity. }
  rewrite Hu in Lu.
  assert (Hhw : 0 <= holds_write p <= 1) by (destruct p; simpl; lia).
  assert (Hhr : 0 <= holds_read p <= 1) by (destruct p; simpl; lia).
  pose proof (total_nonneg is_runlock ts) as Nr.
  pose proof (total_nonneg is_print ts) as Np.
  pose proof (print_le_runlock ts Hc3) as Lr.
  destruct wr; [|lia]. specialize (Hex eq_refl).
  assert (Hz : total (ahead is_print) ts = 0) by lia.
  apply Forall_insert.
  - eapply Forall_impl; [exact (total_zero is_print ts Hz)|].
    cbn beta. intros t H0 Hp. rewrite (at_print_ahead t Hp) in H0. discriminate.
  - intros Hp. discriminate (Hload _ Hp).
Qed.

Lemma main_step_printed (base : list string) (n1 n2 : nat) (s s' : state) :
  printed_inv base s -> main_step n1 n2 s = Ok s' -> printed_inv base s'.
Proof.
  intros [Hph Hout] Hstep.
  destruct s as [p i c w r wr ts o].
  fields in Hph. unfold printed in Hout. fields in Hout.
  main_cases Hstep; try discriminate.
  all: split; [reflexivity|]; unfold printed; fields; rewrite ?total_spawn;
    cbn; cbn in Hout; rewrite Hout; do 3 f_equal; lia.
Qed.

Lemma task_step_printed (base : list string) (n2 : nat) (k : nat) (s s' : state) :
  inv n2 s -> excl_inv s -> read_inv s -> printed_inv base s ->
  task_step k s = Ok s' ->
  printed_inv base s'.
Proof.
  intros [_ Hc3 Hcnt _ _] [[_ Hwr Hrd] Hex Hone] Hread [Hph Hout] Hstep.
  destruct s as [p i c w r wr ts o]. unfold read_inv in Hread.
  fields in Hc3. fields in Hcnt. fields in Hwr. fields in Hrd. fields in Hex.
  fields in Hone. fields in Hph. unfold printed in Hout. fields in Hout.
  fields in Hread.
  specialize (Hc3 Hph).
  unfold task_step in Hstep. fields in Hstep.
  destruct (ts !! k) as [[cd m]|] eqn:Hk; [|discriminate].
  cbn [code tmp] in Hstep. destruct cd as [|x rest]; [discriminate|].
  pose proof (Forall_lookup_1 _ _ _ _ Hc3 Hk) as Hin. cbn [code] in Hin.
  pose proof (fun m' => step_total is_print ts k x rest m m' Hk
                          (codes3_once_print x rest Hin)) as Tp.
  pose proof (total_lookup_le is_print ts k _ Hk) as Lp.
  rewrite (ahead_cons _ x rest m m) in Lp.
  pose proof (print_le_runlock ts Hc3) as Lr.
  pose proof (store_le_unlock ts Hc3) as Ls.
  pose proof (total_nonneg is_store ts) as Ns.
  task_cases Hstep x; cbn [is_print] in *.
  all: split; [exact Hph|]; unfold printed; fields; rewrite ?Tp.
  all: try (rewrite Z.sub_0_r; exact Hout).
  - (* fmt.Println: no goroutine of the mutex batch *)
    exfalso. unfold codes3 in Hin. simpl in Hin. split_in Hin; discriminate.
  - (* line 179: the read lock is held, so no increment is under way; the
       value read is still that of [counter], the number of lines printed *)
    assert (Hp : p = L117) by (destruct p; trivial; lia). subst p.
    cbn in Hone, Hrd, Hwr, Hout.
    assert (Hwf : wr = false).
    { destruct wr; [|reflexivity]. specialize (Hex eq_refl). lia. }
    subst wr. specialize (Hcnt eq_refl).
    pose proof (Forall_lookup_1 _ _ _ _ (Hread eq_refl) Hk eq_refl) as Hm.
    cbn [tmp] in Hm. subst m.
    assert (Hc : c = Z.of_nat i) by lia. subst c.
    assert (Hf : f = ("(%v) Hi, mutex" ++ Fmt.nl)%string).
    { unfold codes3 in Hin. simpl in Hin. split_in Hin; try discriminate.
      injection Hin as <- _. reflexivity. }
    subst f. cbn [started].
    replace (Z.to_nat (Z.of_nat i + 1 - (total (ahead is_print) ts - 1)))
      with (S i) by lia.
    replace (Z.to_nat (Z.of_nat i + 1 - total (ahead is_print) ts))
      with i in Hout by lia.
    rewrite seq_S, map_app, app_assoc, <- Hout. reflexivity.
Qed.

Lemma steps_printed (base : list string) (n1 n2 : nat) (sched : list tid) :
  Z.of_nat n2 <= max_int ->
  forall s s' : state,
    inv n2 s -> excl_inv s -> read_inv s -> printed_inv base s ->
    steps n1 n2 sched s = Ok s' ->
    inv n2 s' /\ printed_inv base s'.
Proof.
  intros Hmax.
  induction sched as [|t sched IH]; simpl; intros s s' Hi He Hr Hp Hrun.
  - injection Hrun as <-. auto.
  - destruct (step n1 n2 t s) as [s1| |msg] eqn:E; try discriminate.
    apply (IH s1 s'); [| | | |exact Hrun].
    + eapply step_inv; eassumption.
    + eapply step_excl_inv; eassumption.
    + destruct t as [|k]; simpl in E.
      * eapply main_step_read; eassumption.
      * eapply task_step_read; eassumption.
    + destruct t as [|k]; simpl in E.
      * eapply main_step_printed; eassumption.
      * eapply task_step_printed; eassumption.
Qed.

(** *** The mutex as [main] uses it *)

(** X15 (goroutines.go:112-120, 184-188): under every schedule, while an
    [incrementMutex] goroutine has not called [m.Unlock()], no other
    goroutine has an [m.Unlock()] or an [m.RUnlock()] ahead, and no read
    lock is held: its [counter++] runs alone. *)
Theorem write_lock_excludes (n1 n2 : nat) (sched : list tid) (s : state)
        (j k : nat) (tj tk : task) :
  steps n1 n2 sched init = Ok s ->
  j <> k -> tasks s !! j = Some tj -> tasks s !! k = Some tk ->
  ahead is_unlock tj = 1 ->
  ahead is_unlock tk = 0 /\ ahead is_runlock tk = 0
  /\ writer s = true /\ readers s = 0%nat.
Proof.
  intros Hrun Hne Hj Hk Hu.
  destruct (steps_excl_inv n1 n2 sched init s init_excl_inv Hrun)
    as [[_ Hwr Hrd] Hex _].
  pose proof (total_two is_unlock _ j k tj tk Hne Hj Hk) as H2.
  pose proof (total_lookup_le is_runlock _ k tk Hk) as Lr.
  pose proof (ahead_range is_unlock tk) as Ru.
  pose proof (ahead_range is_runlock tk) as Rr.
  assert (Hhw : 0 <= holds_write (at_ s) <= 1) by (destruct (at_ s); simpl; lia).
  assert (Hhr : 0 <= holds_read (at_ s) <= 1) by (destruct (at_ s); simpl; lia).
  pose proof (total_nonneg is_runlock (tasks s)) as Nr.
  destruct (writer s); [|lia]. specialize (Hex eq_refl).
  repeat split; try lia.
Qed.

(** X16 (goroutines.go:112-120, 178-182): from line 112 on, under every
    schedule, the output grows by the lines of [sayHiMutex] in order:
    (0) Hi, mutex, (1) Hi, mutex, and so on; no value is skipped or printed
    twice, and when [main] is past the last [wg.Wait()] all [n2] lines
    are there. *)
Theorem mutex_batch_prints_in_order (n1 n2 : nat) (sched1 sched2 : list tid)
        (s1 s2 : state) :
  Z.of_nat n2 <= max_int ->
  steps n1 n2 sched1 init = Ok s1 -> at_ s1 = L112 ->
  steps n1 n2 sched2 s1 = Ok s2 ->
  exists k : nat,
    (k <= n2)%nat
    /\ out s2 = (out s1 ++ map hi_mutex (seq 0 k))%list
    /\ (at_ s2 = LEnd -> k = n2).
Proof.
  intros Hmax Hrun1 Hat Hrun2.
  pose proof (steps_inv n1 n2 sched1 init s1 Hmax (init_inv n2) Hrun1) as Hi1.
  pose proof (steps_excl_inv n1 n2 sched1 init s1 init_excl_inv Hrun1) as He1.
  assert (Hp1 : printed_inv (out s1) s1).
  { split; [rewrite Hat; reflexivity|]. unfold printed. rewrite Hat. cbn.
    pose proof (total_nonneg is_print (tasks s1)).
    replace (Z.to_nat (0 - total (ahead is_print) (tasks s1))) with 0%nat by lia.
    simpl. rewrite app_nil_r. reflexivity. }
  assert (Hr1 : read_inv s1) by (unfold read_inv; rewrite Hat; discriminate).
  destruct (steps_printed (out s1) n1 n2 sched2 Hmax s1 s2 Hi1 He1 Hr1 Hp1 Hrun2)
    as [Hi2 [Hph Hout]].
  exists (printed s2). split; [|split; [exact Hout|]].
  - destruct Hi2 as [_ _ _ _ Hi]. unfold printed.
    pose proof (total_nonneg is_print (tasks s2)).
    destruct (at_ s2) eqn:Ep; try discriminate; cbn; cbn in Hi;
      try (destruct (Hi eq_refl) as (Hle & Hbody & _));
      try specialize (Hbody eq_refl); lia.
  - intros Hend.
    destruct Hi2 as [[[Hwg Hidle Hcodes] _ _] _ _ _ Hi]. unfold printed.
    rewrite Hend in *. specialize (Hidle eq_refl).
    destruct (Hi eq_refl) as (_ & _ & Hi3). specialize (Hi3 (or_intror eq_refl)).
    assert (Hfin : Forall finished (tasks s2))
      by (apply all_finished; [assumption|cbn in Hwg; lia]).
    rewrite (finished_total _ _ Hfin). cbn. lia.
Qed.

Lemma run_in_write :
  steps 2 2 (batch1 ++ batch2_racy ++ take 13 batch3) init = Ok in_write.
Proof. vm_compute. reflexivity. Qed.

Lemma run_mutex_batch : steps 2 2 (drop 1 batch3) after_wait2 = Ok after_batch3.
Proof. vm_compute. reflexivity. Qed.

Lemma write_lock_excludes_witness :
  ahead is_unlock (Task [Done] 0) = 0 /\ ahead is_runlock (Task [Done] 0) = 0
  /\ writer in_write = true /\ readers in_write = 0%nat.
Proof.
  apply (write_lock_excludes 2 2 _ in_write 6 5 (Task incrementMutex 0)
           (Task [Done] 0) run_in_write);
    [discriminate|reflexivity..].
Defined.

Lemma mutex_batch_prints_in_order_witness :
  exists k : nat,
    (k <= 2)%nat
    /\ out after_batch3 = (out after_wait2 ++ map hi_mutex (seq 0 k))%list
    /\ (at_ after_batch3 = LEnd -> k = 2%nat).
Proof.
  exact (mutex_batch_prints_in_order 2 2 _ _ _ _ two_fits_int
           run_to_wait2 eq_refl run_mutex_batch).
Defined.

End Mutex.

(* ===================================================================== *)
(** ** goroutines.go, the batch without a lock (lines 88-93, 156-164)     *)
(* ===================================================================== *)

Module Race.

Import Goroutines.

(** [main] has not reset [counter] yet (line 112). *)
Definition before_reset (p : pc) : bool := negb (counting p).

Definition in_body2 (p : pc) : bool :=
  match p with
  | L89 | L90 | L91 => true
  | _ => false
  end.

Definition before_loop2 (p : pc) : bool :=
  match p with
  | L76 | L77 | L81 | L82 => true
  | _ => false
  end.

Definition after_loop2 (p : pc) : bool :=
  match p with
  | L93 | L112 => true
  | _ => false
  end.

(** The [increment] goroutines that have written [counter]. *)
Definition stored (s : state) : Z :=
  Z.of_nat (i s) - total (ahead is_store) (tasks s).

(** Until the reset: [counter] is at most the number of writes made, at
    least 1 once there was a write, and so is every value an [increment]
    has read and not yet written back. *)
Record race_inv (n1 : nat) (s : state) : Prop := RaceInv {
  r_wg : wg_inv s;
  r_i :
    before_reset (at_ s) = true ->
    (i s <= n1)%nat
    /\ (in_body2 (at_ s) = true -> (i s < n1)%nat)
    /\ (before_loop2 (at_ s) = true -> i s = 0%nat)
    /\ (after_loop2 (at_ s) = true -> i s = n1);
  r_counter :
    before_reset (at_ s) = true ->
    0 <= counter s <= stored s /\ (1 <= stored s -> 1 <= counter s);
  r_tmp :
    before_reset (at_ s) = true ->
    Forall (fun t => head (code t) = Some Store -> 0 <= tmp t <= stored s)
           (tasks s)
}.

Local Open Scope string_scope.

Definition is_println (x : instr) : bool :=
  match x with Println _ => true | _ => false end.

Definition is_printf (x : instr) : bool :=
  match x with PrintCounter _ => true | _ => false end.

(** Line 78. *)
Definition hello : string := Fmt.Sprintln ["Hello"].

(** Line 157 with [counter] at [v]. *)
Definition hi_world (v : Z) : string :=
  Fmt.Sprintf ("(%v) Hi, world" ++ Fmt.nl) [Fmt.itoa v].

Local Close Scope string_scope.

(** What a goroutine started before the reset can have left. *)
Definition codes2 : list (list instr) :=
  tails anon ++ tails sayHi ++ tails increment.

(** The [sayHi] goroutines started. *)
Definition said (p : pc) (i : nat) : Z :=
  Z.of_nat i + match p with L91 => 1 | _ => 0 end.

(** 1 when the goroutine of lines 77-80 is started. *)
Definition greeted (p : pc) : Z :=
  match p with L76 | L77 => 0 | _ => 1 end.

(** The goroutine has read [counter] and has the call of [fmt.Printf]
    next. *)
Definition has_read (t : task) : bool :=
  match code t with
  | PrintCounter _ :: _ => true
  | _ => false
  end.

(** Until the reset the output is the line of the first goroutine, then
    one line for each [sayHi] that has printed, each with a value
    [counter] has had; a [sayHi] that has read [counter] and not printed
    yet holds such a value. *)
Record out_inv (n1 : nat) (s : state) : Prop := OutInv {
  o_race : race_inv n1 s;
  o_codes :
    before_reset (at_ s) = true ->
    Forall (fun t => In (code t) codes2) (tasks s);
  o_hello :
    total (ahead is_println) (tasks s)
    <= match at_ s with L81 => 1 | _ => 0 end;
  o_read :
    before_reset (at_ s) = true ->
    Forall (fun t => has_read t = true -> 0 <= tmp t <= Z.of_nat n1) (tasks s);
  o_out :
    before_reset (at_ s) = true ->
    exists vs : list Z,
      out s
      = repeat hello
          (Z.to_nat (greeted (at_ s) - total (ahead is_println) (tasks s)))
        ++ map hi_world vs
      /\ Forall (fun v => 0 <= v <= Z.of_nat n1) vs
      /\ Z.of_nat (length vs)
         = said (at_ s) (i s) - total (ahead is_printf) (tasks s)
}.

(** Two rounds of the loop in which the first [sayHi] (goroutine 1) reads
    [counter] after both increments and prints at once, and the second
    (goroutine 3) has read it between the two increments and prints
    last. *)
Definition batch2_late_print : list tid :=
  [Main; Main; Main; Main; Main; Main; Main; Main; Main;
   Go 2; Go 2; Go 3; Go 4; Go 4; Go 1; Go 1; Go 3;
   Go 1; Go 2; Go 3; Go 4; Main].

Definition after_late_print : state :=
  Eval vm_compute in
    match steps 2 2 (batch1 ++ batch2_late_print) init with
    | Ok s => s
    | _ => init
    end.

Arguments codes2 : simpl never.
Arguments hello : simpl never.
Arguments hi_world : simpl never.

Lemma init_race_inv (n1 : nat) : race_inv n1 init.
Proof.
  constructor.
  - exact (l_wg init (inv_lock 0 init (init_inv 0))).
  - intros _. cbn. repeat split; intros; try discriminate; lia.
  - intros _. unfold stored, total. cbn. lia.
  - intros _. constructor.
Qed.

Lemma main_step_race_inv (n1 n2 : nat) (s s' : state) :
  race_inv n1 s -> main_step n1 n2 s = Ok s' -> race_inv n1 s'.
Proof.
  intros [Hw Hi Hc Ht] Hstep.
  pose proof (main_step_wg_inv n1 n2 s s' Hw Hstep) as Hw'. clear Hw.
  destruct s as [p i c w r wr ts o]. unfold stored in *.
  fields in Hi. fields in Hc. fields in Ht.
  main_cases Hstep.
  all: constructor; [exact Hw'|..]; unfold stored; fields; intros Hb;
    try discriminate Hb.
  all: try specialize (Hi eq_refl); try specialize (Hc eq_refl);
    try specialize (Ht eq_refl).
  all: try (destruct Hi as (Hi1 & Hi2 & Hi3 & Hi4); cbn in Hi2, Hi3, Hi4).
  all: try specialize (Hi2 eq_refl); try specialize (Hi3 eq_refl);
    try specialize (Hi4 eq_refl).
  all: rewrite ?total_spawn; cbn.
  all: try (repeat split; intros; try discriminate; lia).
  all: try assumption.
  all: try (apply Forall_app; split;
            [|apply Forall_singleton; cbn; discriminate]).
  all: eapply Forall_impl; [exact Ht|]; cbn beta; intros t Hq Hh;
    specialize (Hq Hh); lia.
Qed.

Lemma task_step_race_inv (n1 : nat) (k : nat) (s s' : state) :
  Z.of_nat n1 <= max_int ->
  race_inv n1 s -> task_step k s = Ok s' -> race_inv n1 s'.
Proof.
  intros Hmax [Hw Hi Hc Ht] Hstep.
  pose proof (task_step_wg_inv k s s' Hw Hstep) as Hw'.
  destruct Hw as [_ _ Hcodes].
  destruct s as [p i c w r wr ts o]. unfold stored in *.
  fields in Hcodes. fields in Hi. fields in Hc. fields in Ht.
  unfold task_step in Hstep. fields in Hstep.
  destruct (ts !! k) as [[cd m]|] eqn:Hk; [|discriminate].
  cbn [code tmp] in Hstep. destruct cd as [|x rest]; [discriminate|].
  pose proof (Forall_lookup_1 _ _ _ _ Hcodes Hk) as Hin. cbn [code] in Hin.
  destruct (codes_once x rest Hin) as (_ & _ & _ & Hs).
  pose proof (fun m' => step_total is_store ts k x rest m m' Hk Hs) as Ts.
  pose proof (total_lookup_le is_store ts k _ Hk) as Ls.
  rewrite (ahead_cons _ x rest m m) in Ls.
  pose proof (ahead_range is_store (Task rest m)) as Rs.
  task_cases Hstep x; cbn [is_store] in *.
  all: constructor; [exact Hw'|..]; unfold stored; fields; rewrite ?Ts;
    intros Hb; specialize (Hi Hb); specialize (Hc Hb); specialize (Ht Hb).
  all: try assumption.
  all: try (rewrite Z.sub_0_r; assumption).
  all: try (rewrite Z.sub_0_r; apply Forall_insert; [exact Ht|];
            cbn [code tmp]; intros Hh;
            first [ lia
                  | pose proof (store_after_load _ _ Hin Hh); discriminate ]).
  - (* Store, counter *)
    pose proof (Forall_lookup_1 _ _ _ _ Ht Hk eq_refl) as Hm. cbn [tmp] in Hm.
    rewrite wrap_small; [lia|]. unfold max_int in *. lia.
  - (* Store, the values read by the others *)
    apply Forall_insert.
    + eapply Forall_impl; [exact Ht|]. cbn beta. intros t Hq Hh.
      specialize (Hq Hh). lia.
    + cbn [code tmp]. intros Hh.
      pose proof (store_after_load _ _ Hin Hh). discriminate.
Qed.

Lemma steps_race_inv (n1 n2 : nat) (sched : list tid) (s s' : state) :
  Z.of_nat n1 <= max_int ->
  race_inv n1 s -> steps n1 n2 sched s = Ok s' -> race_inv n1 s'.
Proof.
  intros Hmax. revert s.
  induction sched as [|t sched IH]; simpl; intros s Hinv Hrun.
  - injection Hrun as <-. exact Hinv.
  - destruct (step n1 n2 t s) as [s1| |msg] eqn:E; try discriminate.
    eapply IH; [|exact Hrun]. destruct t as [|k]; simpl in E.
    + eapply main_step_race_inv; eassumption.
    + eapply task_step_race_inv; eassumption.
Qed.

(** *** What the race can do to [counter] *)

(** X17 (goroutines.go:88-93, 161-164): without the lock updates of
    [counter] can be lost but not invented: when [main] is past the
    [wg.Wait()] of line 93, under every schedule, [counter] is at most the
    number [n1] of [increment] goroutines, and at least 1 if there was
    one. *)
Theorem racy_counter_bounds (n1 n2 : nat) (sched : list tid) (s : state) :
  Z.of_nat n1 <= max_int ->
  steps n1 n2 sched init = Ok s -> at_ s = L112 ->
  Z.min 1 (Z.of_nat n1) <= counter s <= Z.of_nat n1.
Proof.
  intros Hmax Hrun Hat.
  destruct (steps_race_inv n1 n2 sched init s Hmax (init_race_inv n1) Hrun)
    as [[Hwg Hidle Hcodes] Hi Hc _].
  unfold stored in Hc. rewrite Hat in *.
  specialize (Hidle eq_refl).
  destruct (Hi eq_refl) as (_ & _ & _ & Hi4). specialize (Hi4 eq_refl).
  assert (Hfin : Forall finished (tasks s))
    by (apply all_finished; [assumption|cbn in Hwg; lia]).
  rewrite (finished_total _ _ Hfin) in Hc. specialize (Hc eq_refl). lia.
Qed.

Lemma racy_counter_bounds_witness :
  Z.min 1 (Z.of_nat 2) <= counter after_wait2 <= Z.of_nat 2.
Proof.
  exact (racy_counter_bounds 2 2 _ _ two_fits_int run_to_wait2 eq_refl).
Defined.

(** *** What the batch prints *)

Lemma codes2_tail (x : instr) (rest : list instr) :
  In (x :: rest) codes2 -> In rest codes2.
Proof.
  intros H. unfold codes2 in *. simpl in H.
  split_in H; try discriminate; injection H as <- <-; pick_in.
Qed.

Lemma codes_once_print (x : instr) (rest : list instr) :
  In (x :: rest) codes ->
  (is_println x = true -> existsb is_println rest = false)
  /\ (is_printf x = true -> existsb is_printf rest = false).
Proof.
  intros H. unfold codes, codes3 in H. simpl in H.
  split_in H; try discriminate; injection H as <- <-; simpl;
    split; intros; (reflexivity || discriminate).
Qed.

Lemma codes2_formats (x : instr) (rest : list instr) :
  In (x :: rest) codes2 ->
  match x with
  | Println msg => msg = "Hello"%string
  | PrintCounter f => f = ("(%v) Hi, world" ++ Fmt.nl)%string
  | _ => True
  end.
Proof.
  intros H. unfold codes2 in H. simpl in H.
  split_in H; try discriminate; injection H as <- <-; exact I || reflexivity.
Qed.

(** The call of [fmt.Printf] comes only right after the read of its
    argument. *)
Lemma printf_after_load (x : instr) (rest : list instr) (m : Z) :
  In (x :: rest) codes -> has_read (Task rest m) = true -> x = Load.
Proof.
  intros H. unfold codes, codes3 in H. simpl in H.
  split_in H; try discriminate; injection H as <- <-; simpl;
    intros; (reflexivity || discriminate).
Qed.

Lemma init_out_inv (n1 : nat) : out_inv n1 init.
Proof.
  constructor.
  - apply init_race_inv.
  - intros _. constructor.
  - unfold total. cbn. lia.
  - intros _. constructor.
  - intros _. exists []. unfold total. cbn.
    split; [reflexivity|]. split; [constructor|reflexivity].
Qed.

Lemma main_step_out_inv (n1 n2 : nat) (s s' : state) :
  out_inv n1 s -> main_step n1 n2 s = Ok s' -> out_inv n1 s'.
Proof.
  intros [Hr Hcd Hh Hrd Ho] Hstep.
  pose proof (main_step_race_inv n1 n2 s s' Hr Hstep) as Hr'.
  destruct Hr as [[Hwg Hidle Hcodes] Hi _ _].
  destruct s as [p i c w r wr ts o].
  fields in Hwg. fields in Hidle. fields in Hcodes. fields in Hi.
  fields in Hcd. fields in Hh. fields in Hrd. fields in Ho.
  main_cases Hstep.
  all: constructor; [exact Hr'|..]; fields; rewrite ?total_spawn; cbn.
  all: try (intros Hb; discriminate Hb).
  all: try (assert (Hfin : Forall finished ts)
             by (apply all_finished; [assumption|cbn in Hwg; lia])).
  all: try (rewrite (finished_total _ _ Hfin); lia).
  all: try lia.
  all: intros _.
  all: try exact (Hcd eq_refl).
  all: try exact (Hrd eq_refl).
  all: try (apply Forall_app; split; [exact (Hcd eq_refl)|];
            apply Forall_singleton; cbn; unfold codes2; pick_in).
  all: try (apply Forall_app; split; [exact (Hrd eq_refl)|];
            apply Forall_singleton; cbn; discriminate).
  all: destruct (Ho eq_refl) as (vs & Hout & Hall & Hlen); exists vs;
    cbn in Hout, Hlen;
    (split; [rewrite Hout; do 2 f_equal; lia|]); (split; [exact Hall|]).
  all: unfold said in Hlen |- *; try lia.
  destruct (Hi eq_refl) as (_ & _ & Hi3 & _). specialize (Hi3 eq_refl). lia.
Qed.

Lemma task_step_out_inv (n1 : nat) (k : nat) (s s' : state) :
  Z.of_nat n1 <= max_int ->
  out_inv n1 s -> task_step k s = Ok s' -> out_inv n1 s'.
Proof.
  intros Hmax [Hr Hcd Hh Hrd Ho] Hstep.
  pose proof (task_step_race_inv n1 k s s' Hmax Hr Hstep) as Hr'.
  destruct Hr as [[_ _ Hcodes] Hi Hc _].
  destruct s as [p i c w r wr ts o]. unfold stored in Hc.
  fields in Hcodes. fields in Hi. fields in Hc.
  fields in Hcd. fields in Hh. fields in Hrd. fields in Ho.
  unfold task_step in Hstep. fields in Hstep.
  destruct (ts !! k) as [[cd m]|] eqn:Hk; [|discriminate].
  cbn [code tmp] in Hstep. destruct cd as [|x rest]; [discriminate|].
  pose proof (Forall_lookup_1 _ _ _ _ Hcodes Hk) as Hin. cbn [code] in Hin.
  destruct (codes_once_print x rest Hin) as (Hol & Hof).
  pose proof (fun m' => step_total is_println ts k x rest m m' Hk Hol) as Tl.
  pose proof (fun m' => step_total is_printf ts k x rest m m' Hk Hof) as Tf.
  pose proof (total_lookup_le is_println ts k _ Hk) as Ll.
  rewrite (ahead_cons _ x rest m m) in Ll.
  pose proof (total_nonneg is_store ts) as Ns.
  pose proof (total_nonneg is_printf ts) as Nf.
  assert (Hin2 : before_reset p = true -> In (x :: rest) codes2).
  { intros Hb. exact (Forall_lookup_1 _ _ _ _ (Hcd Hb) Hk). }
  task_cases Hstep x; cbn [is_println is_printf] in *.
  all: constructor; [exact Hr'|..]; fields; rewrite ?Tl, ?Tf.
  all: try lia.
  all: intros Hb; specialize (Hin2 Hb).
  all: try (apply Forall_insert; [exact (Hcd Hb)|];
            cbn [code]; apply (codes2_tail _ _ Hin2)).
  all: try (apply Forall_insert; [exact (Hrd Hb)|]; intros Hp;
            first [ discriminate (printf_after_load _ _ _ Hin Hp)
                  | cbn [tmp]; destruct (Hi Hb) as (Hi1 & _);
                    destruct (Hc Hb) as (Hc1 & _); lia ]).
  all: destruct (Ho Hb) as (vs & Hout & Hall & Hlen).
  all: try solve [exists vs; rewrite !Z.sub_0_r; auto].
  - (* line 78: nothing else has been printed *)
    pose proof (codes2_formats _ _ Hin2) as Hmsg. cbn beta iota in Hmsg.
    subst msg.
    assert (Hp : p = L81) by (destruct p; trivial; lia). subst p.
    destruct (Hi eq_refl) as (_ & _ & Hi3 & _). specialize (Hi3 eq_refl).
    subst i. unfold said in Hlen. cbn in Hlen, Hout |- *.
    destruct vs as [|v vs]; [|cbn in Hlen; lia].
    exists []. split; [|split; [exact Hall|unfold said; cbn in Hlen |- *; lia]].
    replace (Z.to_nat (1 - total (ahead is_println) ts)) with 0%nat in Hout by lia.
    replace (Z.to_nat (1 - (total (ahead is_println) ts - 1))) with 1%nat by lia.
    rewrite Hout. reflexivity.
  - (* line 157: the value printed is one [counter] has had *)
    pose proof (codes2_formats _ _ Hin2) as Hf. cbn beta iota in Hf. subst f.
    exists (vs ++ [m]). split; [|split].
    + rewrite Z.sub_0_r, Hout, map_app, app_assoc. reflexivity.
    + apply Forall_app. split; [exact Hall|]. apply Forall_singleton.
      exact (Forall_lookup_1 _ _ _ _ (Hrd Hb) Hk eq_refl).
    + rewrite length_app. cbn [length]. unfold said in Hlen |- *. lia.
Qed.

Lemma steps_out_inv (n1 n2 : nat) (sched : list tid) (s s' : state) :
  Z.of_nat n1 <= max_int ->
  out_inv n1 s -> steps n1 n2 sched s = Ok s' -> out_inv n1 s'.
Proof.
  intros Hmax. revert s.
  induction sched as [|t sched IH]; simpl; intros s Hinv Hrun.
  - injection Hrun as <-. exact Hinv.
  - destruct (step n1 n2 t s) as [s1| |msg] eqn:E; try discriminate.
    eapply IH; [|exact Hrun]. destruct t as [|k]; simpl in E.
    + eapply main_step_out_inv; eassumption.
    + eapply task_step_out_inv; eassumption.
Qed.

(** X18 (goroutines.go:75-93, 156-159): when [main] is past the
    [wg.Wait()] of line 93, under every schedule, the goroutines have
    printed Hello, then one line (v) Hi, world for each of the [n1]
    [sayHi] goroutines, with a value between 0 and [n1] each: which
    values, and in which order, is up to the scheduler, since each [sayHi]
    reads [counter] in one step and prints in another. *)
Theorem racy_batch_output (n1 n2 : nat) (sched : list tid) (s : state) :
  Z.of_nat n1 <= max_int ->
  steps n1 n2 sched init = Ok s -> at_ s = L112 ->
  exists vs : list Z,
    out s = hello :: map hi_world vs
    /\ length vs = n1
    /\ Forall (fun v => 0 <= v <= Z.of_nat n1) vs.
Proof.
  intros Hmax Hrun Hat.
  destruct (steps_out_inv n1 n2 sched init s Hmax (init_out_inv n1) Hrun)
    as [[[Hwg Hidle Hcodes] Hi _ _] _ _ _ Ho].
  rewrite Hat in *. specialize (Hidle eq_refl).
  destruct (Hi eq_refl) as (_ & _ & _ & Hi4). specialize (Hi4 eq_refl).
  assert (Hfin : Forall finished (tasks s))
    by (apply all_finished; [assumption|cbn in Hwg; lia]).
  destruct (Ho eq_refl) as (vs & Hout & Hall & Hlen).
  rewrite !(finished_total _ _ Hfin) in *. unfold said in Hlen. cbn in Hout.
  exists vs. split; [exact Hout|]. split; [lia|exact Hall].
Qed.

Lemma run_late_print :
  steps 2 2 (batch1 ++ batch2_late_print) init = Ok after_late_print.
Proof. vm_compute. reflexivity. Qed.

(** The values need not come in the order they were read: (2) before (1). *)
Lemma late_print_output :
  at_ after_late_print = L112
  /\ out after_late_print = [hello; hi_world 2; hi_world 1].
Proof. split; reflexivity. Qed.

Lemma racy_batch_output_witness :
  exists vs : list Z,
    out after_late_print = hello :: map hi_world vs
    /\ length vs = 2%nat
    /\ Forall (fun v => 0 <= v <= Z.of_nat 2) vs.
Proof.
  exact (racy_batch_output 2 2 _ _ two_fits_int run_late_print eq_refl).
Defined.

End Race.

(* ===================================================================== *)
(** ** channels.go, the order of the log (lines 32-49, 319-333)           *)
(* ===================================================================== *)

Module LogOrder.

Import Chan Logger.

Local Open Scope string_scope.

(** The entries a sequence of actions sends into [logCh], in order. *)
Fixpoint sent_entries (acts : list action) : list logEntry :=
  match acts with
  | [] => []
  | SendLog e :: rest => e :: sent_entries rest
  | _ :: rest => sent_entries rest
  end.

(** The lines printed, then the lines of the entries waiting in [logCh]. *)
Definition lines (s : sys) : list string :=
  (out s ++ map logLine (buf (logCh s)))%list.

(** The entries [main] has sent when it is at [p]. *)
Definition main_sent (now1 now2 : Fmt.time) (p : mpc) : list logEntry :=
  match p with
  | M319 | M320 => []
  | M325 => [Entry now1 logInfo "Starting application"]
  | M330 | M333 | MEnd =>
      [Entry now1 logInfo "Starting application";
       Entry now2 logInfo "Finishing application"]
  end.

Local Close Scope string_scope.

Lemma step_lines (a : action) (s s' : sys) :
  closed (logCh s) = false -> step a s = Some s' ->
  closed (logCh s') = false
  /\ lines s' = lines s ++ map logLine (sent_entries [a]).
Proof.
  intros Hcl Hstep. destruct s as [lc dc l o]. unfold lines. simpl in *.
  destruct a as [|e| | |]; simpl in Hstep.
  - destruct l; try discriminate. injection Hstep as <-. simpl.
    rewrite app_nil_r. auto.
  - unfold chansend, handoff in Hstep. rewrite Hcl in Hstep.
    destruct (length (buf lc) <? cap lc)%nat.
    + injection Hstep as <-. simpl. rewrite map_app, app_assoc. auto.
    + destruct l; try discriminate.
      destruct (buf lc) as [|x q] eqn:Eb; [|discriminate].
      injection Hstep as <-. simpl. rewrite Eb. simpl.
      rewrite !app_nil_r. auto.
  - destruct (chansend dc tt).
    + injection Hstep as <-. simpl. rewrite app_nil_r. auto.
    + destruct l; try discriminate. destruct (handoff dc tt); [|discriminate].
      injection Hstep as <-. simpl. rewrite app_nil_r. auto.
    + discriminate.
  - destruct l; try discriminate. unfold chanrecv in Hstep.
    destruct (buf lc) as [|x q] eqn:Eb.
    + rewrite Hcl in Hstep. discriminate.
    + injection Hstep as <-. simpl. rewrite app_nil_r, <- app_assoc. auto.
  - destruct l; try discriminate.
    destruct (chanrecv tt dc); [|discriminate].
    injection Hstep as <-. simpl. rewrite app_nil_r. auto.
Qed.

Lemma sent_entries_cons (a : action) (acts : list action) :
  sent_entries (a :: acts) = sent_entries [a] ++ sent_entries acts.
Proof. destruct a; reflexivity. Qed.

Lemma run_lines (acts : list action) :
  forall s s' : sys,
    closed (logCh s) = false -> run acts s = Some s' ->
    closed (logCh s') = false
    /\ lines s' = lines s ++ map logLine (sent_entries acts).
Proof.
  induction acts as [|a acts IH]; intros s s' Hcl Hrun; simpl in Hrun.
  - injection Hrun as <-. simpl. rewrite app_nil_r. auto.
  - destruct (step a s) as [s1|] eqn:E; [|discriminate].
    destruct (step_lines a s s1 Hcl E) as [Hcl1 H1].
    destruct (IH s1 s' Hcl1 Hrun) as [Hcl' H2].
    split; [exact Hcl'|].
    rewrite (sent_entries_cons a acts), map_app, app_assoc, <- H1. exact H2.
Qed.

Lemma mstep_lines (now1 now2 : Fmt.time) (t : tid) (st st' : state) :
  closed (logCh (world st)) = false ->
  lines (world st) = map logLine (main_sent now1 now2 (pc st)) ->
  mstep now1 now2 t st = Some st' ->
  closed (logCh (world st')) = false
  /\ lines (world st') = map logLine (main_sent now1 now2 (pc st')).
Proof.
  intros Hcl Hl Hstep. destruct st as [w p].
  cbn [world pc] in Hcl, Hl. unfold mstep in Hstep. cbn [world pc] in Hstep.
  assert (Hgo : forall (a : action) (q : mpc),
             option_map (fun w => State w q) (step a w) = Some st' ->
             map logLine (main_sent now1 now2 p) ++ map logLine (sent_entries [a])
             = map logLine (main_sent now1 now2 q) ->
             closed (logCh (world st')) = false
             /\ lines (world st') = map logLine (main_sent now1 now2 (pc st'))).
  { intros a q Ha Hq. destruct (step a w) as [w'|] eqn:E; [|discriminate].
    injection Ha as <-. cbn [world pc].
    destruct (step_lines _ _ _ Hcl E) as [Hcl' H1].
    split; [exact Hcl'|]. rewrite H1, Hl. exact Hq. }
  destruct t; [destruct p|..]; try (apply (Hgo _ _ Hstep); reflexivity).
  - injection Hstep as <-. cbn [world pc]. auto.
  - discriminate.
  - apply (Hgo _ _ Hstep). cbn [sent_entries map]. apply app_nil_r.
  - apply (Hgo _ _ Hstep). cbn [sent_entries map]. apply app_nil_r.
Qed.

Lemma exec_lines (now1 now2 : Fmt.time) (sched : list tid) :
  forall st st' : state,
    closed (logCh (world st)) = false ->
    lines (world st) = map logLine (main_sent now1 now2 (pc st)) ->
    exec now1 now2 sched st = Some st' ->
    closed (logCh (world st')) = false
    /\ lines (world st') = map logLine (main_sent now1 now2 (pc st')).
Proof.
  induction sched as [|t sched IH]; simpl; intros st st' Hcl Hl Hr.
  - injection Hr as <-. auto.
  - destruct (mstep now1 now2 t st) as [st1|] eqn:E; [|discriminate].
    destruct (mstep_lines now1 now2 t st st1 Hcl Hl E) as [Hcl1 Hl1].
    exact (IH st1 st' Hcl1 Hl1 Hr).
Qed.

(** *** Nothing is printed twice or out of order *)

(** X19 (channels.go:32-49): whatever is done with the two channels,
    in whatever order, what the logger has printed followed by the lines of
    the entries still waiting in [logCh] is the lines of the entries sent,
    in the order they were sent: the logger prints in order, prints no
    entry twice and invents none. *)
Theorem logger_prints_in_order (dcap : nat) (acts : list action) (s : sys) :
  run acts (globals dcap) = Some s ->
  (out s ++ map logLine (buf (logCh s)))%list
  = map logLine (sent_entries acts).
Proof.
  intros Hrun.
  destruct (run_lines acts (globals dcap) s eq_refl Hrun) as [_ H].
  exact H.
Qed.

(** X20 (channels.go:319-333): under every schedule of [main] and the
    logger, what is printed is a beginning of the two lines for Starting
    application and Finishing application, in this order, and the rest is
    still in [logCh]: whatever the two calls of [time.Now()] return. *)
Theorem main_log_is_prefix (now1 now2 : Fmt.time) (dcap : nat)
        (sched : list tid) (st : state) :
  exec now1 now2 sched (boot dcap) = Some st ->
  (out (world st) ++ map logLine (buf (logCh (world st))))%list
  = map logLine (main_sent now1 now2 (pc st)).
Proof.
  intros Hrun.
  destruct (exec_lines now1 now2 sched (boot dcap) st eq_refl eq_refl Hrun)
    as [_ H].
  exact H.
Qed.

Lemma logger_prints_in_order_witness :
  exists s : sys,
    run [GoLogger; SendLog zeroEntry; SendLog (Entry noon logInfo "b");
         SelectLog] (globals 0) = Some s
    /\ (out s ++ map logLine (buf (logCh s)))%list
       = [logLine zeroEntry; logLine (Entry noon logInfo "b")].
Proof.
  eexists. split; [reflexivity|].
  exact (logger_prints_in_order 0
           [GoLogger; SendLog zeroEntry; SendLog (Entry noon logInfo "b");
            SelectLog] _ eq_refl).
Defined.

Lemma main_log_is_prefix_witness :
  exists st : state,
    exec noon noon [Main; Main; LoggerLog; Main] (boot 0) = Some st
    /\ (out (world st) ++ map logLine (buf (logCh (world st))))%list
       = map logLine (main_sent noon noon M330).
Proof.
  eexists. split; [reflexivity|].
  exact (main_log_is_prefix noon noon 0 [Main; Main; LoggerLog; Main] _ eq_refl).
Defined.

End LogOrder.

(* ===================================================================== *)
(** ** goroutines.go, the argument of a goroutine (lines 54-59)            *)
(* ===================================================================== *)

(** Example 3: [main] starts a goroutine with the value of [msg2] as its
    argument and assigns [msg2] right after.  The goroutine prints its own
    parameter, which no other goroutine touches.  [time.Sleep] orders
    nothing: the goroutine may print at any moment after its start, or not
    before [main] goes on. *)
Module Argument.

Local Open Scope string_scope.

(** Where [main] is: before the [go] statement, before the assignment,
    before [time.Sleep], past it. *)
Inductive pc := AtGo | AtAssign | AtSleep | Past.

(** The goroutine: not started, started with its parameter [msg], returned. *)
Inductive gor := NotStarted | Started (msg : string) | Returned.

Record state := State {
  at_ : pc;
  msg2 : string;          (* the variable of [main] *)
  g : gor;
  out : list string
}.

Inductive tid := Main | Go.

(** Line 54. *)
Definition init : state := State AtGo "Hello" NotStarted [].

(** One statement of [main]: the [go] statement evaluates its argument
    (lines 55-57), then line 58, then line 59. *)
Definition main_step (s : state) : option state :=
  match at_ s with
  | AtGo => Some (State AtAssign (msg2 s) (Started (msg2 s)) (out s))
  | AtAssign => Some (State AtSleep "Goodbye" (g s) (out s))
  | AtSleep => Some (State Past (msg2 s) (g s) (out s))
  | Past => None
  end.

(** Line 56: [fmt.Println(msg)], on the parameter. *)
Definition go_step (s : state) : option state :=
  match g s with
  | Started msg =>
      Some (State (at_ s) (msg2 s) Returned (out s ++ [Fmt.Sprintln [msg]]))
  | _ => None
  end.

Definition step (t : tid) (s : state) : option state :=
  match t with
  | Main => main_step s
  | Go => go_step s
  end.

Fixpoint steps (sched : list tid) (s : state) : option state :=
  match sched with
  | [] => Some s
  | t :: rest =>
      match step t s with
      | Some s' => steps rest s'
      | None => None
      end
  end.

(** What holds in every state: the argument is evaluated before the
    assignment, and the assignment changes the variable only. *)
Definition copy_inv (s : state) : Prop :=
  match g s with
  | NotStarted => at_ s = AtGo /\ msg2 s = "Hello" /\ out s = []
  | Started msg => at_ s <> AtGo /\ msg = "Hello" /\ out s = []
  | Returned => at_ s <> AtGo /\ out s = [Fmt.Sprintln ["Hello"]]
  end
  /\ (at_ s = AtSleep \/ at_ s = Past -> msg2 s = "Goodbye").

(** The goroutine runs when [main] has slept. *)
Definition late : list tid := [Main; Main; Main; Go].

Local Close Scope string_scope.

Lemma step_copy_inv (t : tid) (s s' : state) :
  copy_inv s -> step t s = Some s' -> copy_inv s'.
Proof.
  unfold copy_inv. intros [Hinv Hm] Hstep. destruct s as [p m gr o].
  simpl in *. destruct t; simpl in Hstep.
  - unfold main_step in Hstep. simpl in Hstep.
    destruct p; try discriminate; injection Hstep as <-; simpl;
      destruct gr; intuition (try discriminate; try congruence).
  - unfold go_step in Hstep. simpl in Hstep.
    destruct gr as [|arg|]; try discriminate. destruct Hinv as (H & -> & ->).
    injection Hstep as <-. simpl. auto.
Qed.

Lemma steps_copy_inv (sched : list tid) :
  forall s s' : state, copy_inv s -> steps sched s = Some s' -> copy_inv s'.
Proof.
  induction sched as [|t sched IH]; simpl; intros s s' Hinv Hrun.
  - injection Hrun as <-. exact Hinv.
  - destruct (step t s) as [s1|] eqn:E; [|discriminate].
    eapply IH; [|exact Hrun]. eapply step_copy_inv; eassumption.
Qed.

Lemma init_copy_inv : copy_inv init.
Proof.
  unfold copy_inv. simpl. split; [auto|]. intros [H|H]; discriminate.
Qed.

(** X21 (goroutines.go:54-59): the goroutine that is given the variable
    as an argument prints Hello, and nothing else, whenever it runs: under
    every schedule, also when [main] has assigned Goodbye to the variable
    before the goroutine prints. *)
Theorem argument_is_copied (sched : list tid) (s : state) :
  steps sched init = Some s ->
  (g s = Returned -> out s = [Fmt.Sprintln ["Hello"%string]])
  /\ (g s <> Returned -> out s = [])
  /\ (at_ s = Past -> msg2 s = "Goodbye"%string).
Proof.
  intros Hrun.
  destruct (steps_copy_inv sched init s init_copy_inv Hrun) as [H Hm].
  split; [|split].
  - intros Hg. rewrite Hg in H. apply H.
  - intros Hg. destruct (g s); [apply H|apply H|congruence].
  - auto.
Qed.

Lemma argument_is_copied_witness :
  exists s : state,
    steps late init = Some s
    /\ msg2 s = "Goodbye"%string /\ out s = [Fmt.Sprintln ["Hello"%string]].
Proof.
  eexists. split; [reflexivity|].
  destruct (argument_is_copied late _ eq_refl) as (H1 & _ & H3).
  split; [exact (H3 eq_refl)|exact (H1 eq_refl)].
Defined.

End Argument.

(* ===================================================================== *)
(** ** goroutines.go, progress (lines 76-120)                             *)
(* ===================================================================== *)

Module Progress.

Import Goroutines.

(** What [main] has left to do, counted in its own steps: the statements
    up to the end, with [n1 - i] and [n2 - i] rounds of the loop it is in
    or has before it. *)
Definition main_left (n1 n2 : nat) (p : pc) (i : nat) : nat :=
  let loop3 := (6 * (n2 - i) + 1)%nat in
  let all3 := (6 * n2 + 1)%nat in
  let loop2 := (4 * (n1 - i) + 1)%nat in
  match p with
  | L76 => 4 + (4 * n1 + 1) + 2 + all3 + 1
  | L77 => 3 + (4 * n1 + 1) + 2 + all3 + 1
  | L81 => 2 + (4 * n1 + 1) + 2 + all3 + 1
  | L82 => 1 + (4 * n1 + 1) + 2 + all3 + 1
  | L88 => loop2 + 2 + all3 + 1
  | L89 => 3 + (4 * (n1 - S i) + 1) + 2 + all3 + 1
  | L90 => 2 + (4 * (n1 - S i) + 1) + 2 + all3 + 1
  | L91 => 1 + (4 * (n1 - S i) + 1) + 2 + all3 + 1
  | L93 => 2 + all3 + 1
  | L112 => 1 + all3 + 1
  | L113 => loop3 + 1
  | L114 => 5 + (6 * (n2 - S i) + 1) + 1
  | L115 => 4 + (6 * (n2 - S i) + 1) + 1
  | L116 => 3 + (6 * (n2 - S i) + 1) + 1
  | L117 => 2 + (6 * (n2 - S i) + 1) + 1
  | L118 => 1 + (6 * (n2 - S i) + 1) + 1
  | L120 => 1
  | LEnd => 0
  end%nat.

(** The statements the goroutines started have left. *)
Definition tasks_left (ts : list task) : nat :=
  foldr (fun t a => (length (code t) + a)%nat) 0%nat ts.

(** Every step takes at least one from this number: a step of [main]
    counts five, which covers the at most four statements of the goroutine
    it may start. *)
Definition left (n1 n2 : nat) (s : state) : nat :=
  (5 * main_left n1 n2 (at_ s) (i s) + tasks_left (tasks s))%nat.

Lemma total_pos_lookup (p : instr -> bool) (ts : list task) :
  0 < total (ahead p) ts ->
  exists (k : nat) (t : task), ts !! k = Some t /\ code t <> [].
Proof.
  induction ts as [|t ts IH]; unfold total; simpl; [lia|]. intros H.
  destruct (code t) as [|x rest] eqn:E.
  - unfold ahead at 1 in H. rewrite E in H. simpl in H.
    destruct (IH H) as (k & u & Hk & Hu). exists (S k), u. auto.
  - exists 0%nat, t. split; [reflexivity|]. rewrite E. discriminate.
Qed.

(** A goroutine that has a statement left is never blocked: the locks are
    taken by [main]. *)
Lemma task_step_enabled (k : nat) (s : state) (t : task) :
  tasks s !! k = Some t -> code t <> [] -> task_step k s <> Blocked.
Proof.
  intros Hk Hc. unfold task_step. rewrite Hk.
  destruct (code t) as [|x rest]; [congruence|].
  destruct x; try discriminate.
  - destruct (readers s); discriminate.
  - destruct (writer s); discriminate.
  - destruct (0 <? wg s); discriminate.
Qed.

Lemma enabled_ok (n1 n2 : nat) (t : tid) (s : state) :
  lock_inv s -> step n1 n2 t s <> Blocked ->
  exists s' : state, step n1 n2 t s = Ok s'.
Proof.
  intros Hinv Hb. destruct (step n1 n2 t s) as [s'| |msg] eqn:E.
  - eauto.
  - congruence.
  - exfalso. exact (step_no_panic n1 n2 t s msg Hinv E).
Qed.

Lemma tasks_left_app (l1 l2 : list task) :
  tasks_left (l1 ++ l2) = (tasks_left l1 + tasks_left l2)%nat.
Proof.
  induction l1 as [|t l1 IH]; [reflexivity|].
  unfold tasks_left in *. simpl. lia.
Qed.

Lemma tasks_left_insert (ts : list task) (k : nat) (t t' : task) :
  ts !! k = Some t ->
  (tasks_left (<[k := t']> ts) + length (code t)
   = tasks_left ts + length (code t'))%nat.
Proof.
  intros Hk. pose proof (lookup_lt_Some _ _ _ Hk) as Hlt.
  rewrite insert_take_drop by exact Hlt.
  assert (H1 : tasks_left ts = tasks_left (take k ts ++ t :: drop (S k) ts))
    by (rewrite (take_drop_middle ts k t Hk); reflexivity).
  rewrite H1, !tasks_left_app. unfold tasks_left; simpl. lia.
Qed.

Lemma tasks_left_spawn (ts : list task) (body : list instr) :
  tasks_left (ts ++ [Task body 0]) = (tasks_left ts + length body)%nat.
Proof. rewrite tasks_left_app. unfold tasks_left at 2. simpl. lia. Qed.

(** Every step that goes through takes at least one from [left]. *)
Lemma step_left (n1 n2 : nat) (t : tid) (s s' : state) :
  step n1 n2 t s = Ok s' -> (left n1 n2 s' < left n1 n2 s)%nat.
Proof.
  intros Hstep. destruct s as [p i c w r wr ts o]. destruct t as [|k].
  - simpl in Hstep. main_cases Hstep.
    all: unfold left, main_left; fields; rewrite ?tasks_left_spawn;
      cbn [length anon sayHi increment sayHiMutex incrementMutex]; lia.
  - simpl in Hstep. unfold task_step in Hstep. fields in Hstep.
    destruct (ts !! k) as [[cd m]|] eqn:Hk; [|discriminate].
    cbn [code tmp] in Hstep. destruct cd as [|x rest]; [discriminate|].
    pose proof (fun m' => tasks_left_insert ts k _ (Task rest m') Hk) as Hi.
    cbn [code length] in Hi.
    task_cases Hstep x; unfold left; fields;
      match goal with
      | |- context [<[k := Task rest ?m']> ts] => specialize (Hi m')
      end; lia.
Qed.

Lemma steps_left (n1 n2 : nat) (sched : list tid) :
  forall s s' : state,
    steps n1 n2 sched s = Ok s' ->
    (length sched + left n1 n2 s' <= left n1 n2 s)%nat.
Proof.
  induction sched as [|t sched IH]; simpl; intros s s' Hrun.
  - injection Hrun as <-. lia.
  - destruct (step n1 n2 t s) as [s1| |msg] eqn:E; try discriminate.
    pose proof (step_left n1 n2 t s s1 E). pose proof (IH s1 s' Hrun). lia.
Qed.

(** Where [main] is not at its end, something can move. *)
Lemma can_step (n1 n2 : nat) (s : state) :
  lock_inv s -> at_ s <> LEnd ->
  exists (t : tid) (s' : state), step n1 n2 t s = Ok s'.
Proof.
  intros Hinv Hend.
  assert (Htask : forall p, 0 < total (ahead p) (tasks s) ->
                            exists (t : tid) (s' : state), step n1 n2 t s = Ok s').
  { intros p Hp. destruct (total_pos_lookup p _ Hp) as (k & t & Hk & Hc).
    exists (Go k). apply (enabled_ok n1 n2 (Go k) s Hinv).
    simpl. eapply task_step_enabled; eassumption. }
  destruct (step n1 n2 Main s) as [s'| |msg] eqn:E.
  - exists Main, s'. exact E.
  - destruct Hinv as [[Hwg _ _] Hwr Hrd].
    pose proof (total_nonneg is_done (tasks s)) as Nd.
    pose proof (total_nonneg is_unlock (tasks s)) as Nu.
    pose proof (total_nonneg is_runlock (tasks s)) as Nr.
    simpl in E. unfold main_step, wait in E.
    destruct (at_ s) eqn:Ep; try discriminate; try congruence; cbn in Hwg, Hwr, Hrd.
    + destruct (Z.eqb_spec (wg s) 0); [discriminate|]. apply (Htask is_done). lia.
    + destruct (Z.eqb_spec (wg s) 0); [discriminate|]. apply (Htask is_done). lia.
    + destruct (writer s); [|discriminate]. apply (Htask is_unlock). lia.
    + destruct (writer s) eqn:Ew.
      * apply (Htask is_unlock). lia.
      * destruct (Nat.eqb_spec (readers s) 0); [discriminate|].
        apply (Htask is_runlock). lia.
    + destruct (Z.eqb_spec (wg s) 0); [discriminate|]. apply (Htask is_done). lia.
  - exfalso. exact (step_no_panic n1 n2 Main s msg Hinv E).
Qed.

(** From a state the invariant holds in, some schedule takes [main] to
    its end. *)
Lemma completes_from (n1 n2 : nat) (n : nat) :
  forall s : state,
    (left n1 n2 s < n)%nat -> lock_inv s ->
    exists (more : list tid) (s' : state),
      steps n1 n2 more s = Ok s' /\ at_ s' = LEnd.
Proof.
  induction n as [|n IH]; intros s Hn Hinv; [lia|].
  destruct (at_ s) eqn:Ep;
    try (destruct (can_step n1 n2 s Hinv ltac:(congruence)) as (t & s1 & Ht);
         pose proof (step_left n1 n2 t s s1 Ht) as Hlt;
         destruct (IH s1 ltac:(lia) (step_lock_inv n1 n2 t s s1 Hinv Ht))
           as (more & s' & Hm & He);
         exists (t :: more), s'; split; [simpl; rewrite Ht; exact Hm|exact He]).
  exists [], s. split; [reflexivity|exact Ep].
Qed.

(** *** No deadlock, no endless run *)

(** X23 (goroutines.go:76-120): [main] and its goroutines never
    deadlock, whatever the loop bounds and the schedule: as long as [main]
    has not passed its last [wg.Wait()], [main] or one of the goroutines
    can take a step. *)
Theorem never_deadlocks (n1 n2 : nat) (sched : list tid) (s : state) :
  steps n1 n2 sched init = Ok s -> at_ s <> LEnd ->
  exists (t : tid) (s' : state), step n1 n2 t s = Ok s'.
Proof.
  intros Hrun Hend. apply can_step; [|exact Hend].
  exact (reachable_lock_inv n1 n2 sched s Hrun).
Qed.

(** X24 (goroutines.go:76-120): no run is endless: with [n1] and [n2]
    rounds of the two loops, no schedule takes more than
    [20 * n1 + 30 * n2 + 45] steps. *)
Theorem runs_are_bounded (n1 n2 : nat) (sched : list tid) (s : state) :
  steps n1 n2 sched init = Ok s ->
  (length sched <= 20 * n1 + 30 * n2 + 45)%nat.
Proof.
  intros Hrun. pose proof (steps_left n1 n2 sched init s Hrun) as H.
  unfold left at 2 in H. unfold main_left, tasks_left, init in H.
  cbn [at_ i tasks foldr] in H. lia.
Qed.

(** X25 (goroutines.go:76-120): whatever has been scheduled so far, the
    run can be carried on to the end of [main]: past all three
    [wg.Wait()], with every goroutine returned. *)
Theorem every_run_completes (n1 n2 : nat) (sched : list tid) (s : state) :
  steps n1 n2 sched init = Ok s ->
  exists (more : list tid) (s' : state),
    steps n1 n2 (sched ++ more) init = Ok s'
    /\ at_ s' = LEnd /\ Forall finished (tasks s').
Proof.
  intros Hrun.
  pose proof (reachable_lock_inv n1 n2 sched s Hrun) as Hinv.
  destruct (completes_from n1 n2 (S (left n1 n2 s)) s ltac:(lia) Hinv)
    as (more & s' & Hm & He).
  exists more, s'. split; [rewrite steps_app, Hrun; exact Hm|].
  split; [exact He|].
  destruct (steps_lock_inv n1 n2 more s s' Hinv Hm) as [[Hwg Hidle Hcodes] _ _].
  rewrite He in *. specialize (Hidle eq_refl).
  apply all_finished; [assumption|cbn in Hwg; lia].
Qed.

Lemma never_deadlocks_witness :
  exists (t : tid) (s' : state), step 2 2 t after_wait2 = Ok s'.
Proof.
  apply (never_deadlocks 2 2 _ after_wait2 run_to_wait2). discriminate.
Defined.

Lemma runs_are_bounded_witness :
  (length (batch1 ++ batch2_racy ++ batch3) <= 20 * 2 + 30 * 2 + 45)%nat.
Proof.
  exact (runs_are_bounded 2 2 _ after_batch3 run_batch3).
Defined.

Lemma every_run_completes_witness :
  exists (more : list tid) (s' : state),
    steps 2 2 ((batch1 ++ batch2_racy ++ [Main]) ++ more) init = Ok s'
    /\ at_ s' = LEnd /\ Forall finished (tasks s').
Proof.
  exact (every_run_completes 2 2 _ after_wait2 run_to_wait2).
Defined.

End Progress.

(* ===================================================================== *)
(** ** channels.go, [main] is never held up by the logger (319-333)       *)
(* ===================================================================== *)

Module LogProgress.

Import Chan Logger LogOrder.

(** The statements [main] has left. *)
Definition main_left (p : mpc) : nat :=
  match p with
  | M319 => 5
  | M320 => 4
  | M325 => 3
  | M330 => 2
  | M333 => 1
  | MEnd => 0
  end.

(** Every step takes at least one from this number. *)
Definition left (st : state) : nat :=
  2 * main_left (pc st)
  + length (buf (logCh (world st))) + length (buf (doneCh (world st))).

(** [logCh] keeps its 50 places and is never closed; the logger runs from
    line 319 until it takes the signal. *)
Record ready_inv (now1 now2 : Fmt.time) (st : state) : Prop := ReadyInv {
  y_rendezvous : rendezvous_inv st;
  y_cap : cap (logCh (world st)) = 50%nat;
  y_open : closed (logCh (world st)) = false;
  y_lines : lines (world st) = map logLine (main_sent now1 now2 (pc st));
  y_idle : pc st = M319 <-> lg (world st) = Idle
}.

Lemma step_cap (a : action) (s s' : sys) :
  step a s = Some s' -> cap (logCh s') = cap (logCh s).
Proof.
  intros Hstep. destruct s as [lc dc l o]. simpl in *.
  destruct a as [|e| | |]; simpl in Hstep.
  - destruct l; try discriminate. injection Hstep as <-. reflexivity.
  - unfold chansend in Hstep. destruct (closed lc); [discriminate|].
    destruct (length (buf lc) <? cap lc)%nat.
    + injection Hstep as <-. reflexivity.
    + destruct l; try discriminate. destruct (handoff lc e) as [[x b]|]; [|discriminate].
      injection Hstep as <-. reflexivity.
  - destruct (chansend dc tt).
    + injection Hstep as <-. reflexivity.
    + destruct l; try discriminate. destruct (handoff dc tt); [|discriminate].
      injection Hstep as <-. reflexivity.
    + discriminate.
  - destruct l; try discriminate. unfold chanrecv in Hstep.
    destruct (buf lc) as [|x q].
    + destruct (closed lc); [|discriminate]. injection Hstep as <-. reflexivity.
    + injection Hstep as <-. reflexivity.
  - destruct l; try discriminate.
    destruct (chanrecv tt dc); [|discriminate].
    injection Hstep as <-. reflexivity.
Qed.

Lemma step_idle (a : action) (s s' : sys) :
  step a s = Some s' -> (lg s' = Idle <-> lg s = Idle /\ a <> GoLogger).
Proof.
  intros Hstep. destruct s as [lc dc l o]. simpl in *.
  assert (Hfin : forall l' : lstate,
             (l' = l /\ a <> GoLogger) \/ (l' <> Idle /\ (l <> Idle \/ a = GoLogger)) ->
             l' = Idle <-> l = Idle /\ a <> GoLogger).
  { intros l' [[-> Ha]|[H1 [H2|H2]]]; tauto. }
  destruct a as [|e| | |]; simpl in Hstep.
  - destruct l; try discriminate. injection Hstep as <-. simpl.
    apply Hfin. right. split; [discriminate|auto].
  - destruct (chansend lc e).
    + injection Hstep as <-. simpl. apply Hfin. left. split; [auto|discriminate].
    + destruct l; try discriminate.
      destruct (handoff lc e) as [[x b]|]; [|discriminate].
      injection Hstep as <-. simpl. apply Hfin. right.
      split; [discriminate|left; discriminate].
    + discriminate.
  - destruct (chansend dc tt).
    + injection Hstep as <-. simpl. apply Hfin. left. split; [auto|discriminate].
    + destruct l; try discriminate. destruct (handoff dc tt); [|discriminate].
      injection Hstep as <-. simpl. apply Hfin. right.
      split; [discriminate|left; discriminate].
    + discriminate.
  - destruct l; try discriminate.
    destruct (chanrecv zeroEntry lc); [|discriminate].
    injection Hstep as <-. simpl. apply Hfin. right.
    split; [discriminate|left; discriminate].
  - destruct l; try discriminate.
    destruct (chanrecv tt dc); [|discriminate].
    injection Hstep as <-. simpl. apply Hfin. right.
    split; [discriminate|left; discriminate].
Qed.

Lemma boot_ready_inv (now1 now2 : Fmt.time) : ready_inv now1 now2 (boot 0).
Proof.
  constructor; try reflexivity; [apply boot_inv|]. simpl. tauto.
Qed.

Lemma mstep_ready_inv (now1 now2 : Fmt.time) (t : tid) (st st' : state) :
  ready_inv now1 now2 st -> mstep now1 now2 t st = Some st' ->
  ready_inv now1 now2 st'.
Proof.
  intros [Hr Hcap Hop Hl Hid] Hstep.
  pose proof (mstep_inv now1 now2 t st st' Hr Hstep) as Hr'.
  destruct (mstep_lines now1 now2 t st st' Hop Hl Hstep) as [Hop' Hl'].
  constructor; try assumption; clear Hr Hr' Hop Hop' Hl Hl'.
  - destruct st as [w p]. unfold mstep in Hstep. cbn [world pc] in *.
    assert (Hgo : forall (a : action) (q : mpc),
               option_map (fun w => State w q) (step a w) = Some st' ->
               cap (logCh (world st')) = 50%nat).
    { intros a q Ha. destruct (step a w) as [w'|] eqn:E; [|discriminate].
      injection Ha as <-. cbn [world]. rewrite (step_cap _ _ _ E). exact Hcap. }
    destruct t; [destruct p|..]; try (apply (Hgo _ _ Hstep)).
    + injection Hstep as <-. exact Hcap.
    + discriminate.
  - destruct st as [w p]. unfold mstep in Hstep. cbn [world pc] in *.
    assert (Hgo : forall (a : action) (q : mpc),
               option_map (fun w => State w q) (step a w) = Some st' ->
               (q = M319 <-> p = M319 /\ a <> GoLogger) ->
               pc st' = M319 <-> lg (world st') = Idle).
    { intros a q Ha Hq. destruct (step a w) as [w'|] eqn:E; [|discriminate].
      injection Ha as <-. cbn [world pc].
      pose proof (step_idle _ _ _ E) as Hi. tauto. }
    destruct t; [destruct p|..];
      try (apply (Hgo _ _ Hstep); split;
           [intros H; first [discriminate|split; [exact H|discriminate]]
           |intros [H1 H2]; first [discriminate|congruence]]).
    + injection Hstep as <-. cbn [world pc]. split; [discriminate|].
      intros H. apply Hid in H. discriminate.
    + discriminate.
Qed.

Lemma exec_ready_inv (now1 now2 : Fmt.time) (sched : list tid) :
  forall st st' : state,
    ready_inv now1 now2 st -> exec now1 now2 sched st = Some st' ->
    ready_inv now1 now2 st'.
Proof.
  induction sched as [|t sched IH]; simpl; intros st st' Hinv Hrun.
  - injection Hrun as <-. exact Hinv.
  - destruct (mstep now1 now2 t st) as [st1|] eqn:E; [|discriminate].
    eapply IH; [|exact Hrun]. eapply mstep_ready_inv; eassumption.
Qed.

(** Where the invariant holds [main] can take its next statement. *)
Lemma main_ready (now1 now2 : Fmt.time) (st : state) :
  ready_inv now1 now2 st -> pc st <> MEnd ->
  exists st' : state, mstep now1 now2 Main st = Some st'.
Proof.
  intros [(Hdcap & Hdbuf & Hdcl & Hend) Hcap Hop Hl Hid] Hpc.
  destruct st as [[lc dc l o] p]. unfold lines in Hl. cbn in *.
  assert (Hlen : (length (buf lc) <= 2)%nat).
  { apply (f_equal (@length string)) in Hl.
    rewrite length_app, !length_map in Hl.
    destruct p; cbn in Hl; lia. }
  assert (Hsend : forall e : logEntry,
             chansend lc e = Sent (Mk (cap lc) (buf lc ++ [e]) (closed lc))).
  { intros e. unfold chansend. rewrite Hop, Hcap.
    replace (length (buf lc) <? 50)%nat with true
      by (symmetry; apply Nat.ltb_lt; lia).
    reflexivity. }
  destruct p; cbn.
  - destruct l; try (eexists; reflexivity);
      exfalso; assert (H : M319 = M319) by reflexivity; apply Hid in H;
      discriminate.
  - rewrite Hsend. eexists; reflexivity.
  - rewrite Hsend. eexists; reflexivity.
  - eexists; reflexivity.
  - unfold chansend, handoff. rewrite Hdcl, Hdcap, Hdbuf. cbn.
    destruct l.
    + exfalso. assert (H : Idle = Idle) by reflexivity. apply Hid in H.
      discriminate.
    + eexists; reflexivity.
    + exfalso. assert (H : Stopped = Stopped) by reflexivity. apply Hend in H.
      discriminate.
  - congruence.
Qed.

Lemma mstep_left (now1 now2 : Fmt.time) (t : tid) (st st' : state) :
  closed (logCh (world st)) = false -> closed (doneCh (world st)) = false ->
  mstep now1 now2 t st = Some st' -> (left st' < left st)%nat.
Proof.
  intros Hl Hd Hstep. destruct st as [[lc dc l o] p]. unfold left. cbn in Hl, Hd.
  destruct t; [destruct p|..]; cbn in Hstep;
    unfold chansend, chanrecv, handoff in Hstep; rewrite ?Hl, ?Hd in Hstep;
    destruct l; try discriminate;
    repeat match type of Hstep with
           | context [(?a <? ?b)%nat] => destruct (a <? b)%nat
           | context [match buf ?c with [] => _ | _ => _ end] =>
               let E := fresh "E" in destruct (buf c) eqn:E
           end;
    cbn in Hstep; try discriminate; injection Hstep as <-; cbn;
    rewrite ?length_app; cbn; rewrite ?E, ?E0; cbn; lia.
Qed.

Lemma exec_left (now1 now2 : Fmt.time) (sched : list tid) :
  forall st st' : state,
    ready_inv now1 now2 st -> exec now1 now2 sched st = Some st' ->
    (length sched + left st' <= left st)%nat.
Proof.
  induction sched as [|t sched IH]; simpl; intros st st' Hinv Hrun.
  - injection Hrun as <-. lia.
  - destruct (mstep now1 now2 t st) as [st1|] eqn:E; [|discriminate].
    pose proof (mstep_ready_inv now1 now2 t st st1 Hinv E) as Hinv1.
    pose proof (IH st1 st' Hinv1 Hrun).
    destruct Hinv as [(_ & _ & Hd & _) _ Hl _ _].
    pose proof (mstep_left now1 now2 t st st1 Hl Hd E). lia.
Qed.

(** X26 (channels.go:319-333): [main] is never held up by the logger.
    Under every schedule, and whatever [time.Now()] returns, as long as
    [main] has not sent the signal it can take its next statement: the two
    sends into [logCh] find room in the buffer, and the send on [doneCh]
    finds the logger in its [select]; and no schedule takes more than ten
    steps. *)
Theorem main_is_never_held_up (now1 now2 : Fmt.time) (sched : list tid)
        (st : state) :
  exec now1 now2 sched (boot 0) = Some st ->
  (length sched <= 10)%nat
  /\ (pc st <> MEnd -> exists st' : state, mstep now1 now2 Main st = Some st').
Proof.
  intros Hrun. split.
  - pose proof (exec_left now1 now2 sched (boot 0) st
                  (boot_ready_inv now1 now2) Hrun) as H.
    change (left (boot 0)) with 10%nat in H. lia.
  - apply main_ready.
    exact (exec_ready_inv now1 now2 sched (boot 0) st
             (boot_ready_inv now1 now2) Hrun).
Qed.

Lemma main_is_never_held_up_witness :
  (length [Main; Main; LoggerLog] <= 10)%nat
  /\ (M325 <> MEnd ->
      exists st' : state,
        mstep noon noon Main
          (State (Sys (Mk 50 [] false) (make 0) Running
                      [logLine (Entry noon logInfo "Starting application")])
                 M325)
        = Some st').
Proof.
  exact (main_is_never_held_up noon noon [Main; Main; LoggerLog] _ eq_refl).
Defined.

End LogProgress.
